(** * xgboost [src/data/data.cc]: sparse pages, meta information and the
      distributed column-count check, embedded in Rocq.

    The C++ of [data.cc] is embedded shallowly.  Unsigned machine integers
    ([size_t], [uint64_t], [bst_uint]) are values of [Z] with their
    wrap-around written out; [std::vector] is [list]; a [bst_float] is its
    32-bit pattern, so that the byte-level code ([memcpy], [Stream::Write])
    moves it around unchanged.  Code that can fail returns an [outcome]:
    [Fatal] for [CHECK]/[LOG(FATAL)] and C++ exceptions, [Undefined] where the
    C++ has no defined behaviour (reads or writes outside a vector). *)

From Stdlib Require Import ZArith List Lia Permutation String Ascii Bool.
From Stdlib Require Import DecimalString DecimalNat DecimalFacts.
From coqutil Require Import Byte Word.LittleEndianList.
From stdpp Require Import base list.

Local Open Scope Z_scope.

(** ** Machine integers *)

Definition wrap32 (z : Z) : Z := z mod 2 ^ 32.
Definition wrap64 (z : Z) : Z := z mod 2 ^ 64.

(** [v.size()] of a vector, as the [size_t] it is. *)
Definition vsize {A} (v : list A) : Z := Z.of_nat (length v).

(** ** Outcomes of fallible code *)

(** What a failing [CHECK] or [LOG(FATAL)] streams into its message. *)
Inductive Error : Type :=
| VersionNotSupported (major minor patch : Z)
    (* "Binary DMatrix generated by XGBoost: <v> is no longer supported." *)
| InvalidFormat
    (* "MetaInfo: invalid format" *)
| UnknownDataType
    (* "Unknown data type" *)
| UnknownMetaInfo (key : string)
    (* "Unknown metainfo: <key>" *)
| DifferentNumberOfColumns (i max_ind : nat) (v max_cols : Z)
    (* "DMatrix at rank: <i> worker has different number of columns than
        rank: <max_ind> worker. (<v> vs. <max_cols>)" *)
| OffsetSizeMismatch (self_data_size other_data_size : Z)
    (* CHECK_EQ(self_offset.size(), other_offset.size())
         << "self_data.size(): " .. "other_data.size(): " .. *)
| CheckFailed (expr : string)
    (* any other CHECK, named by its expression *)
| OutOfRange
    (* std::out_of_range thrown by vector::at *)
| LengthError
    (* std::length_error thrown by vector::resize *)
| ExternalMemoryNotEnabled.
    (* "External memory is not enabled in mingw" *)

Inductive outcome (A : Type) : Type :=
| Ok (a : A)
| Fatal (e : Error)
| Undefined.
Arguments Ok {A} a.
Arguments Fatal {A} e.
Arguments Undefined {A}.

Definition bind {A B} (m : outcome A) (k : A -> outcome B) : outcome B :=
  match m with
  | Ok a => k a
  | Fatal e => Fatal e
  | Undefined => Undefined
  end.

Notation "'do' x <- m ; k" := (bind m (fun x => k))
  (at level 10, x name, m at level 100, k at level 200, only parsing).
Notation "'check' m ; k" := (bind m (fun _ => k))
  (at level 10, m at level 100, k at level 200, only parsing).

(** [CHECK(cond) << msg]. *)
Definition CHECK (cond : bool) (e : Error) : outcome unit :=
  if cond then Ok tt else Fatal e.

(** [for (size_t i = lo; i < lo + n; ++i) body], threading the state. *)
Fixpoint for_loop {St} (n : nat) (i : nat) (body : nat -> St -> outcome St)
    (s : St) : outcome St :=
  match n with
  | O => Ok s
  | S n' => do s' <- body i s ; for_loop n' (S i) body s'
  end.

(** ** Vectors *)

(** [v.back()]: undefined on an empty vector. *)
Definition back {A} (v : list A) : outcome A :=
  match last v with
  | Some x => Ok x
  | None => Undefined
  end.

(** [v.at(i)]: throws [std::out_of_range]. *)
Definition vec_at {A} (v : list A) (i : nat) : outcome A :=
  match v !! i with
  | Some x => Ok x
  | None => Fatal OutOfRange
  end.

(** [v[i]] read: undefined out of range. *)
Definition vec_get {A} (v : list A) (i : nat) : outcome A :=
  match v !! i with
  | Some x => Ok x
  | None => Undefined
  end.

(** [v[i] = x]: undefined out of range. *)
Definition vec_set {A} (v : list A) (i : nat) (x : A) : outcome (list A) :=
  if decide (i < length v)%nat then Ok (<[i := x]> v) else Undefined.

(** [v.at(i) = x]. *)
Definition vec_set_at {A} (v : list A) (i : nat) (x : A) : outcome (list A) :=
  if decide (i < length v)%nat then Ok (<[i := x]> v) else Fatal OutOfRange.

(** [v.resize(n)] with value-initialised new elements [d].  A [resize]
    beyond [max_size()] throws [std::length_error]: this is modelled where
    the length comes out of a stream ([Stream_Read_vector]) and left out
    where the caller holds a buffer of that many elements ([SetInfo]). *)
Definition resize' {A} (v : list A) (n : Z) (d : A) : list A :=
  take (Z.to_nat n) v ++ replicate (Z.to_nat n - length v) d.

(** [std::memcpy(BeginPtr(dst) + dpos, BeginPtr(src) + spos, sizeof(T) * len)]
    on vectors of [T]: [len] elements are overwritten in place.  Touching
    memory outside either vector is undefined. *)
Definition memcpy {A} (dst : list A) (dpos : Z) (src : list A) (spos len : Z)
  : outcome (list A) :=
  if (0 <=? dpos) && (0 <=? spos) && (0 <=? len)
     && (dpos + len <=? vsize dst) && (spos + len <=? vsize src)
  then Ok (take (Z.to_nat dpos) dst
           ++ take (Z.to_nat len) (drop (Z.to_nat spos) src)
           ++ drop (Z.to_nat (dpos + len)) dst)
  else Undefined.

(** ** Data model: [Entry] and [SparsePage] *)

(** [bst_float], by its IEEE-754 single-precision bit pattern. *)
Definition bst_float := Z.

(** The bit pattern of [1.0f]. *)
Definition one_f : bst_float := 0x3F800000.

(** [struct Entry { bst_uint index; bst_float fvalue; }]. *)
Record Entry : Type := mkEntry { index : Z; fvalue : bst_float }.

(** A value-initialised [Entry]. *)
Definition Entry0 : Entry := mkEntry 0 0.

(** [class SparsePage { offset; data; base_rowid; }]. *)
Record SparsePage : Type := mkPage {
  offset : list Z;
  data : list Entry;
  base_rowid : Z
}.

(** Modelled from the spec: the constructor [SparsePage()] is declared in
    [xgboost/data.h], which is missing; by the spec's data model an empty page
    has no entries, the single offset 0 and starts at row 0. *)
Definition SparsePage_new : SparsePage := mkPage [0] [] 0.

(** Modelled from the spec: [SparsePage::Size()] is declared in
    [xgboost/data.h], which is missing; the spec's data model gives the offset
    array the length row_count + 1. *)
Definition Size (p : SparsePage) : Z := wrap64 (vsize (offset p) - 1).

(** Modelled from the spec: [SparsePage::operator[]] is declared in
    [xgboost/data.h], which is missing; row [i] is the span of [data] between
    [offset[i]] and [offset[i + 1]]. *)
Definition Inst (p : SparsePage) (i : nat) : outcome (list Entry) :=
  do b <- vec_get (offset p) i ;
  do e <- vec_get (offset p) (S i) ;
  if (0 <=? b) && (b <=? e) && (e <=? vsize (data p))
  then Ok (take (Z.to_nat (e - b)) (drop (Z.to_nat b) (data p)))
  else Undefined.

(** The page invariant of the spec: [offset[0] = 0], [offset] nondecreasing,
    [offset.back() == data.size()]. *)
Fixpoint nondecreasing (l : list Z) : Prop :=
  match l with
  | x :: t => match t with y :: _ => x <= y | [] => True end /\ nondecreasing t
  | [] => True
  end.

Definition page_invariant (p : SparsePage) : Prop :=
  offset p !! 0%nat = Some 0
  /\ nondecreasing (offset p)
  /\ last (offset p) = Some (vsize (data p)).

(** The vectors of two pages fit the 64-bit address space together (they
    are in memory at the same time). *)
Definition addressable (P Q : SparsePage) : Prop :=
  vsize (data P) + vsize (data Q) < 2 ^ 64
  /\ vsize (offset P) + vsize (offset Q) < 2 ^ 64.

(** ** [SparsePage::Push(const SparsePage&)] *)

Definition Push (self batch : SparsePage) : outcome SparsePage :=
  let data_vec := data self in
  let offset_vec := offset self in
  let batch_offset_vec := offset batch in
  let batch_data_vec := data batch in
  do top <- back offset_vec ;
  let data_vec := resize' data_vec (wrap64 (top + vsize batch_data_vec)) Entry0 in
  do data_vec <- memcpy data_vec top batch_data_vec 0 (vsize batch_data_vec) ;
  let begin := length offset_vec in
  let offset_vec := resize' offset_vec (wrap64 (vsize offset_vec + Size batch)) 0 in
  do offset_vec <-
    for_loop (Z.to_nat (Size batch)) 0
      (fun i offset_vec =>
         do o <- vec_get batch_offset_vec (i + 1) ;
         vec_set offset_vec (i + begin) (wrap64 (top + o)))
      offset_vec ;
  Ok (mkPage offset_vec data_vec (base_rowid self)).

(** ** [SparsePage::PushCSC] *)

(** The state of the merging loop: the freshly built [data] and [offset]
    vectors and the cursors [beg] and [ptr]. *)
Record csc_state : Type := mkCsc {
  csc_data : list Entry;
  csc_offset : list Z;
  csc_beg : Z;
  csc_ptr : nat
}.

Definition PushCSC_body (self_data other_data : list Entry)
    (self_offset other_offset : list Z) (i : nat) (s : csc_state)
  : outcome csc_state :=
  do self_beg <- vec_at self_offset i ;
  do self_end <- vec_at self_offset (i + 1) ;
  let self_length := wrap64 (self_end - self_beg) in
  check CHECK (csc_beg s <=? vsize (csc_data s)) (CheckFailed "beg <= data.size()") ;
  do data1 <- memcpy (csc_data s) (csc_beg s) self_data self_beg self_length ;
  let beg := wrap64 (csc_beg s + self_length) in
  do other_beg <- vec_at other_offset i ;
  do other_end <- vec_at other_offset (i + 1) ;
  let other_length := wrap64 (other_end - other_beg) in
  check CHECK (beg <=? vsize data1) (CheckFailed "beg <= data.size()") ;
  do data2 <- memcpy data1 beg other_data other_beg other_length ;
  let beg := wrap64 (beg + other_length) in
  check CHECK (Z.of_nat (csc_ptr s) <? vsize (csc_offset s))
        (CheckFailed "ptr < offset.size()") ;
  do offset1 <- vec_set_at (csc_offset s) (csc_ptr s) beg ;
  Ok (mkCsc data2 offset1 beg (S (csc_ptr s))).

Definition PushCSC (self batch : SparsePage) : outcome SparsePage :=
  let self_data := data self in
  let self_offset := offset self in
  let other_data := data batch in
  let other_offset := offset batch in
  match other_data with
  | [] => Ok self
  | _ :: _ =>
    match self_data with
    | [] => Ok (mkPage other_offset other_data (base_rowid self))
    | _ :: _ =>
      check CHECK (vsize self_offset =? vsize other_offset)
                  (OffsetSizeMismatch (vsize self_data) (vsize other_data)) ;
      let offset := replicate (length other_offset) 0 in
      do offset <- vec_set offset 0 0 ;
      let data :=
        replicate (Z.to_nat (wrap64 (vsize self_data + vsize other_data))) Entry0 in
      let n_features := wrap64 (vsize other_offset - 1) in
      do s <- for_loop (Z.to_nat n_features) 0
             (PushCSC_body self_data other_data self_offset other_offset)
             (mkCsc data offset 0 1) ;
      Ok (mkPage (csc_offset s) (csc_data s) (base_rowid self))
    end
  end.

(** ** [SparsePage::Push(const dmlc::RowBlock<uint32_t>&)] *)

Module dmlc.
(** [dmlc::RowBlock<uint32_t>] (dmlc-core), reduced to the members
    [data.cc] reads: [size] rows, the array [offset] of row bounds and the
    arrays [index] and [value] behind raw pointers ([None] is [nullptr]). *)
Record RowBlock : Type := mkRowBlock {
  size : Z;
  offset : list Z;
  index : option (list Z);
  value : option (list bst_float)
}.
End dmlc.

(** [ptr[i]] through a raw pointer: undefined outside the array. *)
Definition ptr_get {A} (ptr : list A) (i : Z) : outcome A :=
  if 0 <=? i then vec_get ptr (Z.to_nat i) else Undefined.

(** The two [reserve] calls only pre-allocate; what they read of the block,
    [batch.offset[batch.size]] and [batch.offset[0]], is read first here
    too.  A [reserve] that is asked for more than [max_size()] throws
    [std::length_error]; no block whose entries are in memory asks for that,
    and this throw is left out. *)
Definition Push_RowBlock (self : SparsePage) (batch : dmlc.RowBlock)
  : outcome SparsePage :=
  let data_vec := data self in
  let offset_vec := offset self in
  do hi <- ptr_get (dmlc.offset batch) (dmlc.size batch) ;
  do lo <- ptr_get (dmlc.offset batch) 0 ;
  do batch_index <-
    match dmlc.index batch with
    | Some a => Ok a
    | None => Fatal (CheckFailed "batch.index != nullptr")
    end ;
  do offset_vec <-
    for_loop (Z.to_nat (dmlc.size batch)) 0
      (fun i offset_vec =>
         do b <- back offset_vec ;
         do e1 <- ptr_get (dmlc.offset batch) (Z.of_nat i + 1) ;
         do e0 <- ptr_get (dmlc.offset batch) (Z.of_nat i) ;
         Ok (offset_vec ++ [wrap64 (wrap64 (b + e1) - e0)]))
      offset_vec ;
  do data_vec <-
    for_loop (Z.to_nat (hi - lo)) (Z.to_nat lo)
      (fun i data_vec =>
         do index <- ptr_get batch_index (Z.of_nat i) ;
         do fvalue <-
           match dmlc.value batch with
           | None => Ok one_f
           | Some v => ptr_get v (Z.of_nat i)
           end ;
         Ok (data_vec ++ [mkEntry index fvalue]))
      data_vec ;
  do b <- back offset_vec ;
  check CHECK (b =? vsize data_vec) (CheckFailed "offset_vec.back() == data.Size()") ;
  Ok (mkPage offset_vec data_vec (base_rowid self)).

(** ** [common::ParallelGroupBuilder] *)

Module common.
Section Builder.
Context {ValueType : Type}.

(** Modelled from the spec: [common/group_data.h] is missing.  The builder
    owns the output arrays [rptr] (offsets) and [data] and one counter per
    (thread, group) pair, [thread_rptr[tid][group]]; a group or thread
    outside the budget of [InitBudget] is outside the contract and comes
    out as [Undefined]. *)
Record ParallelGroupBuilder : Type := mkBuilder {
  rptr : list Z;
  data_ : list ValueType;
  thread_rptr : list (list Z);
  num_groups : nat
}.

(** Modelled from the spec: "[InitBudget(numGroups, numThreads)]: allocate a
    zeroed counter per (thread, group) pair". *)
Definition InitBudget (nkeys nthread : nat) (b : ParallelGroupBuilder)
  : ParallelGroupBuilder :=
  mkBuilder (rptr b) (data_ b) (replicate nthread (replicate nkeys 0)) nkeys.

(** Modelled from the spec: "[AddBudget(groupId, threadId)]: increment that
    thread's own counter for groupId". *)
Definition AddBudget (key : nat) (threadid : nat) (b : ParallelGroupBuilder)
  : outcome ParallelGroupBuilder :=
  do trptr <- vec_get (thread_rptr b) threadid ;
  do c <- vec_get trptr key ;
  Ok (mkBuilder (rptr b) (data_ b)
                (<[threadid := <[key := c + 1]> trptr]> (thread_rptr b))
                (num_groups b)).

(** Modelled from the spec: one group of [InitStorage], "assign each thread
    a disjoint, contiguous sub-range inside that group's segment": the
    threads, in thread order, each get their count of slots from [start] on,
    and their counter becomes the first of their slots. *)
Fixpoint stripe (key : nat) (trs : list (list Z)) (start : Z)
  : list (list Z) * Z :=
  match trs with
  | [] => ([], start)
  | trptr :: rest =>
      let ncnt := default 0 (trptr !! key) in
      let '(rest', fin) := stripe key rest (start + ncnt) in
      (<[key := start]> trptr :: rest', fin)
  end.

(** Modelled from the spec: the groups of [InitStorage] one after the
    other, each starting where the one before ends; [acc] collects the
    offsets. *)
Fixpoint InitStorage_groups (nkeys : nat) (key : nat) (trs : list (list Z))
    (start : Z) (acc : list Z) : list (list Z) * list Z * Z :=
  match nkeys with
  | O => (trs, acc, start)
  | S n =>
      let '(trs', fin) := stripe key trs start in
      InitStorage_groups n (S key) trs' fin (acc ++ [fin])
  end.

(** Modelled from the spec: "[InitStorage()]: for each group, sum counts
    across all threads to get its final size; assign each thread a disjoint,
    contiguous sub-range inside that group's segment of the output arrays
    (thread-ordered striping); allocate output offset/data arrays to the
    exact combined size".  [d] is the value new slots are initialised
    with. *)
Definition InitStorage (d : ValueType) (b : ParallelGroupBuilder)
  : ParallelGroupBuilder :=
  let '(trs, rp, total) :=
    InitStorage_groups (num_groups b) 0 (thread_rptr b) 0 [0] in
  mkBuilder rp (replicate (Z.to_nat total) d) trs (num_groups b).

(** Modelled from the spec: "[Push(groupId, value, threadId)]: write value
    into that thread's next free slot within its assigned sub-range of
    groupId, advancing a private cursor". *)
Definition Push (key : nat) (v : ValueType) (threadid : nat)
    (b : ParallelGroupBuilder) : outcome ParallelGroupBuilder :=
  do trptr <- vec_get (thread_rptr b) threadid ;
  do rp <- vec_get trptr key ;
  do data' <- (if 0 <=? rp then vec_set (data_ b) (Z.to_nat rp) v else Undefined) ;
  Ok (mkBuilder (rptr b) data'
                (<[threadid := <[key := rp + 1]> trptr]> (thread_rptr b))
                (num_groups b)).
End Builder.
Arguments ParallelGroupBuilder : clear implicits.
End common.

(** ** [SparsePage::GetTranspose] *)

(** Iterating a range-based [for] over a span. *)
Fixpoint for_each {A St} (l : list A) (body : A -> St -> outcome St) (s : St)
  : outcome St :=
  match l with
  | [] => Ok s
  | x :: t => do s' <- body x s ; for_each t body s'
  end.

(** [static_cast<long>] of a [size_t]. *)
Definition to_long (z : Z) : Z := if z <? 2 ^ 63 then z else z - 2 ^ 64.

Section Transpose.
(** The OpenMP runtime: [omp_get_max_threads()] and, for a
    [schedule(static)] loop of [batch_size] iterations, the thread that runs
    iteration [i] (what [omp_get_thread_num()] returns inside it).  Each
    thread runs its iterations in increasing order and touches only its own
    counters and slots, so the two parallel loops are run here iteration by
    iteration. *)
Variable omp_get_max_threads : nat.
Variable omp_get_thread_num : nat -> nat -> nat.

Definition GetTranspose (self : SparsePage) (num_columns : Z)
  : outcome SparsePage :=
  let transpose := SparsePage_new in
  let builder := common.mkBuilder (offset transpose) (data transpose) [] 0 in
  let nthread := omp_get_max_threads in
  let nkeys := Z.to_nat (wrap64 num_columns) in
  let builder := common.InitBudget nkeys nthread builder in
  let batch_size := Z.to_nat (to_long (Size self)) in
  do builder <-
    for_loop batch_size 0
      (fun i builder =>
         let tid := omp_get_thread_num batch_size i in
         do inst <- Inst self i ;
         for_each inst
           (fun entry builder =>
              common.AddBudget (Z.to_nat (index entry)) tid builder)
           builder)
      builder ;
  let builder := common.InitStorage Entry0 builder in
  do builder <-
    for_loop batch_size 0
      (fun i builder =>
         let tid := omp_get_thread_num batch_size i in
         do inst <- Inst self i ;
         for_each inst
           (fun entry builder =>
              common.Push (Z.to_nat (index entry))
                (mkEntry (wrap32 (base_rowid self + Z.of_nat i)) (fvalue entry))
                tid builder)
           builder)
      builder ;
  Ok (mkPage (common.rptr builder) (common.data_ builder) (base_rowid transpose)).
End Transpose.

(** ** [dmlc::Stream] *)

(** A stream is the bytes still to be read, or the bytes written so far. *)
Definition Stream := list byte.

(** [fo->Write(ptr, size)]. *)
Definition Stream_Write (bytes : list byte) (fo : Stream) : Stream := fo ++ bytes.

(** [fi->Read(ptr, size)]: the bytes available, at most [size], overwrite the
    beginning of the object [mem] at [ptr]; the number of bytes read is
    returned. *)
Definition Stream_Read (size : nat) (mem : list byte) (fi : Stream)
  : list byte * nat * Stream :=
  let got := take size fi in
  (got ++ drop (length got) mem, length got, drop size fi).

(** The object representation of an array of [n] integers of [w] bytes each
    (the host is little-endian), and back. *)
Definition to_bytes (w : nat) (v : list Z) : list byte := flat_map (le_split w) v.

Fixpoint of_bytes (w : nat) (n : nat) (bytes : list byte) : list Z :=
  match n with
  | O => []
  | S n' => le_combine (take w bytes) :: of_bytes w n' (drop w bytes)
  end.

(** [fo->Write(const std::vector<T>&)] (dmlc-core): the length as a
    [uint64_t], then the elements. *)
Definition Stream_Write_vector (w : nat) (v : list Z) (fo : Stream) : Stream :=
  let fo := Stream_Write (le_split 8 (vsize v)) fo in
  Stream_Write (to_bytes w v) fo.

(** [fi->Read(&vector)] (dmlc-core): reads the length, resizes the
    vector, then reads the elements into it; [false] on a short read.
    [vec->resize(size)] throws [std::length_error] when [size] is beyond
    [max_size()]; [max_size()] is at most [SIZE_MAX / sizeof(T)] in every
    library, and from there on the resize throws here, with the vector as it
    was. *)
Definition Stream_Read_vector (w : nat) (v : list Z) (fi : Stream)
  : outcome bool * list Z * Stream :=
  let '(sz_mem, n, fi) := Stream_Read 8 (le_split 8 0) fi in
  if negb (n =? 8)%nat then (Ok false, v, fi)
  else
    let sz := le_combine sz_mem in
    if 2 ^ 64 <=? Z.of_nat w * sz then (Fatal LengthError, v, fi)
    else
      let v := resize' v sz 0 in
      if sz =? 0 then (Ok true, v, fi)
      else
        let nbytes := Z.to_nat (wrap64 (Z.of_nat w * sz)) in
        let '(mem, n, fi) := Stream_Read nbytes (to_bytes w v) fi in
        (Ok (n =? nbytes)%nat, of_bytes w (length v) mem, fi).

(** ** [Version] *)

Module Version.
(** [Version::TripletT]: major, minor, patch. *)
Definition TripletT : Type := Z * Z * Z.

Definition major (v : TripletT) : Z := fst (fst v).

(** Modelled from the spec: [Version::Save] ([common/version.h]) is
    missing; the spec calls what it writes the "version tag", here the
    three 32-bit numbers of the running library's version [self]. *)
Definition Save (self : TripletT) (fo : Stream) : Stream :=
  let '(major, minor, patch) := self in
  Stream_Write (le_split 4 patch)
    (Stream_Write (le_split 4 minor) (Stream_Write (le_split 4 major) fo)).

(** Modelled from the spec: [Version::Load] ([common/version.h]) is
    missing; it reads the version tag back, and a truncated stream is a
    fatal format error. *)
Definition Load (fi : Stream) : outcome TripletT * Stream :=
  let '(m1, n1, fi1) := Stream_Read 4 (le_split 4 0) fi in
  if negb (n1 =? 4)%nat then (Fatal InvalidFormat, fi1) else
  let '(m2, n2, fi2) := Stream_Read 4 (le_split 4 0) fi1 in
  if negb (n2 =? 4)%nat then (Fatal InvalidFormat, fi2) else
  let '(m3, n3, fi3) := Stream_Read 4 (le_split 4 0) fi2 in
  if negb (n3 =? 4)%nat then (Fatal InvalidFormat, fi3) else
  (Ok (le_combine m1, le_combine m2, le_combine m3), fi3).
End Version.

(** ** [MetaInfo] *)

Record MetaInfo : Type := mkMetaInfo {
  num_row_ : Z;
  num_col_ : Z;
  num_nonzero_ : Z;
  labels_ : list bst_float;
  group_ptr_ : list Z;
  weights_ : list bst_float;
  base_margin_ : list bst_float
}.

Definition set_num_row_ (x : Z) (m : MetaInfo) : MetaInfo :=
  mkMetaInfo x (num_col_ m) (num_nonzero_ m) (labels_ m) (group_ptr_ m)
             (weights_ m) (base_margin_ m).
Definition set_num_col_ (x : Z) (m : MetaInfo) : MetaInfo :=
  mkMetaInfo (num_row_ m) x (num_nonzero_ m) (labels_ m) (group_ptr_ m)
             (weights_ m) (base_margin_ m).
Definition set_num_nonzero_ (x : Z) (m : MetaInfo) : MetaInfo :=
  mkMetaInfo (num_row_ m) (num_col_ m) x (labels_ m) (group_ptr_ m)
             (weights_ m) (base_margin_ m).
Definition set_labels_ (x : list bst_float) (m : MetaInfo) : MetaInfo :=
  mkMetaInfo (num_row_ m) (num_col_ m) (num_nonzero_ m) x (group_ptr_ m)
             (weights_ m) (base_margin_ m).
Definition set_group_ptr_ (x : list Z) (m : MetaInfo) : MetaInfo :=
  mkMetaInfo (num_row_ m) (num_col_ m) (num_nonzero_ m) (labels_ m) x
             (weights_ m) (base_margin_ m).
Definition set_weights_ (x : list bst_float) (m : MetaInfo) : MetaInfo :=
  mkMetaInfo (num_row_ m) (num_col_ m) (num_nonzero_ m) (labels_ m) (group_ptr_ m)
             x (base_margin_ m).
Definition set_base_margin_ (x : list bst_float) (m : MetaInfo) : MetaInfo :=
  mkMetaInfo (num_row_ m) (num_col_ m) (num_nonzero_ m) (labels_ m) (group_ptr_ m)
             (weights_ m) x.

(** [MetaInfo::Clear]. *)
Definition Clear (m : MetaInfo) : MetaInfo := mkMetaInfo 0 0 0 [] [] [] [].

(** [MetaInfo::SaveBinary]; [self] is [Version::Self()]. *)
Definition SaveBinary (self : Version.TripletT) (m : MetaInfo) (fo : Stream)
  : Stream :=
  let fo := Version.Save self fo in
  let fo := Stream_Write (le_split 8 (num_row_ m)) fo in
  let fo := Stream_Write (le_split 8 (num_col_ m)) fo in
  let fo := Stream_Write (le_split 8 (num_nonzero_ m)) fo in
  let fo := Stream_Write_vector 4 (labels_ m) fo in
  let fo := Stream_Write_vector 4 (group_ptr_ m) fo in
  let fo := Stream_Write_vector 4 (weights_ m) fo in
  Stream_Write_vector 4 (base_margin_ m) fo.

(** Methods that mutate [this] and read a stream: the state is the object
    together with the stream, and it is there also after a failure. *)
Definition method (A : Type) : Type :=
  MetaInfo * Stream -> outcome A * (MetaInfo * Stream).

Definition mbind' {A B} (m : method A) (k : A -> method B) : method B :=
  fun s =>
    match m s with
    | (Ok a, s') => k a s'
    | (Fatal e, s') => (Fatal e, s')
    | (Undefined, s') => (Undefined, s')
    end.

Notation "'run' x <- m ; k" := (mbind' m (fun x => k))
  (at level 10, x name, m at level 100, k at level 200, only parsing).
Notation "'require' m ; k" := (mbind' m (fun _ => k))
  (at level 10, m at level 100, k at level 200, only parsing).

Definition lift {A} (o : outcome A) : method A := fun s => (o, s).

(** [fi->Read(&field, sizeof(field)) == sizeof(field)] on a [uint64_t]
    member. *)
Definition Read_uint64 (get : MetaInfo -> Z) (set : Z -> MetaInfo -> MetaInfo)
  : method bool :=
  fun '(m, fi) =>
    let '(mem, n, fi) := Stream_Read 8 (le_split 8 (get m)) fi in
    (Ok (n =? 8)%nat, (set (le_combine mem) m, fi)).

(** [fi->Read(&field)] on a vector member of 4-byte elements. *)
Definition Read_vector (get : MetaInfo -> list Z)
    (set : list Z -> MetaInfo -> MetaInfo) : method bool :=
  fun '(m, fi) =>
    let '(ok, v, fi) := Stream_Read_vector 4 (get m) fi in
    (ok, (set v m, fi)).

(** [MetaInfo::LoadBinary]. *)
Definition LoadBinary : method unit :=
  run version <- (fun '(m, fi) => let '(v, fi) := Version.Load fi in (v, (m, fi))) ;
  let major := Version.major version in
  let '(_, minor, patch) := version in
  require lift (CHECK (major =? 1) (VersionNotSupported major minor patch)) ;
  run ok <- Read_uint64 num_row_ set_num_row_ ;
  require lift (CHECK ok InvalidFormat) ;
  run ok <- Read_uint64 num_col_ set_num_col_ ;
  require lift (CHECK ok InvalidFormat) ;
  run ok <- Read_uint64 num_nonzero_ set_num_nonzero_ ;
  require lift (CHECK ok InvalidFormat) ;
  run ok <- Read_vector labels_ set_labels_ ;
  require lift (CHECK ok InvalidFormat) ;
  run ok <- Read_vector group_ptr_ set_group_ptr_ ;
  require lift (CHECK ok InvalidFormat) ;
  run ok <- Read_vector weights_ set_weights_ ;
  require lift (CHECK ok InvalidFormat) ;
  run ok <- Read_vector base_margin_ set_base_margin_ ;
  lift (CHECK ok InvalidFormat).

(** ** [MetaInfo::SetInfo] *)

(** [enum DataType]; any other tag reaches the [default] of the dispatch. *)
Inductive DataType : Type :=
| kFloat32 | kDouble | kUInt32 | kUInt64
| kOther (tag : Z).

Section SetInfo.
(** The C++ conversions between numeric types that involve floating point,
    as functions on bit patterns. *)
Variable float_of_double : Z -> bst_float.
Variable float_of_uint32 : Z -> bst_float.
Variable float_of_uint64 : Z -> bst_float.
Variable uint32_of_float : bst_float -> Z.
Variable uint32_of_double : Z -> Z.

(** The destination element types of the copies: [bst_float] and the
    32-bit unsigned [bst_group_t]. *)
Inductive DestType : Type := to_float | to_group.

(** [cast_ptr]: the buffer seen as an array of elements of [w] bytes,
    each converted to the destination by [conv] when it is copied. *)
Record cast_ptr : Type := mkCast { elem_size : nat; conv : Z -> Z }.

(** [DISPATCH_CONST_PTR(dtype, old_ptr, cast_ptr, proc)]. *)
Definition DISPATCH_CONST_PTR {X} (dtype : DataType) (dst : DestType)
    (proc : cast_ptr -> outcome X) : outcome X :=
  match dtype with
  | kFloat32 =>
      proc (mkCast 4 (match dst with to_float => id | to_group => uint32_of_float end))
  | kDouble =>
      proc (mkCast 8 (match dst with
                      | to_float => float_of_double
                      | to_group => uint32_of_double
                      end))
  | kUInt32 =>
      proc (mkCast 4 (match dst with to_float => float_of_uint32 | to_group => id end))
  | kUInt64 =>
      proc (mkCast 8 (match dst with to_float => float_of_uint64 | to_group => wrap32 end))
  | kOther _ => Fatal UnknownDataType
  end.

(** [std::copy(cast_ptr, cast_ptr + num, dst.begin() + pos)]: reads [num]
    elements from the raw buffer [dptr] and writes them, converted, over
    [dst] from position [pos]. *)
Definition std_copy (c : cast_ptr) (dptr : list byte) (num : Z)
    (dst : list Z) (pos : nat) : outcome (list Z) :=
  let n := Z.to_nat num in
  if decide (n * elem_size c <= length dptr)%nat then
    if decide (pos + n <= length dst)%nat then
      Ok (take pos dst ++ map (conv c) (of_bytes (elem_size c) n dptr)
            ++ drop (pos + n) dst)
    else Undefined
  else Undefined.

(** The loop that turns group sizes into boundaries, in 32-bit unsigned
    arithmetic. *)
Definition accumulate_groups (group_ptr : list Z) : outcome (list Z) :=
  for_loop (length group_ptr - 1) 1
    (fun i gp =>
       do a <- vec_get gp (i - 1) ;
       do b <- vec_get gp i ;
       vec_set gp i (wrap32 (a + b)))
    group_ptr.

Definition SetInfo (key : string) (dptr : list byte) (dtype : DataType)
    (num : Z) (m : MetaInfo) : outcome unit * MetaInfo :=
  if String.eqb key "label" then
    let labels := resize' (labels_ m) num 0 in
    match DISPATCH_CONST_PTR dtype to_float
            (fun cast_dptr => std_copy cast_dptr dptr num labels 0) with
    | Ok labels => (Ok tt, set_labels_ labels m)
    | Fatal e => (Fatal e, set_labels_ labels m)
    | Undefined => (Undefined, set_labels_ labels m)
    end
  else if String.eqb key "weight" then
    let weights := resize' (weights_ m) num 0 in
    match DISPATCH_CONST_PTR dtype to_float
            (fun cast_dptr => std_copy cast_dptr dptr num weights 0) with
    | Ok weights => (Ok tt, set_weights_ weights m)
    | Fatal e => (Fatal e, set_weights_ weights m)
    | Undefined => (Undefined, set_weights_ weights m)
    end
  else if String.eqb key "base_margin" then
    let base_margin := resize' (base_margin_ m) num 0 in
    match DISPATCH_CONST_PTR dtype to_float
            (fun cast_dptr => std_copy cast_dptr dptr num base_margin 0) with
    | Ok base_margin => (Ok tt, set_base_margin_ base_margin m)
    | Fatal e => (Fatal e, set_base_margin_ base_margin m)
    | Undefined => (Undefined, set_base_margin_ base_margin m)
    end
  else if String.eqb key "group" then
    let group_ptr := resize' (group_ptr_ m) (wrap64 (num + 1)) 0 in
    match
      (do group_ptr <-
         DISPATCH_CONST_PTR dtype to_group
           (fun cast_dptr => std_copy cast_dptr dptr num group_ptr 1) ;
       do group_ptr <- vec_set group_ptr 0 0 ;
       accumulate_groups group_ptr)
    with
    | Ok group_ptr => (Ok tt, set_group_ptr_ group_ptr m)
    | Fatal e => (Fatal e, set_group_ptr_ group_ptr m)
    | Undefined => (Undefined, set_group_ptr_ group_ptr m)
    end
  else (Fatal (UnknownMetaInfo key), m).
End SetInfo.

(** ** [DMatrix::Create] from a data source *)

Module rabit.
(** [rabit::Allreduce<rabit::op::Sum>] on [uint64_t] buffers: every worker
    passes a buffer of the same length and receives the element-wise sum of
    all of them.  [bufs] are the buffers of all workers, by rank. *)
Definition Allreduce_Sum (bufs : list (list Z)) : list Z :=
  match bufs with
  | [] => []
  | b :: rest => foldl (zip_with (fun x y => wrap64 (x + y))) b rest
  end.

(** What [data.cc] asks of the rabit engine. *)
Record Engine : Type := mkEngine {
  IsDistributed : bool;
  GetWorldSize : nat;
  GetRank : nat
}.
End rabit.

(** [DataSource<SparsePage>], reduced to the [info] member that [Create]
    reads and writes. *)
Record DataSource : Type := mkSource { info : MetaInfo }.

Inductive DMatrix : Type :=
| SimpleDMatrix (source : DataSource)
| SparsePageDMatrix (source : DataSource) (cache_prefix : string).

(** [std::max_element]: the position of the first greatest element. *)
Fixpoint max_element (l : list Z) : option (nat * Z) :=
  match l with
  | [] => None
  | x :: t =>
      match max_element t with
      | Some (j, y) => if x <? y then Some (S j, y) else Some (0%nat, x)
      | None => Some (0%nat, x)
      end
  end.

(** The buffer a worker passes to the all-reduce: its own column count at
    its rank, 0 elsewhere. *)
Definition local_ncols (world_size rank : nat) (num_col : Z) : outcome (list Z) :=
  vec_set (replicate world_size 0) rank num_col.

Section Create.
(** The compile-time switch [DMLC_ENABLE_STD_THREAD]. *)
Variable DMLC_ENABLE_STD_THREAD : bool.
(** The rabit engine of this worker, and the buffers that the workers pass
    to the all-reduce, by rank; the slot of this worker is taken by the
    buffer it builds. *)
Variable engine : rabit.Engine.
Variable world : list (list Z).

Definition Create (source : DataSource) (cache_prefix : string)
  : outcome DMatrix :=
  if (String.length cache_prefix =? 0)%nat then
    let is_distributed := rabit.IsDistributed engine in
    do source <-
      (if is_distributed then
         let world_size := rabit.GetWorldSize engine in
         let rank := rabit.GetRank engine in
         do ncols <- local_ncols world_size rank (num_col_ (info source)) ;
         let ncols := rabit.Allreduce_Sum (<[rank := ncols]> world) in
         do mx <- (match max_element ncols with
                   | Some mx => Ok mx
                   | None => Undefined
                   end) ;
         let '(max_ind, max_cols) := mx in
         let source :=
           if (num_col_ (info source) =? 0) && (num_row_ (info source) =? 0)
           then mkSource (set_num_col_ max_cols (info source))
           else source in
         check for_loop (length ncols) 0
           (fun i _ =>
              do v <- vec_get ncols i ;
              CHECK ((v =? 0) || (v =? max_cols))
                    (DifferentNumberOfColumns i max_ind v max_cols))
           tt ;
         Ok source
       else Ok source) ;
    Ok (SimpleDMatrix source)
  else if DMLC_ENABLE_STD_THREAD then
    Ok (SparsePageDMatrix source cache_prefix)
  else Fatal ExternalMemoryNotEnabled.
End Create.

(** A distributed job: worker [rank] of [length sources] workers, each
    holding its own source, calls [Create] with an empty cache prefix. *)
Definition buffers (sources : list DataSource) : list (list Z) :=
  imap (fun r src =>
          <[r := num_col_ (info src)]> (replicate (length sources) 0))
       sources.

Definition Create_distributed (sources : list DataSource) (rank : nat)
  : outcome DMatrix :=
  match sources !! rank with
  | Some source =>
      Create true (rabit.mkEngine true (length sources) rank)
             (buffers sources) source ""
  | None => Undefined
  end.

(** The column counts that the workers report. *)
Definition reports (sources : list DataSource) : list Z :=
  map (fun src => num_col_ (info src)) sources.

(** The range of a [uint64_t]. *)
Definition uint64 (z : Z) : Prop := 0 <= z < 2 ^ 64.

(** ** Views of a page used in the statements *)

(** The boundaries that lengths [lens] give, starting at [start]. *)
Fixpoint psums (start : Z) (lens : list Z) : list Z :=
  match lens with
  | [] => [start]
  | n :: t => start :: psums (start + n) t
  end.

(** The rows (or columns, in a column-keyed page) that consecutive offsets
    cut out of the entries. *)
Fixpoint split_rows (offs : list Z) (d : list Entry) : list (list Entry) :=
  match offs with
  | b :: t =>
      match t with
      | e :: _ => take (Z.to_nat (e - b)) (drop (Z.to_nat b) d) :: split_rows t d
      | [] => []
      end
  | [] => []
  end.

Definition rows_of (p : SparsePage) : list (list Entry) :=
  split_rows (offset p) (data p).

(** The page that stores the rows [rs]. *)
Definition of_rows (rs : list (list Entry)) (base : Z) : SparsePage :=
  mkPage (psums 0 (map vsize rs)) (concat rs) base.

(** [M] is the greatest of the values [l]. *)
Definition greatest (M : Z) (l : list Z) : Prop :=
  M ∈ l /\ forall v, v ∈ l -> v <= M.

(** What [Create] does to the source of an empty worker. *)
Definition adopt (max_cols : Z) (source : DataSource) : DataSource :=
  if (num_col_ (info source) =? 0) && (num_row_ (info source) =? 0)
  then mkSource (set_num_col_ max_cols (info source))
  else source.

(** A report that fails the validation against [max_cols]. *)
Definition disagrees (max_cols : Z) (v : Z) : Prop := v <> 0 /\ v <> max_cols.

#[local] Instance disagrees_dec max_cols v : Decision (disagrees max_cols v).
Proof. unfold disagrees. apply _. Defined.

(** A row block as the parser hands it over: [size + 1] nondecreasing row
    bounds from [lo] to [hi], and index (and value) arrays that reach up to
    [hi]. *)
Definition RowBlock_wf (b : dmlc.RowBlock) (lo hi : Z) (idx : list Z) : Prop :=
  dmlc.offset b !! 0%nat = Some lo
  /\ last (dmlc.offset b) = Some hi
  /\ 0 <= lo
  /\ nondecreasing (dmlc.offset b)
  /\ vsize (dmlc.offset b) = dmlc.size b + 1
  /\ dmlc.index b = Some idx
  /\ hi <= vsize idx
  /\ (forall v, dmlc.value b = Some v -> hi <= vsize v).

(** The entry that [Push] makes of position [i] of a row block. *)
Definition RowBlock_entry (idx : list Z) (val : option (list bst_float)) (i : nat)
  : Entry :=
  mkEntry (nth i idx 0)
          (match val with None => one_f | Some v => nth i v 0 end).

(** ** The calls that fill a builder *)

(** One call of [AddBudget] or [Push]: the group, the value, the thread. *)
Definition call (V : Type) : Type := nat * V * nat.

Definition call_key {V} (c : call V) : nat := fst (fst c).
Definition call_value {V} (c : call V) : V := snd (fst c).
Definition call_tid {V} (c : call V) : nat := snd c.

(** The values that thread [t] hands to group [g], in the order of the
    calls. *)
Definition cell {V} (calls : list (call V)) (g t : nat) : list V :=
  omap (fun c => if decide (call_key c = g /\ call_tid c = t)
                 then Some (call_value c) else None)
       calls.

(** Group [g] with thread-ordered striping: the values of thread 0, then
    those of thread 1, and so on. *)
Definition group {V} (calls : list (call V)) (nthread g : nat) : list V :=
  concat (map (cell calls g) (seq 0 nthread)).

Definition groups {V} (calls : list (call V)) (nkeys nthread : nat)
  : list (list V) :=
  map (group calls nthread) (seq 0 nkeys).

(** The calls stay within the budget of [InitBudget]. *)
Definition in_budget {V} (nkeys nthread : nat) (calls : list (call V)) : Prop :=
  Forall (fun c => (call_key c < nkeys)%nat /\ (call_tid c < nthread)%nat) calls.

(** The counters of a builder, [thread_rptr[t][g] = f g t], for the threads
    from [t0] on. *)
Definition counters (nkeys : nat) (f : nat -> nat -> nat) (t0 n : nat)
  : list (list Z) :=
  map (fun t => map (fun g => Z.of_nat (f g t)) (seq 0 nkeys)) (seq t0 n).

(** The first slot of thread [t] in group [g]. *)
Definition slot {V} (calls : list (call V)) (nthread g t : nat) : nat :=
  (length (concat (map (group calls nthread) (seq 0 g)))
   + length (concat (map (cell calls g) (seq 0 t))))%nat.

(** The counters while [InitStorage] runs: the groups below [k] hold first
    slots, the others still hold counts. *)
Definition striped {V} (calls : list (call V)) (nthread k : nat) (g t : nat) : nat :=
  if decide (g < k)%nat then slot calls nthread g t else length (cell calls g t).

(** The entries of rows, each with the position of its row, from [i0] on. *)
Fixpoint indexed (i0 : nat) (rs : list (list Entry)) : list (nat * Entry) :=
  match rs with
  | [] => []
  | r :: t => map (pair i0) r ++ indexed (S i0) t
  end.

(** The builder calls that [GetTranspose] makes for a page: entry [e] of row
    [i] goes to group [e.index] with the row [base_rowid + i] as its index,
    from the thread that runs iteration [i]. *)
Definition transpose_calls (thread_of : nat -> nat) (p : SparsePage)
  : list (call Entry) :=
  map (fun ie : nat * Entry =>
         (Z.to_nat (index (snd ie)),
          mkEntry (wrap32 (base_rowid p + Z.of_nat (fst ie))) (fvalue (snd ie)),
          thread_of (fst ie)))
      (indexed 0 (rows_of p)).

(** The (row, column, value) triples of a row-keyed page: the row of an
    entry is [base_rowid] plus the position of its row in the page. *)
Definition triples (p : SparsePage) : list (Z * Z * bst_float) :=
  map (fun ie : nat * Entry =>
         (base_rowid p + Z.of_nat (fst ie), index (snd ie), fvalue (snd ie)))
      (indexed 0 (rows_of p)).

(** The (row, column, value) triples of a column-keyed page: the column is
    the position, the row is the index that the entry records. *)
Definition triples_csc (p : SparsePage) : list (Z * Z * bst_float) :=
  map (fun ce : nat * Entry =>
         (index (snd ce), Z.of_nat (fst ce), fvalue (snd ce)))
      (indexed 0 (rows_of p)).

(** [INT_MAX]. *)
Definition INT_MAX : Z := 2 ^ 31 - 1.

(** The entries of a page with the position of their row: (position, index,
    value). *)
Definition pos_triples (p : SparsePage) : list (Z * Z * bst_float) :=
  map (fun ie : nat * Entry =>
         (Z.of_nat (fst ie), index (snd ie), fvalue (snd ie)))
      (indexed 0 (rows_of p)).

(** Exchanging the first two components of a triple. *)
Definition swap_triple (x : Z * Z * bst_float) : Z * Z * bst_float :=
  (snd (fst x), fst (fst x), snd x).

(** ** Views of [SetInfo] used in the statements *)

(** [sizeof] of the element type that a [DataType] names. *)
Definition sizeof (dtype : DataType) : nat :=
  match dtype with
  | kFloat32 | kUInt32 => 4
  | kDouble | kUInt64 => 8
  | kOther _ => 0
  end.

Definition known (dtype : DataType) : Prop :=
  match dtype with kOther _ => False | _ => True end.

(** The value of type [bst_group_t] that an element of the buffer becomes,
    given the two conversions from floating point. *)
Definition to_group_t (uint32_of_float uint32_of_double : Z -> Z)
    (dtype : DataType) : Z -> Z :=
  match dtype with
  | kFloat32 => uint32_of_float
  | kDouble => uint32_of_double
  | kUInt32 => id
  | kUInt64 => wrap32
  | kOther _ => id
  end.

(** Running sums in 32-bit arithmetic, after the value [a]. *)
Fixpoint scan32 (a : Z) (l : list Z) : list Z :=
  match l with
  | [] => []
  | c :: r => wrap32 (a + c) :: scan32 (wrap32 (a + c)) r
  end.

(** ** Views of the binary format used in the statements *)

(** The range of a 32-bit unsigned value, or of the pattern of a float. *)
Definition uint32 (z : Z) : Prop := 0 <= z < 2 ^ 32.

(** A vector of 4-byte elements that fits the address space. *)
Definition vector32 (v : list Z) : Prop := Forall uint32 v /\ 4 * vsize v < 2 ^ 64.

(** The fields of a [MetaInfo] are within the ranges of their C++ types. *)
Definition MetaInfo_wf (m : MetaInfo) : Prop :=
  uint64 (num_row_ m) /\ uint64 (num_col_ m) /\ uint64 (num_nonzero_ m)
  /\ vector32 (labels_ m) /\ vector32 (group_ptr_ m)
  /\ vector32 (weights_ m) /\ vector32 (base_margin_ m).

Definition Version_wf (v : Version.TripletT) : Prop :=
  let '(major, minor, patch) := v in uint32 major /\ uint32 minor /\ uint32 patch.

(** The bytes of a length-prefixed vector of 4-byte elements. *)
Definition vector_bytes (v : list Z) : list byte :=
  le_split 8 (vsize v) ++ to_bytes 4 v.

(** The bytes of the version tag. *)
Definition version_bytes (v : Version.TripletT) : list byte :=
  let '(major, minor, patch) := v in
  le_split 4 major ++ le_split 4 minor ++ le_split 4 patch.

(** The layout of the spec: version tag, the three counts, then the four
    length-prefixed arrays labels, group_ptr, weights, base_margin. *)
Definition layout (self : Version.TripletT) (m : MetaInfo) : list byte :=
  version_bytes self
  ++ le_split 8 (num_row_ m) ++ le_split 8 (num_col_ m)
  ++ le_split 8 (num_nonzero_ m)
  ++ vector_bytes (labels_ m) ++ vector_bytes (group_ptr_ m)
  ++ vector_bytes (weights_ m) ++ vector_bytes (base_margin_ m).

(** ** [DMatrix::Load]: the file name and the cache file of a URI *)

Module std.
(** [s.find(c)]; [None] is [std::string::npos]. *)
Fixpoint find (c : ascii) (s : string) : option nat :=
  match s with
  | EmptyString => None
  | String a t => if Ascii.eqb a c then Some 0%nat else option_map S (find c t)
  end.

(** [s.rfind(c)]. *)
Fixpoint rfind (c : ascii) (s : string) : option nat :=
  match s with
  | EmptyString => None
  | String a t =>
      match rfind c t with
      | Some i => Some (S i)
      | None => if Ascii.eqb a c then Some 0%nat else None
      end
  end.

(** [s.substr(pos, len)]: the characters from [pos] on, at most [len] of
    them; throws [std::out_of_range] when [pos > s.size()]. *)
Definition substr (s : string) (pos len : nat) : outcome string :=
  if (pos <=? String.length s)%nat then Ok (substring pos len s)
  else Fatal OutOfRange.
End std.

(** [os << n] for an [int] that is not negative: its decimal digits. *)
Definition print_int (n : nat) : string :=
  NilZero.string_of_uint (Nat.to_uint n).

(** Modelled from the spec: [common::Split] ([common/common.h]) is missing;
    the spec has the cache path made of "colon-separated" shard paths.  The
    pieces are cut the way [std::getline] cuts them: one piece ends at each
    delimiter, and what follows the last delimiter is a piece unless it is
    empty. *)
Fixpoint Split (s : string) (delim : ascii) : list string :=
  match s with
  | EmptyString => []
  | String a t =>
      if Ascii.eqb a delim then EmptyString :: Split t delim
      else match Split t delim with
           | [] => [String a EmptyString]
           | item :: rest => String a item :: rest
           end
  end.

(** The beginning of [DMatrix::Load], up to the point where [fname] and
    [cache_file] have their final values; what follows in [Load] (choosing
    the partition, loading through the parser, the sidecar files) does not
    change them.  The result is [(fname, cache_file)]. *)
Definition Load_uri (engine : rabit.Engine) (uri : string) (load_row_split : bool)
  : outcome (string * string) :=
  match std.find "#" uri with
  | Some dlm_pos =>
      do cache_file <- std.substr uri (dlm_pos + 1) (String.length uri) ;
      do fname <- std.substr uri 0 dlm_pos ;
      check CHECK (match std.find "#" cache_file with None => true | Some _ => false end)
            (CheckFailed "cache_file.find('#') == std::string::npos") ;
      if load_row_split then
        let cache_shards := Split cache_file ":" in
        do os <-
          for_loop (length cache_shards) 0
            (fun i os =>
               do shard <- vec_get cache_shards i ;
               do os <-
                 match std.rfind "." shard with
                 | None =>
                     Ok (os ++ shard
                           ++ ".r" ++ print_int (rabit.GetRank engine)
                           ++ "-" ++ print_int (rabit.GetWorldSize engine))%string
                 | Some pos =>
                     do pre <- std.substr shard 0 pos ;
                     do post <- std.substr shard pos (String.length shard) ;
                     Ok (os ++ pre
                           ++ ".r" ++ print_int (rabit.GetRank engine)
                           ++ "-" ++ print_int (rabit.GetWorldSize engine)
                           ++ post)%string
                 end ;
               Ok (if (i + 1 =? length cache_shards)%nat then os
                   else (os ++ ":")%string))
            EmptyString ;
        Ok (fname, os)
      else Ok (fname, cache_file)
  | None => Ok (uri, EmptyString)
  end.

(** ** The sidecar files of [DMatrix::Load] *)

(** [MetaTryLoadGroup].  [fi] is the stream that
    [dmlc::Stream::Create(fname, "r", true)] gives: [None] is the [nullptr]
    of a file that is not there, otherwise the numbers that the successive
    extractions [is >> nline] read before the first one that fails. *)
Definition MetaTryLoadGroup (fi : option (list Z)) (group : list Z)
  : outcome (bool * list Z) :=
  match fi with
  | None => Ok (false, group)
  | Some is_ =>
      let group : list Z := [] in
      let group := group ++ [0] in
      do group <-
        for_each is_
          (fun nline group =>
             do b <- back group ; Ok (group ++ [wrap32 (b + nline)]))
          group ;
      Ok (true, group)
  end.

(** [MetaTryLoadFloatInfo], with the stream as in [MetaTryLoadGroup]. *)
Definition MetaTryLoadFloatInfo (fi : option (list bst_float))
    (data : list bst_float) : outcome (bool * list bst_float) :=
  match fi with
  | None => Ok (false, data)
  | Some is_ =>
      let data : list bst_float := [] in
      do data <- for_each is_ (fun value data => Ok (data ++ [value])) data ;
      Ok (true, data)
  end.

(** The end of [DMatrix::Load], the "backward compatibility code": the
    files [fname.group], [fname.base_margin] and [fname.weight] are read
    into the meta information unless the load is row-split.  [open] is the
    file system, as [dmlc::Stream::Create] sees it. *)
Definition Load_sidecars (open : string -> option (list Z)) (fname : string)
    (load_row_split : bool) (info : MetaInfo) : outcome MetaInfo :=
  if negb load_row_split then
    do r <- MetaTryLoadGroup (open (fname ++ ".group")%string) (group_ptr_ info) ;
    let info := set_group_ptr_ (snd r) info in
    do r <- MetaTryLoadFloatInfo (open (fname ++ ".base_margin")%string)
                                 (base_margin_ info) ;
    let info := set_base_margin_ (snd r) info in
    do r <- MetaTryLoadFloatInfo (open (fname ++ ".weight")%string) (weights_ info) ;
    let info := set_weights_ (snd r) info in
    Ok info
  else Ok info.

(** ** Views used in the further statements *)

(** The page that holds the rows of a row block: the row bounds counted
    from the first one, an entry for every position between [lo] and [hi],
    with the value 1 where the block has no values. *)
Definition RowBlock_page (b : dmlc.RowBlock) (lo hi : Z) (idx : list Z)
  : SparsePage :=
  mkPage (map (fun e => e - lo) (dmlc.offset b))
         (map (RowBlock_entry idx (dmlc.value b))
              (seq (Z.to_nat lo) (Z.to_nat (hi - lo))))
         0.

(** The source that a matrix wraps. *)
Definition source_of (d : DMatrix) : DataSource :=
  match d with
  | SimpleDMatrix source => source
  | SparsePageDMatrix source _ => source
  end.

(** The [bst_float] that an element of the buffer becomes, given the
    conversions to floating point. *)
Definition to_float_t (float_of_double float_of_uint32 float_of_uint64 : Z -> Z)
    (dtype : DataType) : Z -> Z :=
  match dtype with
  | kFloat32 => id
  | kDouble => float_of_double
  | kUInt32 => float_of_uint32
  | kUInt64 => float_of_uint64
  | kOther _ => id
  end.

(** The array of [MetaInfo] that a key of [SetInfo] names. *)
Definition float_key (key : string) : Prop :=
  key = "label"%string \/ key = "weight"%string \/ key = "base_margin"%string.


Definition set_float (key : string) (v : list bst_float) (m : MetaInfo) : MetaInfo :=
  if String.eqb key "label" then set_labels_ v m
  else if String.eqb key "weight" then set_weights_ v m
  else set_base_margin_ v m.

(** Strings joined by a separator. *)
Fixpoint join (sep : string) (l : list string) : string :=
  match l with
  | [] => EmptyString
  | [s] => s
  | s :: t => (s ++ sep ++ join sep t)%string
  end.

(** The suffix that [Load] gives the cache file of worker [rank] of
    [world_size]. *)
Definition rank_suffix (engine : rabit.Engine) : string :=
  (".r" ++ print_int (rabit.GetRank engine)
   ++ "-" ++ print_int (rabit.GetWorldSize engine))%string.

(** What [Load] makes of one shard of the cache file: the suffix goes
    before the last ["."] of the shard, or to its end. *)
Definition rank_shard (engine : rabit.Engine) (shard : string) : string :=
  match std.rfind "." shard with
  | None => (shard ++ rank_suffix engine)%string
  | Some pos =>
      (substring 0 pos shard ++ rank_suffix engine
       ++ substring pos (String.length shard) shard)%string
  end.

(** The same, told by cases: a shard without ["."], and a shard with the
    extension [ext]. *)
Inductive renamed (engine : rabit.Engine) : string -> string -> Prop :=
| renamed_plain (shard : string) :
    std.find "." shard = None ->
    renamed engine shard (shard ++ rank_suffix engine)%string
| renamed_ext (pre ext : string) :
    std.find "." ext = None ->
    renamed engine (pre ++ "." ++ ext)%string
            (pre ++ rank_suffix engine ++ "." ++ ext)%string.

(** A triple with its row as the 32-bit [bst_uint] that an entry holds. *)
Definition wrap_row (x : Z * Z * bst_float) : Z * Z * bst_float :=
  (wrap32 (fst (fst x)), snd (fst x), snd x).




(** ** Small checks of the model *)

Example Push_example :
  Push (mkPage [0; 2] [mkEntry 0 1; mkEntry 3 2] 0)
       (mkPage [0; 1; 1] [mkEntry 5 7] 0)
  = Ok (mkPage [0; 2; 3; 3] [mkEntry 0 1; mkEntry 3 2; mkEntry 5 7] 0).
Proof. vm_compute. reflexivity. Qed.

Example PushCSC_example :
  PushCSC (mkPage [0; 1; 1; 2] [mkEntry 0 1; mkEntry 0 2] 0)
          (mkPage [0; 0; 1; 2] [mkEntry 1 3; mkEntry 1 4] 0)
  = Ok (mkPage [0; 1; 2; 4]
               [mkEntry 0 1; mkEntry 1 3; mkEntry 0 2; mkEntry 1 4] 0).
Proof. vm_compute. reflexivity. Qed.

Example GetTranspose_example :
  GetTranspose 2 (fun _ i => (i mod 2)%nat)
    (mkPage [0; 2; 3; 5]
            [mkEntry 0 10; mkEntry 2 11; mkEntry 2 12; mkEntry 0 13; mkEntry 1 14] 7) 3
  = Ok (mkPage [0; 2; 3; 5]
               [mkEntry 7 10; mkEntry 9 13; mkEntry 9 14; mkEntry 7 11; mkEntry 8 12] 0).
Proof. vm_compute. reflexivity. Qed.

Example SaveBinary_LoadBinary_example :
  let m := mkMetaInfo 2 3 4 [one_f; 0] [0; 2] [] [one_f] in
  LoadBinary (Clear m, SaveBinary (1, 0, 0) m []) = (Ok tt, (m, [])).
Proof. vm_compute. reflexivity. Qed.

Example SetInfo_group_example :
  SetInfo id id id id id "group" (to_bytes 4 [3; 5; 2]) kUInt32 3 (Clear (mkMetaInfo 0 0 0 [] [] [] []))
  = (Ok tt, mkMetaInfo 0 0 0 [] [0; 3; 8; 10] [] []).
Proof. vm_compute. reflexivity. Qed.

Example Create_distributed_example :
  let w0 := mkSource (mkMetaInfo 0 0 0 [] [] [] []) in
  let w1 := mkSource (mkMetaInfo 5 7 9 [] [] [] []) in
  Create_distributed [w0; w1; w1] 0
  = Ok (SimpleDMatrix (mkSource (mkMetaInfo 0 7 0 [] [] [] []))).
Proof. vm_compute. reflexivity. Qed.

Example Load_uri_example :
  Load_uri (rabit.mkEngine true 4 2) "data.csv#cache/shard" true
  = Ok ("data.csv"%string, "cache/shard.r2-4"%string).
Proof. vm_compute. reflexivity. Qed.

Example Load_sidecars_example :
  Load_sidecars
    (fun f => if String.eqb f "x.group" then Some [3; 5; 2] else None)
    "x" false (mkMetaInfo 10 2 3 [] [] [one_f] [])
  = Ok (mkMetaInfo 10 2 3 [] [0; 3; 8; 10] [one_f] []).
Proof. vm_compute. reflexivity. Qed.

(** * Properties *)

(** ** Arithmetic and vectors *)

Lemma wrap64_small z : 0 <= z < 2 ^ 64 -> wrap64 z = z.
Proof. intros H. unfold wrap64. apply Z.mod_small. exact H. Qed.

Lemma wrap32_small z : 0 <= z < 2 ^ 32 -> wrap32 z = z.
Proof. intros H. unfold wrap32. apply Z.mod_small. exact H. Qed.

Lemma vsize_nonneg {A} (v : list A) : 0 <= vsize v.
Proof. unfold vsize. lia. Qed.

Lemma vsize_app {A} (u v : list A) : vsize (u ++ v) = vsize u + vsize v.
Proof. unfold vsize. rewrite length_app. lia. Qed.

Lemma resize'_grow {A} (v : list A) (n : Z) (d : A) :
  vsize v <= n ->
  resize' v n d = v ++ replicate (Z.to_nat n - length v) d.
Proof.
  intros H. unfold resize', vsize in *.
  rewrite take_ge by lia. reflexivity.
Qed.

Lemma memcpy_ok {A} (dst : list A) dpos (src : list A) spos len :
  0 <= dpos -> 0 <= spos -> 0 <= len ->
  dpos + len <= vsize dst -> spos + len <= vsize src ->
  memcpy dst dpos src spos len
  = Ok (take (Z.to_nat dpos) dst
        ++ take (Z.to_nat len) (drop (Z.to_nat spos) src)
        ++ drop (Z.to_nat (dpos + len)) dst).
Proof.
  intros. unfold memcpy.
  rewrite !(proj2 (Z.leb_le _ _)) by assumption. reflexivity.
Qed.

Lemma memcpy_tail {A} (pre fill src : list A) :
  length fill = length src ->
  memcpy (pre ++ fill) (vsize pre) src 0 (vsize src) = Ok (pre ++ src).
Proof.
  intros Hlen.
  rewrite memcpy_ok; try (unfold vsize; rewrite ?length_app; lia).
  f_equal. unfold vsize.
  rewrite Nat2Z.id, take_app_length.
  change (Z.to_nat 0) with 0%nat. rewrite drop_0, Nat2Z.id, firstn_all.
  rewrite drop_ge by (rewrite length_app; lia).
  rewrite app_nil_r. reflexivity.
Qed.

(** ** [Push] of a page *)

Lemma vec_get_ok {A} (v : list A) i x : v !! i = Some x -> vec_get v i = Ok x.
Proof. intros H. unfold vec_get. rewrite H. reflexivity. Qed.

Lemma vec_at_ok {A} (v : list A) i x : v !! i = Some x -> vec_at v i = Ok x.
Proof. intros H. unfold vec_at. rewrite H. reflexivity. Qed.

Lemma vec_set_ok {A} (v : list A) i x :
  (i < length v)%nat -> vec_set v i x = Ok (<[i := x]> v).
Proof. intros H. unfold vec_set. destruct (decide _); [reflexivity | lia]. Qed.

Lemma vec_set_at_ok {A} (v : list A) i x :
  (i < length v)%nat -> vec_set_at v i x = Ok (<[i := x]> v).
Proof. intros H. unfold vec_set_at. destruct (decide _); [reflexivity | lia]. Qed.

Lemma insert_middle {A} (u v : list A) (y x : A) :
  <[length u := x]> (u ++ y :: v) = u ++ x :: v.
Proof.
  rewrite insert_app_r_alt by lia.
  replace (length u - length u)%nat with 0%nat by lia. reflexivity.
Qed.

(** The loop of [Push] that fills the new offsets. *)
Lemma Push_offsets_loop (f : Z -> Z) (q0 : Z) (pre src done : list Z) :
  for_loop (length src) (length done)
    (fun i offset_vec =>
       do o <- vec_get (q0 :: done ++ src) (i + 1) ;
       vec_set offset_vec (i + length pre) (f o))
    (pre ++ map f done ++ replicate (length src) 0)
  = Ok (pre ++ map f done ++ map f src).
Proof.
  revert done. induction src as [|x src IH]; intros done; simpl.
  - reflexivity.
  - rewrite (vec_get_ok _ _ x).
    2:{ replace (length done + 1)%nat with (S (length done)) by lia.
        simpl. rewrite lookup_app_r by lia.
        replace (length done - length done)%nat with 0%nat by lia.
        reflexivity. }
    simpl. rewrite vec_set_ok.
    2:{ rewrite !length_app, length_map. simpl. lia. }
    simpl.
    replace (<[(length done + length pre)%nat := f x]>
               (pre ++ map f done ++ 0 :: replicate (length src) 0))
      with (pre ++ map f (done ++ [x]) ++ replicate (length src) 0).
    2:{ symmetry. rewrite (app_assoc pre (map f done) (0 :: _)).
        replace (length done + length pre)%nat
          with (length (pre ++ map f done))
          by (rewrite length_app, length_map; lia).
        rewrite insert_middle. rewrite map_app. simpl.
        rewrite <- !app_assoc. reflexivity. }
    specialize (IH (done ++ [x])).
    rewrite length_app in IH. simpl in IH.
    replace (length done + 1)%nat with (S (length done)) in IH by lia.
    rewrite <- app_assoc in IH. simpl in IH.
    rewrite IH. rewrite map_app. simpl. rewrite <- !app_assoc. reflexivity.
Qed.

Lemma Push_spec (P Q : SparsePage) q0 qs :
  last (offset P) = Some (vsize (data P)) ->
  offset Q = q0 :: qs ->
  addressable P Q ->
  Push P Q
  = Ok (mkPage (offset P ++ map (fun o => wrap64 (vsize (data P) + o)) qs)
               (data P ++ data Q) (base_rowid P)).
Proof.
  intros Hlast HQ [Hd Ho]. unfold Push, back. rewrite Hlast. simpl.
  assert (Hq : vsize (offset Q) = vsize qs + 1)
    by (rewrite HQ; unfold vsize; simpl; lia).
  pose proof (vsize_nonneg (data P)). pose proof (vsize_nonneg (data Q)).
  pose proof (vsize_nonneg (offset P)). pose proof (vsize_nonneg qs).
  assert (HS : Size Q = vsize qs).
  { unfold Size. rewrite Hq.
    replace (vsize qs + 1 - 1) with (vsize qs) by lia.
    apply wrap64_small. lia. }
  rewrite (wrap64_small (vsize (data P) + vsize (data Q))) by lia.
  rewrite resize'_grow by lia.
  rewrite memcpy_tail by (rewrite length_replicate; unfold vsize; lia).
  simpl. rewrite HS.
  rewrite wrap64_small by lia.
  rewrite resize'_grow by lia.
  replace (Z.to_nat (vsize (offset P) + vsize qs) - length (offset P))%nat
    with (length qs) by (unfold vsize; lia).
  replace (Z.to_nat (vsize qs)) with (length qs) by (unfold vsize; lia).
  rewrite HQ.
  pose proof (Push_offsets_loop (fun o => wrap64 (vsize (data P) + o)) q0
                (offset P) qs []) as L.
  simpl in L. rewrite L. reflexivity.
Qed.

(** ** Pages and their rows *)

Lemma psums_length start lens : length (psums start lens) = S (length lens).
Proof. revert start. induction lens; intros; simpl; [reflexivity|]. rewrite IHlens. reflexivity. Qed.

Lemma psums_head start lens : psums start lens !! 0%nat = Some start.
Proof. destruct lens; reflexivity. Qed.

Lemma vsize_concat_app {A} (u v : list (list A)) :
  vsize (concat (u ++ v)) = vsize (concat u) + vsize (concat v).
Proof. rewrite concat_app. apply vsize_app. Qed.

Lemma psums_app {A} start (u v : list (list A)) :
  psums start (map vsize (u ++ v))
  = psums start (map vsize u) ++ tail (psums (start + vsize (concat u)) (map vsize v)).
Proof.
  revert start. induction u as [|a u IH]; intros start; simpl.
  - replace (start + vsize []) with start by (unfold vsize; simpl; lia).
    destruct v; reflexivity.
  - rewrite IH. rewrite vsize_app.
    replace (start + vsize a + vsize (concat u))
      with (start + (vsize a + vsize (concat u))) by lia.
    reflexivity.
Qed.

Lemma psums_lookup_app {A} start (u v : list (list A)) :
  psums start (map vsize (u ++ v)) !! length u = Some (start + vsize (concat u)).
Proof.
  revert start. induction u as [|a u IH]; intros start; simpl.
  - rewrite psums_head. f_equal. unfold vsize. simpl. lia.
  - rewrite IH. f_equal. rewrite vsize_app. lia.
Qed.

Lemma psums_last {A} start (u : list (list A)) :
  last (psums start (map vsize u)) = Some (start + vsize (concat u)).
Proof.
  rewrite last_lookup, psums_length, length_map. simpl.
  pose proof (psums_lookup_app start u []) as H.
  rewrite app_nil_r in H. exact H.
Qed.

Lemma psums_nondecreasing start lens :
  Forall (fun n => 0 <= n) lens -> nondecreasing (psums start lens).
Proof.
  intros H. revert start. induction H as [|n lens Hn _ IH]; intros start; simpl.
  - auto.
  - split; [|apply IH]. destruct lens; simpl; lia.
Qed.

Lemma of_rows_invariant rs base : page_invariant (of_rows rs base).
Proof.
  unfold page_invariant, of_rows. simpl. split; [|split].
  - apply psums_head.
  - apply psums_nondecreasing. apply Forall_map, Forall_forall.
    intros r _. apply vsize_nonneg.
  - rewrite psums_last. reflexivity.
Qed.

Lemma split_rows_psums (rs : list (list Entry)) (pre : list Entry) :
  split_rows (psums (vsize pre) (map vsize rs)) (pre ++ concat rs) = rs.
Proof.
  revert pre. induction rs as [|r rs IH]; intros pre; simpl.
  - reflexivity.
  - destruct (psums (vsize pre + vsize r) (map vsize rs)) as [|e t] eqn:E.
    { pose proof (psums_length (vsize pre + vsize r) (map vsize rs)) as L.
      rewrite E in L. discriminate. }
    assert (e = vsize pre + vsize r) as ->.
    { pose proof (psums_head (vsize pre + vsize r) (map vsize rs)) as L.
      rewrite E in L. simpl in L. congruence. }
    f_equal.
    + replace (Z.to_nat (vsize pre + vsize r - vsize pre)) with (length r)
        by (unfold vsize; lia).
      replace (Z.to_nat (vsize pre)) with (length pre) by (unfold vsize; lia).
      rewrite drop_app_length. apply take_app_length.
    + rewrite <- E. specialize (IH (pre ++ r)).
      rewrite vsize_app in IH. rewrite <- app_assoc in IH. exact IH.
Qed.

Lemma rows_of_of_rows rs base : rows_of (of_rows rs base) = rs.
Proof. unfold rows_of, of_rows. simpl. apply (split_rows_psums rs []). Qed.

Lemma split_rows_inv (offs : list Z) (d : list Entry) (start : Z) :
  0 <= start ->
  nondecreasing (start :: offs) ->
  last (start :: offs) = Some (vsize d) ->
  psums start (map vsize (split_rows (start :: offs) d)) = start :: offs
  /\ concat (split_rows (start :: offs) d) = drop (Z.to_nat start) d.
Proof.
  revert start. induction offs as [|e offs IH]; intros start H0 Hnd Hlast.
  - simpl in *. split; [reflexivity|].
    injection Hlast as ->. unfold vsize. rewrite Nat2Z.id, drop_all. reflexivity.
  - destruct Hnd as [Hle Hnd].
    assert (Hlast' : last (e :: offs) = Some (vsize d)) by exact Hlast.
    destruct (IH e ltac:(lia) Hnd Hlast') as [IH1 IH2].
    assert (He : e <= vsize d).
    { clear - Hnd Hlast'. revert e Hnd Hlast'.
      induction offs as [|x offs IHo]; intros e Hnd Hlast'.
      - simpl in Hlast'. injection Hlast' as ->. lia.
      - destruct Hnd as [? Hnd]. specialize (IHo x Hnd Hlast'). lia. }
    change (split_rows (start :: e :: offs) d)
      with (take (Z.to_nat (e - start)) (drop (Z.to_nat start) d)
              :: split_rows (e :: offs) d).
    assert (Hlen : vsize (take (Z.to_nat (e - start)) (drop (Z.to_nat start) d))
                   = e - start).
    { unfold vsize in *. rewrite length_take, length_drop. lia. }
    remember (split_rows (e :: offs) d) as rest eqn:Erest.
    split.
    + cbn [map psums]. rewrite Hlen.
      replace (start + (e - start)) with e by lia.
      rewrite IH1. reflexivity.
    + cbn [concat]. rewrite IH2.
      replace (Z.to_nat e) with (Z.to_nat start + Z.to_nat (e - start))%nat by lia.
      rewrite <- drop_drop. apply take_drop.
Qed.

Lemma of_rows_rows_of p :
  page_invariant p -> of_rows (rows_of p) (base_rowid p) = p.
Proof.
  intros (H0 & Hnd & Hlast). destruct p as [offs d b]. simpl in *.
  destruct offs as [|o offs]; [discriminate|].
  simpl in H0. injection H0 as ->.
  destruct (split_rows_inv offs d 0 ltac:(lia) Hnd Hlast) as [E1 E2].
  unfold of_rows, rows_of. simpl offset. simpl data.
  rewrite E1, E2. reflexivity.
Qed.

Lemma Inst_of_rows rs base i r :
  rs !! i = Some r -> Inst (of_rows rs base) i = Ok r.
Proof.
  intros Hi. apply list_elem_of_split_length in Hi as (u & v & -> & ->).
  unfold Inst, of_rows. simpl offset. simpl data.
  rewrite (vec_get_ok _ _ (vsize (concat u))).
  2:{ rewrite psums_lookup_app. reflexivity. }
  simpl bind.
  rewrite (vec_get_ok _ _ (vsize (concat u) + vsize r)).
  2:{ replace (u ++ r :: v) with ((u ++ [r]) ++ v) by (rewrite <- app_assoc; reflexivity).
      replace (S (length u)) with (length (u ++ [r])) by (rewrite length_app; simpl; lia).
      rewrite psums_lookup_app. f_equal. rewrite vsize_concat_app. simpl.
      rewrite app_nil_r. reflexivity. }
  simpl bind.
  pose proof (vsize_nonneg (concat u)). pose proof (vsize_nonneg r).
  pose proof (vsize_nonneg (concat v)).
  assert (Hc : vsize (concat (u ++ r :: v))
               = vsize (concat u) + vsize r + vsize (concat v)).
  { rewrite vsize_concat_app. simpl. rewrite vsize_app. lia. }
  rewrite !(proj2 (Z.leb_le _ _)) by lia. simpl.
  f_equal.
  replace (Z.to_nat (vsize (concat u) + vsize r - vsize (concat u)))
    with (length r) by (unfold vsize; lia).
  replace (Z.to_nat (vsize (concat u))) with (length (concat u))
    by (unfold vsize; lia).
  rewrite concat_app, drop_app_length. simpl. apply take_app_length.
Qed.

(** ** [PushCSC] *)

Lemma memcpy_fill {A} (pre : list A) (n : nat) (d : A) (u a w : list A) :
  (length a <= n)%nat ->
  memcpy (pre ++ replicate n d) (vsize pre) (u ++ a ++ w) (vsize u) (vsize a)
  = Ok (pre ++ a ++ replicate (n - length a) d).
Proof.
  intros Hn.
  rewrite memcpy_ok;
    try (unfold vsize; rewrite ?length_app, ?length_replicate; lia).
  f_equal. unfold vsize.
  rewrite !Nat2Z.id, take_app_length, drop_app_length, take_app_length.
  replace (Z.to_nat (Z.of_nat (length pre) + Z.of_nat (length a)))
    with (length pre + length a)%nat by lia.
  rewrite drop_app_add', drop_replicate; reflexivity.
Qed.

Lemma psums_snoc {A} start (u : list (list A)) (r : list A) :
  psums start (map vsize (u ++ [r]))
  = psums start (map vsize u) ++ [start + vsize (concat u) + vsize r].
Proof. rewrite psums_app. simpl. reflexivity. Qed.

Lemma psums_lookup_succ {A} start (u v : list (list A)) (r : list A) :
  psums start (map vsize (u ++ r :: v)) !! (length u + 1)%nat
  = Some (start + vsize (concat u) + vsize r).
Proof.
  replace (u ++ r :: v) with ((u ++ [r]) ++ v) by (rewrite <- app_assoc; reflexivity).
  replace (length u + 1)%nat with (length (u ++ [r])) by (rewrite length_app; reflexivity).
  rewrite psums_lookup_app. f_equal. rewrite vsize_concat_app. simpl.
  rewrite app_nil_r. lia.
Qed.

(** One iteration of the merging loop, column [length doneA]. *)
Lemma PushCSC_body_step (doneA doneB md ra rb : list (list Entry))
    (a b : list Entry) (k m : nat) :
  length md = length doneA -> length doneB = length doneA ->
  vsize (concat md) + vsize a + vsize b + Z.of_nat k < 2 ^ 64 ->
  PushCSC_body (concat (doneA ++ a :: ra)) (concat (doneB ++ b :: rb))
    (psums 0 (map vsize (doneA ++ a :: ra)))
    (psums 0 (map vsize (doneB ++ b :: rb)))
    (length doneA)
    (mkCsc (concat md ++ replicate (length a + length b + k) Entry0)
           (psums 0 (map vsize md) ++ 0 :: replicate m 0)
           (vsize (concat md)) (S (length doneA)))
  = Ok (mkCsc (concat (md ++ [a ++ b]) ++ replicate k Entry0)
              (psums 0 (map vsize (md ++ [a ++ b])) ++ replicate m 0)
              (vsize (concat (md ++ [a ++ b]))) (S (S (length doneA)))).
Proof.
  intros Hmd HB Hfit. unfold PushCSC_body.
  pose proof (vsize_nonneg (concat md)). pose proof (vsize_nonneg a).
  pose proof (vsize_nonneg b).
  rewrite (vec_at_ok _ _ _ (psums_lookup_app 0 doneA (a :: ra))).
  rewrite (vec_at_ok _ _ _ (psums_lookup_succ 0 doneA ra a)).
  rewrite <- HB.
  rewrite (vec_at_ok _ _ _ (psums_lookup_app 0 doneB (b :: rb))).
  rewrite (vec_at_ok _ _ _ (psums_lookup_succ 0 doneB rb b)).
  cbn [bind csc_beg csc_data csc_offset csc_ptr].
  replace (0 + vsize (concat doneA) + vsize a - (0 + vsize (concat doneA)))
    with (vsize a) by lia.
  replace (0 + vsize (concat doneB) + vsize b - (0 + vsize (concat doneB)))
    with (vsize b) by lia.
  rewrite (wrap64_small (vsize a)) by lia.
  rewrite (wrap64_small (vsize b)) by lia.
  rewrite (wrap64_small (vsize (concat md) + vsize a)) by lia.
  rewrite (wrap64_small (vsize (concat md) + vsize a + vsize b)) by lia.
  unfold CHECK at 1.
  rewrite (proj2 (Z.leb_le _ _))
    by (rewrite vsize_app; pose proof (vsize_nonneg (replicate (length a + length b + k) Entry0)); lia).
  cbn [bind].
  replace (0 + vsize (concat doneA)) with (vsize (concat doneA)) by lia.
  replace (concat (doneA ++ a :: ra)) with (concat doneA ++ a ++ concat ra)
    by (rewrite concat_app; reflexivity).
  rewrite memcpy_fill by lia. cbn [bind].
  unfold CHECK at 1.
  rewrite (proj2 (Z.leb_le _ _))
    by (rewrite !vsize_app;
        pose proof (vsize_nonneg (replicate (length a + length b + k - length a) Entry0));
        lia).
  cbn [bind].
  replace (0 + vsize (concat doneB)) with (vsize (concat doneB)) by lia.
  replace (concat (doneB ++ b :: rb)) with (concat doneB ++ b ++ concat rb)
    by (rewrite concat_app; reflexivity).
  rewrite (app_assoc (concat md) a).
  replace (vsize (concat md) + vsize a) with (vsize (concat md ++ a))
    by (rewrite vsize_app; reflexivity).
  rewrite memcpy_fill by lia. cbn [bind].
  unfold CHECK.
  rewrite (proj2 (Z.ltb_lt _ _)).
  2:{ rewrite vsize_app. unfold vsize. rewrite psums_length, length_map. simpl. lia. }
  cbn [bind].
  replace (S (length doneB)) with (length (psums 0 (map vsize md)))
    by (rewrite psums_length, length_map; lia).
  rewrite vec_set_at_ok by (rewrite length_app; simpl; lia).
  rewrite insert_middle. cbn [bind].
  f_equal. f_equal.
  - rewrite concat_app. simpl. rewrite app_nil_r, <- !app_assoc.
    repeat f_equal. lia.
  - rewrite psums_snoc, <- app_assoc. simpl. f_equal. f_equal.
    rewrite !vsize_app. lia.
  - rewrite vsize_concat_app. simpl. rewrite app_nil_r, !vsize_app. lia.
Qed.

Lemma PushCSC_loop (restA restB doneA doneB : list (list Entry)) :
  length restA = length restB -> length doneA = length doneB ->
  vsize (concat (doneA ++ restA)) + vsize (concat (doneB ++ restB)) < 2 ^ 64 ->
  for_loop (length restA) (length doneA)
    (PushCSC_body (concat (doneA ++ restA)) (concat (doneB ++ restB))
       (psums 0 (map vsize (doneA ++ restA)))
       (psums 0 (map vsize (doneB ++ restB))))
    (mkCsc (concat (zip_with app doneA doneB)
              ++ replicate (length (concat restA) + length (concat restB)) Entry0)
           (psums 0 (map vsize (zip_with app doneA doneB))
              ++ replicate (length restA) 0)
           (vsize (concat (zip_with app doneA doneB))) (S (length doneA)))
  = Ok (mkCsc (concat (zip_with app (doneA ++ restA) (doneB ++ restB)))
              (psums 0 (map vsize (zip_with app (doneA ++ restA) (doneB ++ restB))))
              (vsize (concat (zip_with app (doneA ++ restA) (doneB ++ restB))))
              (S (length (doneA ++ restA)))).
Proof.
  revert restB doneA doneB.
  induction restA as [|a ra IH]; intros [|b rb] doneA doneB Hrest Hdone Hfit;
    try discriminate.
  - simpl. rewrite !app_nil_r. reflexivity.
  - cbn [for_loop length].
    assert (Hz : length (zip_with app doneA doneB) = length doneA)
      by (rewrite length_zip_with; lia).
    assert (Hsz : vsize (concat (zip_with app doneA doneB))
                  = vsize (concat doneA) + vsize (concat doneB)).
    { clear - Hdone. revert doneB Hdone.
      induction doneA as [|x xs IHx]; intros [|y ys] Hd; try discriminate.
      - reflexivity.
      - simpl. rewrite !vsize_app. simpl in Hd.
        rewrite (IHx ys) by lia. lia. }
    rewrite !vsize_concat_app in Hfit. simpl in Hfit. rewrite !vsize_app in Hfit.
    replace (length (concat (a :: ra)) + length (concat (b :: rb)))%nat
      with (length a + length b + (length (concat ra) + length (concat rb)))%nat
      by (simpl; rewrite !length_app; lia).
    change (replicate (S (length ra)) 0) with (0 :: replicate (length ra) 0).
    rewrite PushCSC_body_step; [| lia | lia |].
    2:{ rewrite Hsz. unfold vsize in *. lia. }
    cbn [bind].
    specialize (IH rb (doneA ++ [a]) (doneB ++ [b])).
    rewrite !length_app in IH. simpl in IH.
    rewrite <- !app_assoc in IH. simpl in IH.
    rewrite zip_with_app in IH by lia. simpl in IH.
    replace (length doneA + 1)%nat with (S (length doneA)) in IH by lia.
    rewrite IH; [| simpl in Hrest; lia | lia |].
    + f_equal. f_equal. rewrite length_app. simpl. lia.
    + rewrite !vsize_concat_app. simpl. rewrite !vsize_app. lia.
Qed.

Lemma Inst_of_rows_inv rs base i r :
  Inst (of_rows rs base) i = Ok r -> rs !! i = Some r.
Proof.
  intros H. destruct (rs !! i) as [r'|] eqn:E.
  - rewrite (Inst_of_rows _ _ _ _ E) in H. congruence.
  - exfalso. apply lookup_ge_None in E.
    unfold Inst, of_rows in H. simpl offset in H.
    destruct (vec_get (psums 0 (map vsize rs)) i) as [x| |]; try discriminate.
    cbn [bind] in H.
    unfold vec_get in H. rewrite lookup_ge_None_2 in H; [discriminate|].
    rewrite psums_length, length_map. lia.
Qed.

Lemma nonempty_case {A B} (l : list A) (x y : B) :
  l <> [] -> match l with [] => x | _ :: _ => y end = y.
Proof. destruct l; [contradiction | reflexivity]. Qed.

Lemma PushCSC_other_empty self other :
  data other = [] -> PushCSC self other = Ok self.
Proof. intros H. unfold PushCSC. rewrite H. reflexivity. Qed.

Lemma PushCSC_self_empty self other :
  data other <> [] -> data self = [] ->
  PushCSC self other = Ok (mkPage (offset other) (data other) (base_rowid self)).
Proof.
  intros Ho Hs. unfold PushCSC. rewrite Hs.
  destruct (data other); [contradiction | reflexivity].
Qed.

Lemma PushCSC_mismatch self other :
  data other <> [] -> data self <> [] ->
  length (offset self) <> length (offset other) ->
  PushCSC self other
  = Fatal (OffsetSizeMismatch (vsize (data self)) (vsize (data other))).
Proof.
  intros Ho Hs Hlen. unfold PushCSC.
  destruct (data other) as [|eo other_data]; [contradiction|].
  destruct (data self) as [|es self_data]; [contradiction|].
  unfold CHECK. rewrite (proj2 (Z.eqb_neq _ _)) by (unfold vsize; lia).
  reflexivity.
Qed.

Lemma PushCSC_of_rows (rsA rsB : list (list Entry)) baseA baseB :
  concat rsA <> [] -> concat rsB <> [] ->
  length rsA = length rsB ->
  vsize (concat rsA) + vsize (concat rsB) < 2 ^ 64 ->
  vsize rsB < 2 ^ 64 - 1 ->
  PushCSC (of_rows rsA baseA) (of_rows rsB baseB)
  = Ok (of_rows (zip_with app rsA rsB) baseA).
Proof.
  intros HA HB Hlen Hfit Hn. unfold PushCSC, of_rows.
  cbn [offset data base_rowid].
  rewrite (nonempty_case (concat rsB)) by exact HB.
  rewrite (nonempty_case (concat rsA)) by exact HA.
  unfold CHECK. rewrite (proj2 (Z.eqb_eq _ _))
    by (unfold vsize; rewrite !psums_length, !length_map; lia).
  cbn [bind].
  rewrite psums_length, length_map.
  rewrite vec_set_ok by (rewrite length_replicate; lia).
  cbn [bind].
  pose proof (vsize_nonneg (concat rsA)). pose proof (vsize_nonneg (concat rsB)).
  rewrite (wrap64_small (vsize (concat rsA) + vsize (concat rsB))) by lia.
  replace (vsize (psums 0 (map vsize rsB)) - 1) with (Z.of_nat (length rsB))
    by (unfold vsize; rewrite psums_length, length_map; lia).
  rewrite wrap64_small by (unfold vsize in Hn; lia). rewrite Nat2Z.id.
  pose proof (PushCSC_loop rsA rsB [] [] Hlen eq_refl) as L.
  cbn [app zip_with concat map psums length] in L.
  rewrite <- Hlen.
  change (<[0%nat:=0]> (replicate (S (length rsA)) 0))
    with (0 :: replicate (length rsA) 0).
  replace (Z.to_nat (vsize (concat rsA) + vsize (concat rsB)))
    with (length (concat rsA) + length (concat rsB))%nat by (unfold vsize; lia).
  change (vsize (@nil Entry)) with 0 in L.
  rewrite L by exact Hfit. reflexivity.
Qed.

Lemma rows_of_length p :
  length (rows_of p) = (length (offset p) - 1)%nat.
Proof.
  unfold rows_of. generalize (data p). induction (offset p) as [|b t IH]; intros d.
  - reflexivity.
  - destruct t as [|e t'].
    + reflexivity.
    + change (split_rows (b :: e :: t') d)
        with (take (Z.to_nat (e - b)) (drop (Z.to_nat b) d) :: split_rows (e :: t') d).
      cbn [length]. rewrite IH. cbn [length]. lia.
Qed.

Lemma PushCSC_merge self other :
  data other <> [] -> data self <> [] ->
  length (offset self) = length (offset other) ->
  page_invariant self -> page_invariant other -> addressable self other ->
  PushCSC self other
  = Ok (of_rows (zip_with app (rows_of self) (rows_of other)) (base_rowid self)).
Proof.
  intros Ho Hs Hlen HIs HIo [Hfit Hoff].
  pose proof (of_rows_rows_of self HIs) as Es.
  pose proof (of_rows_rows_of other HIo) as Eo.
  rewrite <- Es at 1. rewrite <- Eo at 1.
  assert (Ds : data self = concat (rows_of self)) by (rewrite <- Es at 1; reflexivity).
  assert (Do : data other = concat (rows_of other)) by (rewrite <- Eo at 1; reflexivity).
  apply PushCSC_of_rows.
  - rewrite <- Ds. exact Hs.
  - rewrite <- Do. exact Ho.
  - rewrite !rows_of_length. lia.
  - rewrite <- Ds, <- Do. exact Hfit.
  - unfold vsize in *. rewrite rows_of_length. lia.
Qed.

(** C1 (as stated, refuted): with an empty [self] and an [other] that has
    columns but no entries, [self] does not become a copy of [other]; and with
    a non-empty [self] and such an [other] of a different column count, no
    error is raised. *)
Lemma PushCSC_copy_counterexample :
  (let self := mkPage [0] [] 0 in
   let other := mkPage [0; 0; 0] [] 0 in
   data self = []
   /\ ~ (exists r, PushCSC self other = Ok r
                   /\ offset r = offset other /\ data r = data other))
  /\ (let self := mkPage [0; 1] [mkEntry 4 one_f] 0 in
      let other := mkPage [0; 0; 0] [] 0 in
      data self <> []
      /\ length (offset self) <> length (offset other)
      /\ PushCSC self other = Ok self).
Proof.
  split.
  - split; [reflexivity|]. intros (r & Hr & Ho & _).
    vm_compute in Hr. injection Hr as <-. discriminate Ho.
  - split; [discriminate|]. split; [simpl; lia | reflexivity].
Qed.

(** C1 (amended): when [other] has no entries, [PushCSC] changes nothing and
    checks nothing.  When it has entries: an empty [self] takes [other]'s
    offsets and entries (and keeps its own [base_rowid]); a non-empty [self]
    whose offset array has another length is a fatal error; a non-empty
    [self] of the same column count gets, in every column, its own entries
    followed by [other]'s. *)
Theorem PushCSC_cases (self other : SparsePage) :
  (data other = [] -> PushCSC self other = Ok self)
  /\ (data other <> [] -> data self = [] ->
      PushCSC self other
      = Ok (mkPage (offset other) (data other) (base_rowid self)))
  /\ (data other <> [] -> data self <> [] ->
      length (offset self) <> length (offset other) ->
      PushCSC self other
      = Fatal (OffsetSizeMismatch (vsize (data self)) (vsize (data other))))
  /\ (data other <> [] -> data self <> [] ->
      length (offset self) = length (offset other) ->
      page_invariant self -> page_invariant other -> addressable self other ->
      exists r,
        PushCSC self other = Ok r
        /\ length (offset r) = length (offset self)
        /\ base_rowid r = base_rowid self
        /\ forall i a b,
             Inst self i = Ok a -> Inst other i = Ok b -> Inst r i = Ok (a ++ b)).
Proof.
  split; [apply PushCSC_other_empty|].
  split; [apply PushCSC_self_empty|].
  split; [apply PushCSC_mismatch|].
  intros Ho Hs Hlen HIs HIo Hfit.
  eexists. split; [apply PushCSC_merge; assumption|].
  split; [|split].
  - unfold of_rows. cbn [offset]. rewrite psums_length, length_map, length_zip_with.
    rewrite !rows_of_length. destruct HIs as (H0 & _).
    apply lookup_lt_Some in H0. lia.
  - reflexivity.
  - intros i a b Ha Hb.
    rewrite <- (of_rows_rows_of self HIs) in Ha.
    rewrite <- (of_rows_rows_of other HIo) in Hb.
    apply Inst_of_rows_inv in Ha. apply Inst_of_rows_inv in Hb.
    apply Inst_of_rows. rewrite lookup_zip_with, Ha. simpl. rewrite Hb. reflexivity.
Qed.

Lemma PushCSC_cases_witness :
  let self := mkPage [0; 1; 1; 2] [mkEntry 0 1; mkEntry 0 2] 0 in
  let other := mkPage [0; 0; 1; 2] [mkEntry 1 3; mkEntry 1 4] 0 in
  exists r,
    PushCSC self other = Ok r
    /\ length (offset r) = length (offset self)
    /\ base_rowid r = base_rowid self
    /\ forall i a b,
         Inst self i = Ok a -> Inst other i = Ok b -> Inst r i = Ok (a ++ b).
Proof.
  intros self other.
  apply (proj2 (proj2 (proj2 (PushCSC_cases self other)))).
  - discriminate.
  - discriminate.
  - reflexivity.
  - repeat split; simpl; lia.
  - repeat split; simpl; lia.
  - split; vm_compute; reflexivity.
Defined.

(** C10: a [PushCSC] of a page without entries leaves [self] as it was,
    whatever the two offset arrays are. *)
Theorem PushCSC_empty_other_unchanged (self other : SparsePage) :
  data other = [] -> PushCSC self other = Ok self.
Proof. apply PushCSC_other_empty. Qed.

Lemma PushCSC_empty_other_unchanged_witness :
  let self := mkPage [0] [] 3 in
  let other := mkPage [0; 0; 0] [] 8 in
  data other = [] /\ PushCSC self other = Ok self.
Proof.
  intros self other. split; [reflexivity|].
  apply (PushCSC_empty_other_unchanged self other). reflexivity.
Defined.

(** C5: for a page [P] and a page [Q] whose first offset is 0, [Push]
    appends [Q] to [P]: the offsets grow by [Q.offset.size() - 1], the
    entries by [Q.data.size()], and the new offsets are [P]'s entry count
    plus [Q.offset[i + 1]] (a [size_t] sum). *)
Theorem Push_concatenates (P Q : SparsePage) :
  page_invariant P -> offset Q !! 0%nat = Some 0 -> addressable P Q ->
  exists R,
    Push P Q = Ok R
    /\ vsize (offset R) = vsize (offset P) + vsize (offset Q) - 1
    /\ vsize (data R) = vsize (data P) + vsize (data Q)
    /\ data R = data P ++ data Q
    /\ take (length (offset P)) (offset R) = offset P
    /\ (forall i o, offset Q !! S i = Some o ->
          offset R !! (length (offset P) + i)%nat
          = Some (wrap64 (vsize (data P) + o)))
    /\ (forall i o, offset Q !! S i = Some o ->
          0 <= o -> vsize (data P) + o < 2 ^ 64 ->
          offset R !! (length (offset P) + i)%nat = Some (vsize (data P) + o)).
Proof.
  intros (_ & _ & Hlast) HQ Hfit.
  destruct (offset Q) as [|q0 qs] eqn:EQ; [discriminate|].
  eexists. split; [apply (Push_spec P Q q0 qs Hlast EQ Hfit)|].
  cbn [offset data].
  assert (Hlk : forall i o, (q0 :: qs) !! S i = Some o ->
            (offset P ++ map (fun o => wrap64 (vsize (data P) + o)) qs)
              !! (length (offset P) + i)%nat
            = Some (wrap64 (vsize (data P) + o))).
  { intros i o Hi. simpl in Hi.
    rewrite lookup_app_r by lia.
    replace (length (offset P) + i - length (offset P))%nat with i by lia.
    rewrite list_lookup_fmap, Hi. reflexivity. }
  repeat split.
  - rewrite vsize_app. unfold vsize. rewrite length_map. simpl. lia.
  - apply vsize_app.
  - apply take_app_length.
  - exact Hlk.
  - intros i o Hi Ho Hlt. rewrite (Hlk i o Hi). f_equal.
    apply wrap64_small. pose proof (vsize_nonneg (data P)). lia.
Qed.

Lemma Push_concatenates_witness :
  let P := mkPage [0; 2] [mkEntry 0 1; mkEntry 3 2] 0 in
  let Q := mkPage [0; 1; 1] [mkEntry 5 7] 0 in
  exists R,
    Push P Q = Ok R
    /\ vsize (offset R) = vsize (offset P) + vsize (offset Q) - 1
    /\ vsize (data R) = vsize (data P) + vsize (data Q)
    /\ data R = data P ++ data Q
    /\ take (length (offset P)) (offset R) = offset P
    /\ (forall i o, offset Q !! S i = Some o ->
          offset R !! (length (offset P) + i)%nat
          = Some (wrap64 (vsize (data P) + o)))
    /\ (forall i o, offset Q !! S i = Some o ->
          0 <= o -> vsize (data P) + o < 2 ^ 64 ->
          offset R !! (length (offset P) + i)%nat = Some (vsize (data P) + o)).
Proof.
  intros P Q. apply (Push_concatenates P Q).
  - repeat split; simpl; lia.
  - reflexivity.
  - split; vm_compute; reflexivity.
Defined.

(** ** [DMatrix::Create] in a distributed job *)

Lemma foldl_zip_with_length (f : Z -> Z -> Z) (bufs : list (list Z)) acc n :
  length acc = n -> Forall (fun b => length b = n) bufs ->
  length (foldl (zip_with f) acc bufs) = n.
Proof.
  intros Ha Hb. revert acc Ha. induction Hb as [|b bufs Hl _ IH]; intros acc Ha.
  - exact Ha.
  - simpl. apply IH. rewrite length_zip_with. lia.
Qed.

Lemma foldl_zip_with_lookup (f : Z -> Z -> Z) (bufs : list (list Z)) acc i a :
  acc !! i = Some a -> Forall (fun b => is_Some (b !! i)) bufs ->
  foldl (zip_with f) acc bufs !! i
  = Some (foldl f a (map (fun b => default 0 (b !! i)) bufs)).
Proof.
  intros Ha Hb. revert acc a Ha. induction Hb as [|b bufs [x Hx] _ IH]; intros acc a Ha.
  - exact Ha.
  - simpl. rewrite (IH _ (f a x)).
    + rewrite Hx. reflexivity.
    + rewrite lookup_zip_with, Ha. simpl. rewrite Hx. reflexivity.
Qed.

Lemma foldl_add64_zeros (a : Z) (l : list Z) :
  uint64 a -> Forall (fun v => v = 0) l ->
  foldl (fun x y => wrap64 (x + y)) a l = a.
Proof.
  intros Ha Hl. induction Hl as [|v l -> _ IH]; [reflexivity|].
  simpl. replace (a + 0) with a by lia. rewrite wrap64_small by exact Ha. exact IH.
Qed.

(** Every position of the reduced buffer has one contributor. *)
Lemma column_sum (c : Z) (i n : nat) :
  (i < n)%nat -> uint64 c ->
  foldl (fun x y => wrap64 (x + y)) 0
        (map (fun r => if decide (r = i) then c else 0) (seq 0 n)) = c.
Proof.
  intros Hi Hc.
  assert (Hz : forall lo len, (i < lo \/ lo + len <= i)%nat ->
            Forall (fun v => v = 0)
              (map (fun r => if decide (r = i) then c else 0) (seq lo len))).
  { intros lo len Hlo. apply Forall_forall. intros v Hv.
    apply list_elem_of_In, in_map_iff in Hv.
    destruct Hv as (r & <- & Hr). apply in_seq in Hr.
    destruct (decide (r = i)); [lia | reflexivity]. }
  replace n with (i + S (n - S i))%nat by lia.
  rewrite seq_app, map_app, foldl_app.
  rewrite (foldl_add64_zeros 0 _ ltac:(unfold uint64; lia) (Hz 0%nat i ltac:(lia))).
  cbn [seq map foldl Nat.add].
  destruct (decide (i = i)) as [_|]; [|contradiction].
  replace (0 + c) with c by lia. rewrite wrap64_small by exact Hc.
  apply foldl_add64_zeros; [exact Hc|]. apply Hz. lia.
Qed.

Lemma buffers_lookup sources r src :
  sources !! r = Some src ->
  buffers sources !! r
  = Some (<[r := num_col_ (info src)]> (replicate (length sources) 0)).
Proof. intros H. unfold buffers. rewrite list_lookup_imap, H. reflexivity. Qed.

Lemma buffers_column sources i :
  (i < length sources)%nat ->
  map (fun b => default 0 (b !! i)) (buffers sources)
  = map (fun r => if decide (r = i) then default 0 (reports sources !! i) else 0)
        (seq 0 (length sources)).
Proof.
  intros Hi. apply list_eq. intros r.
  rewrite !list_lookup_fmap. unfold buffers. rewrite list_lookup_imap.
  destruct (sources !! r) as [src|] eqn:E; simpl.
  - pose proof (lookup_lt_Some _ _ _ E) as Hr.
    rewrite lookup_seq_lt by exact Hr. simpl. f_equal.
    destruct (decide (r = i)) as [->|Hne].
    + rewrite list_lookup_insert_eq by (rewrite length_replicate; lia).
      unfold reports. rewrite list_lookup_fmap, E. reflexivity.
    + rewrite list_lookup_insert_ne by exact Hne.
      rewrite lookup_replicate_2 by lia. reflexivity.
  - apply lookup_ge_None in E. rewrite lookup_seq_ge by lia. reflexivity.
Qed.

(** The all-reduce hands every worker the list of all reports. *)
Lemma Allreduce_buffers sources :
  Forall uint64 (reports sources) ->
  rabit.Allreduce_Sum (buffers sources) = reports sources.
Proof.
  intros Hr.
  assert (Hlen : Forall (fun b => length b = length sources) (buffers sources)).
  { apply Forall_forall. intros b Hb. apply list_elem_of_lookup in Hb as [r Hb].
    unfold buffers in Hb. rewrite list_lookup_imap in Hb.
    destruct (sources !! r); [|discriminate]. simpl in Hb. injection Hb as <-.
    rewrite length_insert, length_replicate. reflexivity. }
  destruct (buffers sources) as [|b0 rest] eqn:Eb.
  { unfold buffers in Eb. destruct sources; [reflexivity | discriminate]. }
  unfold rabit.Allreduce_Sum.
  apply Forall_cons in Hlen as [Hb0 Hrest].
  apply list_eq. intros i.
  destruct (decide (i < length sources)%nat) as [Hi|Hi].
  - destruct (b0 !! i) as [a|] eqn:Ea.
    2:{ apply lookup_ge_None in Ea. lia. }
    rewrite (foldl_zip_with_lookup _ _ _ _ a Ea).
    2:{ eapply Forall_impl; [exact Hrest|]. intros b Hb. simpl in Hb.
        apply lookup_lt_is_Some. lia. }
    pose proof (buffers_column sources i Hi) as Hcol.
    rewrite Eb in Hcol. simpl in Hcol. rewrite Ea in Hcol. simpl in Hcol.
    assert (Hci : exists c, reports sources !! i = Some c /\ uint64 c).
    { destruct (reports sources !! i) as [c|] eqn:Ec.
      - exists c. split; [reflexivity|].
        eapply Forall_forall in Hr; [exact Hr|].
        apply list_elem_of_lookup. eauto.
      - apply lookup_ge_None in Ec. unfold reports in Ec. rewrite length_map in Ec. lia. }
    destruct Hci as (c & Hc & Hcr). rewrite Hc. f_equal.
    pose proof (column_sum c i (length sources) Hi Hcr) as Hsum.
    rewrite Hc in Hcol. simpl in Hcol. rewrite <- Hcol in Hsum.
    simpl in Hsum.
    assert (Ua : uint64 a).
    { destruct (length sources) as [|n'] eqn:En; [lia|]. simpl in Hcol.
      injection Hcol as Ha _. rewrite Ha.
      destruct (decide (0%nat = i)); [exact Hcr | unfold uint64; lia]. }
    replace (0 + a) with a in Hsum by lia.
    rewrite (wrap64_small a) in Hsum by exact Ua. exact Hsum.
  - rewrite !lookup_ge_None_2; [reflexivity| |].
    + unfold reports. rewrite length_map. lia.
    + rewrite (foldl_zip_with_length _ _ _ (length sources)); [lia | exact Hb0 | exact Hrest].
Qed.

Lemma max_element_spec (l : list Z) j M :
  max_element l = Some (j, M) -> l !! j = Some M /\ Forall (fun v => v <= M) l.
Proof.
  revert j M. induction l as [|x l IH]; intros j M H; [discriminate|].
  simpl in H. destruct (max_element l) as [[j' y]|] eqn:E.
  - destruct (IH j' y eq_refl) as [Hj Hall].
    destruct (x <? y) eqn:Hxy; injection H as <- <-.
    + apply Z.ltb_lt in Hxy. split; [exact Hj|]. constructor; [lia | exact Hall].
    + apply Z.ltb_ge in Hxy. split; [reflexivity|]. constructor; [lia|].
      eapply Forall_impl; [exact Hall|]. simpl. intros; lia.
  - injection H as <- <-. split; [reflexivity|].
    destruct l; [|simpl in E; destruct (max_element l) as [[? ?]|]; [destruct (z <? _)|]; discriminate].
    constructor; [lia | constructor].
Qed.

Lemma max_element_greatest (l : list Z) M :
  greatest M l -> exists j, max_element l = Some (j, M) /\ l !! j = Some M.
Proof.
  intros [Hin Hmax].
  destruct (max_element l) as [[j M']|] eqn:E.
  - destruct (max_element_spec l j M' E) as [Hj Hall].
    assert (M' = M).
    { assert (M' <= M) by (apply Hmax, list_elem_of_lookup; eauto).
      assert (M <= M') by (eapply Forall_forall in Hall; eauto). lia. }
    subst M'. eauto.
  - destruct l; [inversion Hin|].
    simpl in E. destruct (max_element l) as [[? ?]|]; [destruct (z <? _)|]; discriminate.
Qed.

(** The validation loop stops at the first report that disagrees. *)
Lemma validation_loop (M : Z) (max_ind : nat) (l done : list Z) :
  for_loop (length l) (length done)
    (fun i _ =>
       do v <- vec_get (done ++ l) i ;
       CHECK ((v =? 0) || (v =? M)) (DifferentNumberOfColumns i max_ind v M))
    tt
  = match list_find (disagrees M) l with
    | Some (k, v) => Fatal (DifferentNumberOfColumns (length done + k) max_ind v M)
    | None => Ok tt
    end.
Proof.
  revert done. induction l as [|x l IH]; intros done; [reflexivity|].
  cbn [for_loop length list_find].
  rewrite (vec_get_ok _ _ x).
  2:{ rewrite lookup_app_r by lia.
      replace (length done - length done)%nat with 0%nat by lia. reflexivity. }
  cbn [bind]. unfold CHECK at 1.
  destruct (decide (disagrees M x)) as [[H0 HM]|Hn].
  - rewrite (proj2 (Z.eqb_neq _ _) H0), (proj2 (Z.eqb_neq _ _) HM). simpl.
    rewrite Nat.add_0_r. reflexivity.
  - replace ((x =? 0) || (x =? M)) with true.
    2:{ symmetry. apply orb_true_iff. unfold disagrees in Hn.
        destruct (Z.eqb_spec x 0); [auto|]. destruct (Z.eqb_spec x M); [auto|].
        exfalso. apply Hn. split; assumption. }
    cbn [bind]. specialize (IH (done ++ [x])).
    rewrite length_app in IH. simpl in IH.
    replace (length done + 1)%nat with (S (length done)) in IH by lia.
    rewrite <- app_assoc in IH. simpl in IH. rewrite IH.
    destruct (list_find (disagrees M) l) as [[k v]|]; simpl; [|reflexivity].
    f_equal. f_equal. lia.
Qed.

(** What worker [rank] gets from [Create] in a distributed job. *)
Lemma Create_distributed_spec sources rank src M :
  Forall uint64 (reports sources) ->
  sources !! rank = Some src ->
  greatest M (reports sources) ->
  exists max_ind,
    reports sources !! max_ind = Some M
    /\ Create_distributed sources rank
       = match list_find (disagrees M) (reports sources) with
         | Some (i, v) => Fatal (DifferentNumberOfColumns i max_ind v M)
         | None => Ok (SimpleDMatrix (adopt M src))
         end.
Proof.
  intros Hr Hsrc HM.
  destruct (max_element_greatest _ _ HM) as (max_ind & Hmax & Hmi).
  exists max_ind. split; [exact Hmi|].
  unfold Create_distributed. rewrite Hsrc. unfold Create.
  cbn [String.length Nat.eqb rabit.IsDistributed rabit.GetWorldSize rabit.GetRank].
  unfold local_ncols.
  rewrite vec_set_ok by (rewrite length_replicate; eapply lookup_lt_Some; eauto).
  cbn [bind].
  rewrite list_insert_id by (apply buffers_lookup; exact Hsrc).
  rewrite Allreduce_buffers by exact Hr.
  rewrite Hmax. cbn [bind].
  pose proof (validation_loop M max_ind (reports sources) []) as L.
  simpl in L. rewrite L.
  destruct (list_find (disagrees M) (reports sources)) as [[k v]|]; reflexivity.
Qed.

(** C2 (as stated, refuted): the reports are [0, 7, 7] and no error is
    raised, but worker 0, which holds rows without columns, keeps 0. *)
Lemma Create_zero_columns_counterexample :
  let w0 := mkSource (mkMetaInfo 3 0 0 [] [] [] []) in
  let w1 := mkSource (mkMetaInfo 5 7 9 [] [] [] []) in
  reports [w0; w1; w1] = [0; 7; 7]
  /\ exists d, Create_distributed [w0; w1; w1] 0 = Ok (SimpleDMatrix d)
               /\ num_col_ (info d) <> 7.
Proof.
  split; [reflexivity|]. eexists. split; [vm_compute; reflexivity|].
  simpl. lia.
Qed.

(** C2 (amended): when every report is 0 or the greatest report [M], no
    worker fails; a worker with zero rows and zero columns adopts [M], and
    every worker whose zero column count comes with zero rows ends with [M]
    columns (nothing else of its meta information changes). *)
Theorem Create_adopts_maximum sources rank src M :
  Forall uint64 (reports sources) ->
  sources !! rank = Some src ->
  greatest M (reports sources) ->
  (forall v, v ∈ reports sources -> v = 0 \/ v = M) ->
  Create_distributed sources rank = Ok (SimpleDMatrix (adopt M src))
  /\ ((num_col_ (info src) = 0 -> num_row_ (info src) = 0) ->
      info (adopt M src) = set_num_col_ M (info src)).
Proof.
  intros Hr Hsrc HM Hall.
  destruct (Create_distributed_spec sources rank src M Hr Hsrc HM) as (mi & _ & E).
  split.
  - rewrite E. destruct (list_find _ _) as [[i v]|] eqn:F; [|reflexivity].
    apply list_find_Some in F as (Hi & [H0 H1] & _).
    destruct (Hall v) as [?|?]; [apply list_elem_of_lookup; eauto | contradiction..].
  - intros Hrows. unfold adopt.
    destruct (Z.eqb_spec (num_col_ (info src)) 0) as [Hc|Hc].
    + rewrite (Hrows Hc). reflexivity.
    + simpl. destruct (Hall (num_col_ (info src))) as [?|HcM]; [|contradiction|].
      * apply list_elem_of_lookup. exists rank. unfold reports.
        rewrite list_lookup_fmap, Hsrc. reflexivity.
      * destruct src as [[]]. unfold set_num_col_. simpl in *. subst. reflexivity.
Qed.

Lemma Create_adopts_maximum_witness :
  let w0 := mkSource (mkMetaInfo 0 0 0 [] [] [] []) in
  let w1 := mkSource (mkMetaInfo 5 7 9 [] [] [] []) in
  reports [w0; w1; w1] = [0; 7; 7]
  /\ Create_distributed [w0; w1; w1] 0 = Ok (SimpleDMatrix (adopt 7 w0))
  /\ info (adopt 7 w0) = set_num_col_ 7 (info w0).
Proof.
  intros w0 w1. split; [reflexivity|].
  assert (H : Create_distributed [w0; w1; w1] 0 = Ok (SimpleDMatrix (adopt 7 w0))
              /\ ((num_col_ (info w0) = 0 -> num_row_ (info w0) = 0) ->
                  info (adopt 7 w0) = set_num_col_ 7 (info w0))).
  { apply (Create_adopts_maximum [w0; w1; w1] 0%nat w0 7).
    - repeat constructor; vm_compute; congruence.
    - reflexivity.
    - split.
      + apply list_elem_of_In. simpl. auto.
      + intros v Hv. apply list_elem_of_In in Hv. simpl in Hv.
        destruct Hv as [<-|[<-|[<-|[]]]]; lia.
    - intros v Hv. apply list_elem_of_In in Hv. simpl in Hv.
      destruct Hv as [<-|[<-|[<-|[]]]]; auto. }
  destruct H as [H1 H2]. split; [exact H1 | apply H2; reflexivity].
Defined.

(** C3: when some nonzero report differs from the greatest report [M],
    [Create] fails on every worker, and the error names a rank [i] whose
    report [v] is nonzero and differs from [M]: the first such rank. *)
Theorem Create_rejects_disagreement sources rank src M :
  Forall uint64 (reports sources) ->
  sources !! rank = Some src ->
  greatest M (reports sources) ->
  (exists v, v ∈ reports sources /\ v <> 0 /\ v <> M) ->
  exists i max_ind v,
    Create_distributed sources rank
    = Fatal (DifferentNumberOfColumns i max_ind v M)
    /\ reports sources !! i = Some v /\ v <> 0 /\ v <> M
    /\ reports sources !! max_ind = Some M
    /\ forall j w, (j < i)%nat -> reports sources !! j = Some w -> w = 0 \/ w = M.
Proof.
  intros Hr Hsrc HM (v0 & Hin & H0 & H1).
  destruct (Create_distributed_spec sources rank src M Hr Hsrc HM) as (mi & Hmi & E).
  destruct (list_find (disagrees M) (reports sources)) as [[i v]|] eqn:F.
  - apply list_find_Some in F as (Hi & [Hv0 HvM] & Hfirst).
    exists i, mi, v. repeat split; try assumption.
    intros j w Hj Hw. specialize (Hfirst j w Hw Hj). unfold disagrees in Hfirst.
    destruct (decide (w = 0)); [auto|]. destruct (decide (w = M)); [auto|].
    exfalso. apply Hfirst. split; assumption.
  - exfalso. apply list_find_None in F.
    eapply Forall_forall in F; [|exact Hin]. apply F. split; assumption.
Qed.

Lemma Create_rejects_disagreement_witness :
  let w0 := mkSource (mkMetaInfo 5 7 9 [] [] [] []) in
  let w1 := mkSource (mkMetaInfo 5 9 9 [] [] [] []) in
  reports [w0; w1; w0] = [7; 9; 7]
  /\ exists i max_ind v,
       Create_distributed [w0; w1; w0] 2
       = Fatal (DifferentNumberOfColumns i max_ind v 9)
       /\ reports [w0; w1; w0] !! i = Some v /\ v <> 0 /\ v <> 9
       /\ reports [w0; w1; w0] !! max_ind = Some 9
       /\ forall j w, (j < i)%nat -> reports [w0; w1; w0] !! j = Some w ->
                      w = 0 \/ w = 9.
Proof.
  intros w0 w1. split; [reflexivity|].
  apply (Create_rejects_disagreement [w0; w1; w0] 2%nat w0 9).
  - repeat constructor; vm_compute; congruence.
  - reflexivity.
  - split.
    + apply list_elem_of_In. simpl. auto.
    + intros v Hv. apply list_elem_of_In in Hv. simpl in Hv.
      destruct Hv as [<-|[<-|[<-|[]]]]; lia.
  - exists 7. split; [apply list_elem_of_In; simpl; auto | lia].
Defined.

(** ** [Push] of a row block *)

Lemma nondecreasing_le_last (x : Z) (l : list Z) hi :
  nondecreasing (x :: l) -> last (x :: l) = Some hi ->
  Forall (fun v => x <= v <= hi) (x :: l).
Proof.
  revert x. induction l as [|y l IH]; intros x Hnd Hlast.
  - simpl in Hlast. injection Hlast as ->. constructor; [lia | constructor].
  - destruct Hnd as [Hxy Hnd].
    assert (Hlast' : last (y :: l) = Some hi) by exact Hlast.
    specialize (IH y Hnd Hlast').
    pose proof (Forall_inv IH) as Hy. simpl in Hy.
    constructor; [lia|].
    eapply Forall_impl; [exact IH|]. simpl. intros; lia.
Qed.

Lemma nondecreasing_app (l1 l2 : list Z) :
  nondecreasing l1 -> nondecreasing l2 ->
  (forall x y, last l1 = Some x -> head l2 = Some y -> x <= y) ->
  nondecreasing (l1 ++ l2).
Proof.
  intros H1 H2 H. induction l1 as [|a l1 IH]; [exact H2|].
  destruct H1 as [Ha H1]. simpl. split.
  - destruct l1 as [|b l1]; simpl.
    + destruct l2 as [|y l2]; [exact I|]. apply H; reflexivity.
    + exact Ha.
  - apply IH; [exact H1|]. intros x y Hx Hy. apply H; [|exact Hy].
    destruct l1; [discriminate | exact Hx].
Qed.

Lemma nondecreasing_map_shift (c : Z) (l : list Z) :
  nondecreasing l -> nondecreasing (map (fun e => c + e) l).
Proof.
  induction l as [|x l IH]; [auto|]. intros [Hx Hl]. simpl. split; [|apply IH, Hl].
  destruct l; simpl; [exact I | lia].
Qed.

Lemma ptr_get_ok {A} (ptr : list A) (i : nat) x :
  ptr !! i = Some x -> ptr_get ptr (Z.of_nat i) = Ok x.
Proof.
  intros H. unfold ptr_get. rewrite (proj2 (Z.leb_le _ _)) by lia.
  rewrite Nat2Z.id. apply vec_get_ok, H.
Qed.

Lemma wrap64_sub_l x y : wrap64 (wrap64 x - y) = wrap64 (x - y).
Proof. unfold wrap64. apply Zminus_mod_idemp_l. Qed.

(** The loop of [Push] that appends one offset per row of the block. *)
Lemma RowBlock_offsets_loop (r d : list Z) (e0 : Z) (ov : list Z) (b hi : Z) :
  last ov = Some b -> 0 <= b -> 0 <= e0 ->
  nondecreasing (e0 :: r) -> last (e0 :: r) = Some hi ->
  b + (hi - e0) < 2 ^ 64 ->
  for_loop (length r) (length d)
    (fun i offset_vec =>
       do b <- back offset_vec ;
       do e1 <- ptr_get (d ++ e0 :: r) (Z.of_nat i + 1) ;
       do e0 <- ptr_get (d ++ e0 :: r) (Z.of_nat i) ;
       Ok (offset_vec ++ [wrap64 (wrap64 (b + e1) - e0)]))
    ov
  = Ok (ov ++ map (fun e => b + (e - e0)) r).
Proof.
  revert d e0 ov b. induction r as [|e1 r IH]; intros d e0 ov b Hb Hb0 He0 Hnd Hlast Hfit.
  - simpl. rewrite app_nil_r. reflexivity.
  - cbn [for_loop length]. unfold back at 1. rewrite Hb. cbn [bind].
    replace (Z.of_nat (length d) + 1) with (Z.of_nat (S (length d))) by lia.
    rewrite (ptr_get_ok _ _ e1).
    2:{ rewrite lookup_app_r by lia.
        replace (S (length d) - length d)%nat with 1%nat by lia. reflexivity. }
    rewrite (ptr_get_ok _ _ e0).
    2:{ rewrite lookup_app_r by lia.
        replace (length d - length d)%nat with 0%nat by lia. reflexivity. }
    cbn [bind].
    pose proof (nondecreasing_le_last e0 (e1 :: r) hi Hnd Hlast) as Hall.
    apply Forall_cons in Hall as [_ Hall]. apply Forall_cons in Hall as [He1 _].
    rewrite wrap64_sub_l. rewrite wrap64_small by lia.
    destruct Hnd as [_ Hnd].
    specialize (IH (d ++ [e0]) e1 (ov ++ [b + e1 - e0]) (b + e1 - e0)).
    rewrite length_app in IH. simpl in IH.
    replace (length d + 1)%nat with (S (length d)) in IH by lia.
    rewrite <- app_assoc in IH. simpl in IH.
    rewrite IH; try lia; [| apply last_snoc | exact Hnd | exact Hlast].
    rewrite <- app_assoc. simpl. f_equal. f_equal. f_equal; [lia|].
    apply map_ext. intros; lia.
Qed.

Lemma lookup_nth {A} (l : list A) (i : nat) (d : A) :
  (i < length l)%nat -> l !! i = Some (nth i l d).
Proof.
  revert i. induction l as [|x l IH]; intros [|i] H; simpl in *; try lia.
  - reflexivity.
  - apply IH. lia.
Qed.

(** The loop of [Push] that appends the entries of the block. *)
Lemma RowBlock_data_loop (idx : list Z) (val : option (list bst_float))
    (n i0 : nat) (dv : list Entry) :
  (i0 + n <= length idx)%nat ->
  (forall v, val = Some v -> (i0 + n <= length v)%nat) ->
  for_loop n i0
    (fun i data_vec =>
       do index <- ptr_get idx (Z.of_nat i) ;
       do fvalue <-
         match val with
         | None => Ok one_f
         | Some v => ptr_get v (Z.of_nat i)
         end ;
       Ok (data_vec ++ [mkEntry index fvalue]))
    dv
  = Ok (dv ++ map (RowBlock_entry idx val) (seq i0 n)).
Proof.
  revert i0 dv. induction n as [|n IH]; intros i0 dv Hi Hv.
  - simpl. rewrite app_nil_r. reflexivity.
  - cbn [for_loop].
    rewrite (ptr_get_ok _ _ (nth i0 idx 0)).
    2:{ apply lookup_nth. lia. }
    cbn [bind].
    assert (Hval : match val with
                   | None => Ok one_f
                   | Some v => ptr_get v (Z.of_nat i0)
                   end = Ok (match val with None => one_f | Some v => nth i0 v 0 end)).
    { destruct val as [v|]; [|reflexivity].
      apply ptr_get_ok. specialize (Hv v eq_refl).
      apply lookup_nth. lia. }
    rewrite Hval. cbn [bind].
    rewrite IH by (try lia; intros v E; specialize (Hv v E); lia).
    rewrite <- app_assoc. reflexivity.
Qed.

Lemma Push_RowBlock_spec (self : SparsePage) (batch : dmlc.RowBlock) lo hi idx :
  page_invariant self -> RowBlock_wf batch lo hi idx ->
  vsize (data self) + (hi - lo) < 2 ^ 64 ->
  Push_RowBlock self batch
  = Ok (mkPage
          (offset self
             ++ map (fun e => vsize (data self) + (e - lo)) (tail (dmlc.offset batch)))
          (data self
             ++ map (RowBlock_entry idx (dmlc.value batch))
                    (seq (Z.to_nat lo) (Z.to_nat (hi - lo))))
          (base_rowid self)).
Proof.
  intros (H0 & Hnd & Hlast) (Hlo & Hhi & Hlo0 & Hbnd & Hsz & Hidx & Hlen & Hval) Hfit.
  unfold Push_RowBlock.
  destruct (dmlc.offset batch) as [|o0 r] eqn:Eo; [discriminate|].
  simpl in Hlo. injection Hlo as ->.
  assert (Hsize : dmlc.size batch = Z.of_nat (length r)).
  { unfold vsize in Hsz. simpl in Hsz. lia. }
  rewrite Hsize.
  rewrite (ptr_get_ok _ _ hi).
  2:{ rewrite last_lookup in Hhi. simpl in Hhi. exact Hhi. }
  change 0 with (Z.of_nat 0). rewrite (ptr_get_ok (lo :: r) 0 lo eq_refl).
  change (Z.of_nat 0) with 0.
  cbn [bind]. rewrite Hidx. cbn [bind]. rewrite Nat2Z.id.
  pose proof (vsize_nonneg (data self)).
  pose proof (RowBlock_offsets_loop r [] lo (offset self) (vsize (data self)) hi
                Hlast ltac:(lia) Hlo0 Hbnd Hhi Hfit) as L.
  simpl in L. rewrite L. cbn [bind].
  pose proof (nondecreasing_le_last lo r hi Hbnd Hhi) as Hall.
  assert (Hlohi : lo <= hi).
  { rewrite last_lookup in Hhi. apply list_elem_of_lookup_2 in Hhi.
    eapply Forall_forall in Hall; [|exact Hhi]. simpl in Hall. lia. }
  rewrite RowBlock_data_loop.
  2:{ unfold vsize in Hlen. lia. }
  2:{ intros v E. specialize (Hval v E). unfold vsize in Hval. lia. }
  cbn [bind].
  assert (Hback : back (offset self ++ map (fun e => vsize (data self) + (e - lo)) r)
                  = Ok (vsize (data self) + (hi - lo))).
  { unfold back. destruct r as [|e r'] using rev_ind.
    - simpl. rewrite app_nil_r, Hlast. simpl in Hhi. injection Hhi as ->.
      f_equal. lia.
    - rewrite map_app, app_assoc. simpl. rewrite last_snoc.
      rewrite app_comm_cons, last_snoc in Hhi. injection Hhi as ->. reflexivity. }
  rewrite Hback. cbn [bind].
  unfold CHECK. rewrite (proj2 (Z.eqb_eq _ _)).
  2:{ rewrite vsize_app. unfold vsize. rewrite length_map, length_seq. lia. }
  reflexivity.
Qed.

Lemma Push_RowBlock_invariant (self : SparsePage) (batch : dmlc.RowBlock) lo hi idx :
  page_invariant self -> RowBlock_wf batch lo hi idx ->
  vsize (data self) + (hi - lo) < 2 ^ 64 ->
  exists R, Push_RowBlock self batch = Ok R /\ page_invariant R.
Proof.
  intros HI Hwf Hfit. eexists. split; [eapply Push_RowBlock_spec; eassumption|].
  destruct HI as (H0 & Hnd & Hlast).
  destruct Hwf as (Hlo & Hhi & Hlo0 & Hbnd & Hsz & Hidx & Hlen & Hval).
  destruct (dmlc.offset batch) as [|o0 r] eqn:Eo; [discriminate|].
  simpl in Hlo. injection Hlo as ->.
  pose proof (nondecreasing_le_last lo r hi Hbnd Hhi) as Hall.
  apply Forall_cons in Hall as [Hlohi Hall].
  unfold page_invariant. cbn [offset data tail]. split; [|split].
  - rewrite lookup_app_l by (eapply lookup_lt_Some; exact H0). exact H0.
  - apply nondecreasing_app; [exact Hnd | |].
    + replace (map (fun e => vsize (data self) + (e - lo)) r)
        with (map (fun e => (vsize (data self) - lo) + e) r)
        by (apply map_ext; intros; lia).
      apply nondecreasing_map_shift. destruct Hbnd as [_ Hr]. exact Hr.
    + intros x y Hx Hy. rewrite Hlast in Hx. injection Hx as <-.
      destruct r as [|e r']; [discriminate|]. simpl in Hy. injection Hy as <-.
      apply Forall_inv in Hall. lia.
  - simpl in Hlohi.
    replace (vsize (data self ++ map (RowBlock_entry idx (dmlc.value batch))
                                   (seq (Z.to_nat lo) (Z.to_nat (hi - lo)))))
      with (vsize (data self) + (hi - lo))
      by (rewrite vsize_app; unfold vsize; rewrite length_map, length_seq; lia).
    clear Hall. destruct r as [|e r' _] using rev_ind.
    + simpl. rewrite app_nil_r, Hlast. simpl in Hhi. injection Hhi as ->.
      f_equal. lia.
    + rewrite map_app, app_assoc. simpl. rewrite last_snoc.
      rewrite app_comm_cons, last_snoc in Hhi. injection Hhi as ->.
      reflexivity.
Qed.

(** ** The two passes of [ParallelGroupBuilder] *)

Lemma for_each_app {A St} (l1 l2 : list A) (body : A -> St -> outcome St) s :
  for_each (l1 ++ l2) body s = bind (for_each l1 body s) (for_each l2 body).
Proof.
  revert s. induction l1 as [|x l1 IH]; intros s; simpl; [reflexivity|].
  destruct (body x s); simpl; auto.
Qed.

Lemma for_each_map {A B St} (h : A -> B) (l : list A) (body : B -> St -> outcome St) s :
  for_each (map h l) body s = for_each l (fun x => body (h x)) s.
Proof.
  revert s. induction l as [|x l IH]; intros s; simpl; [reflexivity|].
  destruct (body (h x) s); simpl; auto.
Qed.

Lemma map_seq_ext {B} (h h' : nat -> B) (a n : nat) :
  (forall i, (a <= i < a + n)%nat -> h i = h' i) ->
  map h (seq a n) = map h' (seq a n).
Proof.
  intros H. apply map_ext_in. intros i Hi. apply in_seq in Hi. apply H. lia.
Qed.

Lemma insert_map_seq {B} (h : nat -> B) (n i : nat) (y : B) :
  (i < n)%nat ->
  <[i := y]> (map h (seq 0 n))
  = map (fun j => if decide (j = i) then y else h j) (seq 0 n).
Proof.
  intros Hi. apply list_eq. intros j.
  destruct (decide (j = i)) as [->|Hne].
  - rewrite list_lookup_insert_eq by (rewrite length_map, length_seq; lia).
    rewrite list_lookup_fmap, lookup_seq_lt by lia. simpl.
    destruct (decide (i = i)); [reflexivity | contradiction].
  - rewrite list_lookup_insert_ne by congruence.
    rewrite !list_lookup_fmap.
    destruct (seq 0 n !! j) as [j'|] eqn:E; [|reflexivity]. simpl.
    apply lookup_seq in E as [-> _]. simpl.
    destruct (decide (j = i)); [contradiction | reflexivity].
Qed.

Lemma counters_ext nkeys (f f' : nat -> nat -> nat) t0 n :
  (forall g t, (g < nkeys)%nat -> (t0 <= t < t0 + n)%nat -> f g t = f' g t) ->
  counters nkeys f t0 n = counters nkeys f' t0 n.
Proof.
  intros H. unfold counters. apply map_seq_ext. intros t Ht.
  apply map_seq_ext. intros g Hg. rewrite H by lia. reflexivity.
Qed.

Lemma counters_lookup nkeys f n t :
  (t < n)%nat ->
  counters nkeys f 0 n !! t = Some (map (fun g => Z.of_nat (f g t)) (seq 0 nkeys)).
Proof.
  intros Ht. unfold counters. rewrite list_lookup_fmap, lookup_seq_lt by lia.
  reflexivity.
Qed.

Lemma counters_cell nkeys f n t g :
  (t < n)%nat -> (g < nkeys)%nat ->
  map (fun g => Z.of_nat (f g t)) (seq 0 nkeys) !! g = Some (Z.of_nat (f g t)).
Proof.
  intros Ht Hg. rewrite list_lookup_fmap, lookup_seq_lt by lia. reflexivity.
Qed.

(** Writing one counter. *)
Lemma counters_insert nkeys f n t g (x : nat) :
  (t < n)%nat -> (g < nkeys)%nat ->
  <[t := <[g := Z.of_nat x]> (map (fun g => Z.of_nat (f g t)) (seq 0 nkeys))]>
    (counters nkeys f 0 n)
  = counters nkeys (fun g' t' => if decide (g' = g /\ t' = t) then x else f g' t') 0 n.
Proof.
  intros Ht Hg. unfold counters. rewrite insert_map_seq by exact Ht.
  apply map_seq_ext. intros t' Ht'.
  destruct (decide (t' = t)) as [->|Hne].
  - rewrite insert_map_seq by exact Hg. apply map_seq_ext. intros g' Hg'.
    destruct (decide (g' = g)) as [->|Hg2].
    + destruct (decide (g = g /\ t = t)) as [_|Hn]; [reflexivity|].
      exfalso. apply Hn. split; reflexivity.
    + destruct (decide (g' = g /\ t = t)) as [[? _]|_]; [contradiction | reflexivity].
  - apply map_seq_ext. intros g' Hg'.
    destruct (decide (g' = g /\ t' = t)) as [[_ ?]|_]; [contradiction | reflexivity].
Qed.

Lemma cell_snoc {V} (calls : list (call V)) (c : call V) g t :
  cell (calls ++ [c]) g t
  = cell calls g t
    ++ (if decide (call_key c = g /\ call_tid c = t) then [call_value c] else []).
Proof.
  unfold cell. rewrite omap_app. simpl.
  destruct (decide (call_key c = g /\ call_tid c = t)); reflexivity.
Qed.

Section Passes.
Context {V : Type}.
Variables (nkeys nthread : nat).

(** The counting pass leaves in every counter the number of values of its
    cell. *)
Lemma counting_pass (todo done : list (call V)) rp (dt : list V) :
  in_budget nkeys nthread todo ->
  for_each todo
    (fun c b => common.AddBudget (call_key c) (call_tid c) b)
    (common.mkBuilder rp dt
       (counters nkeys (fun g t => length (cell done g t)) 0 nthread) nkeys)
  = Ok (common.mkBuilder rp dt
          (counters nkeys (fun g t => length (cell (done ++ todo) g t)) 0 nthread)
          nkeys).
Proof.
  intros H. revert done. induction H as [|c todo [Hk Ht] _ IH]; intros done.
  - simpl. rewrite app_nil_r. reflexivity.
  - cbn [for_each]. unfold common.AddBudget at 1.
    cbn [common.thread_rptr common.rptr common.data_ common.num_groups].
    rewrite (vec_get_ok _ _ _ (counters_lookup nkeys _ nthread _ Ht)).
    cbn [bind].
    rewrite (vec_get_ok _ _ _
               (counters_cell nkeys (fun g t => length (cell done g t)) nthread
                  _ _ Ht Hk)).
    cbn [bind].
    replace (Z.of_nat (length (cell done (call_key c) (call_tid c))) + 1)
      with (Z.of_nat (S (length (cell done (call_key c) (call_tid c))))) by lia.
    rewrite (counters_insert nkeys (fun g t => length (cell done g t)) nthread
               (call_tid c) (call_key c)
               (S (length (cell done (call_key c) (call_tid c)))) Ht Hk).
    rewrite (counters_ext nkeys _ (fun g t => length (cell (done ++ [c]) g t))).
    + rewrite IH. rewrite <- app_assoc. reflexivity.
    + intros g t _ _. rewrite cell_snoc, length_app.
      destruct (decide (g = call_key c /\ t = call_tid c)) as [[-> ->]|Hn].
      * destruct (decide (call_key c = call_key c /\ call_tid c = call_tid c)) as [_|Hn];
          [simpl; lia | exfalso; apply Hn; split; reflexivity].
      * destruct (decide (call_key c = g /\ call_tid c = t)) as [[<- <-]|_];
          [exfalso; apply Hn; split; reflexivity | simpl; lia].
Qed.
End Passes.

(** Lengths of prefixes of a concatenation. *)
Lemma prefix_length_S {A} (h : nat -> list A) (a : nat) :
  length (concat (map h (seq 0 (S a))))
  = (length (concat (map h (seq 0 a))) + length (h a))%nat.
Proof.
  rewrite seq_S, map_app, concat_app, length_app. simpl.
  rewrite app_nil_r. reflexivity.
Qed.

Lemma prefix_length_mono {A} (h : nat -> list A) (a b : nat) :
  (a <= b)%nat ->
  (length (concat (map h (seq 0 a))) <= length (concat (map h (seq 0 b))))%nat.
Proof.
  intros H. induction H as [|b _ IH]; [lia|]. rewrite prefix_length_S. lia.
Qed.

Lemma prefix_length_cons {A} (h : nat -> list A) (t0 k : nat) :
  length (concat (map h (seq t0 (S k))))
  = (length (h t0) + length (concat (map h (seq (S t0) k))))%nat.
Proof. simpl. rewrite length_app. reflexivity. Qed.

Section Storage.
Context {V : Type}.
Variables (nkeys nthread : nat) (calls : list (call V)).

(** One group of [InitStorage]: every thread gets the slots after those of
    the threads before it. *)
Lemma stripe_counters (key : nat) (f : nat -> nat -> nat) (n t0 s : nat) :
  (key < nkeys)%nat ->
  (forall t, f key t = length (cell calls key t)) ->
  common.stripe key (counters nkeys f t0 n) (Z.of_nat s)
  = (counters nkeys
       (fun g t =>
          if decide (g = key)
          then (s + length (concat (map (cell calls key) (seq t0 (t - t0)))))%nat
          else f g t)
       t0 n,
     Z.of_nat (s + length (concat (map (cell calls key) (seq t0 n))))).
Proof.
  intros Hkey Hf. revert t0 s. induction n as [|n IH]; intros t0 s.
  - simpl. rewrite Nat.add_0_r. reflexivity.
  - assert (Hc : forall h, counters nkeys h t0 (S n)
                = map (fun g => Z.of_nat (h g t0)) (seq 0 nkeys)
                    :: counters nkeys h (S t0) n) by reflexivity.
    rewrite !Hc. cbn [common.stripe].
    rewrite list_lookup_fmap, lookup_seq_lt by exact Hkey.
    cbn [fmap option_fmap option_map default Nat.add]. unfold id.
    rewrite Hf.
    replace (Z.of_nat s + Z.of_nat (length (cell calls key t0)))
      with (Z.of_nat (s + length (cell calls key t0))) by lia.
    rewrite IH.
    f_equal.
    + f_equal.
      * rewrite insert_map_seq by exact Hkey. apply map_seq_ext. intros g Hg.
        destruct (decide (g = key)); [|reflexivity].
        rewrite Nat.sub_diag. simpl. f_equal. lia.
      * apply counters_ext. intros g t Hg Ht.
        destruct (decide (g = key)); [|reflexivity].
        replace (t - t0)%nat with (S (t - S t0)) by lia.
        rewrite prefix_length_cons. lia.
    + f_equal. rewrite prefix_length_cons. lia.
Qed.

Lemma InitStorage_groups_spec (n key : nat) :
  (key + n <= nkeys)%nat ->
  common.InitStorage_groups n key (counters nkeys (striped calls nthread key) 0 nthread)
    (Z.of_nat (length (concat (map (group calls nthread) (seq 0 key)))))
    (psums 0 (map vsize (map (group calls nthread) (seq 0 key))))
  = (counters nkeys (striped calls nthread (key + n)) 0 nthread,
     psums 0 (map vsize (map (group calls nthread) (seq 0 (key + n)))),
     Z.of_nat (length (concat (map (group calls nthread) (seq 0 (key + n)))))).
Proof.
  revert key. induction n as [|n IH]; intros key Hle.
  - simpl. rewrite Nat.add_0_r. reflexivity.
  - cbn [common.InitStorage_groups].
    rewrite (stripe_counters key (striped calls nthread key)).
    2:{ lia. }
    2:{ intros t. unfold striped. destruct (decide (key < key)%nat); [lia | reflexivity]. }
    fold (group calls nthread key).
    rewrite <- prefix_length_S.
    replace (psums 0 (map vsize (map (group calls nthread) (seq 0 key)))
               ++ [Z.of_nat (length (concat (map (group calls nthread) (seq 0 (S key)))))])
      with (psums 0 (map vsize (map (group calls nthread) (seq 0 (S key))))).
    2:{ rewrite (seq_S key), map_app. cbn [map Nat.add].
        rewrite psums_snoc. f_equal. f_equal.
        rewrite concat_app, length_app. simpl. rewrite app_nil_r.
        unfold vsize. lia. }
    rewrite (counters_ext nkeys _ (striped calls nthread (S key))).
    + rewrite IH by lia. replace (S key + n)%nat with (key + S n)%nat by lia.
      reflexivity.
    + intros g t Hg Ht. unfold striped.
      destruct (decide (g = key)) as [->|Hne].
      * destruct (decide (key < S key)%nat); [|lia].
        unfold slot. rewrite Nat.sub_0_r. reflexivity.
      * destruct (decide (g < key)%nat), (decide (g < S key)%nat); try lia; reflexivity.
Qed.

Lemma InitStorage_spec (d : V) rp dt :
  common.InitStorage d
    (common.mkBuilder rp dt
       (counters nkeys (fun g t => length (cell calls g t)) 0 nthread) nkeys)
  = common.mkBuilder
      (psums 0 (map vsize (groups calls nkeys nthread)))
      (replicate (length (concat (groups calls nkeys nthread))) d)
      (counters nkeys (slot calls nthread) 0 nthread) nkeys.
Proof.
  unfold common.InitStorage.
  cbn [common.thread_rptr common.rptr common.data_ common.num_groups].
  pose proof (InitStorage_groups_spec nkeys 0 ltac:(lia)) as H.
  cbn [seq map concat length psums Nat.add] in H.
  rewrite (counters_ext nkeys (striped calls nthread 0) (fun g t => length (cell calls g t))) in H.
  2:{ intros g t _ _. unfold striped. destruct (decide (g < 0)%nat); [lia | reflexivity]. }
  rewrite (counters_ext nkeys (striped calls nthread nkeys) (slot calls nthread)) in H.
  2:{ intros g t Hg _. unfold striped. destruct (decide (g < nkeys)%nat); [reflexivity | lia]. }
  change (Z.of_nat 0) with 0 in H. rewrite H.
  unfold groups. rewrite Nat2Z.id. reflexivity.
Qed.
End Storage.

Lemma segment_insert_end {A} (l : list A) (s n : nat) (v : A) :
  (s + n < length l)%nat ->
  take (S n) (drop s (<[(s + n)%nat := v]> l)) = take n (drop s l) ++ [v].
Proof.
  intros H. rewrite drop_insert_ge by lia.
  replace (s + n - s)%nat with n by lia.
  rewrite (take_S_r _ _ v).
  - rewrite take_insert_ge by lia. reflexivity.
  - apply list_lookup_insert_eq. rewrite length_drop. lia.
Qed.

Lemma segment_insert_outside {A} (l : list A) (s n p : nat) (v : A) :
  (p < s \/ s + n <= p)%nat ->
  take n (drop s (<[p := v]> l)) = take n (drop s l).
Proof.
  intros [H|H].
  - rewrite drop_insert_lt by lia. reflexivity.
  - rewrite drop_insert_ge by lia. rewrite take_insert_ge by lia. reflexivity.
Qed.

(** A list that holds the segments [segs] one after the other from
    position [s] on holds their concatenation there. *)
Lemma assemble {A} (segs : list (list A)) (l : list A) (s : nat) :
  (forall i seg, segs !! i = Some seg ->
     take (length seg) (drop (s + length (concat (take i segs))) l) = seg) ->
  take (length (concat segs)) (drop s l) = concat segs.
Proof.
  revert s. induction segs as [|x segs IH]; intros s H.
  - reflexivity.
  - simpl. rewrite length_app, <- take_take_drop, drop_drop.
    f_equal.
    + specialize (H 0%nat x eq_refl). simpl in H. rewrite Nat.add_0_r in H. exact H.
    + apply IH. intros i seg Hi. specialize (H (S i) seg Hi).
      simpl in H. rewrite length_app in H.
      replace (s + length x + length (concat (take i segs)))%nat
        with (s + (length x + length (concat (take i segs))))%nat by lia.
      exact H.
Qed.

Section Filling.
Context {V : Type}.
Variables (nkeys nthread : nat) (calls : list (call V)).

Lemma slot_next g t :
  (slot calls nthread g t + length (cell calls g t))%nat = slot calls nthread g (S t).
Proof. unfold slot. rewrite (prefix_length_S (cell calls g)). lia. Qed.

Lemma slot_mono g t t' :
  (t <= t')%nat -> (slot calls nthread g t <= slot calls nthread g t')%nat.
Proof.
  intros H. unfold slot.
  pose proof (prefix_length_mono (cell calls g) t t' H). lia.
Qed.

Lemma slot_group_end g :
  slot calls nthread g nthread = slot calls nthread (S g) 0.
Proof.
  unfold slot. rewrite (prefix_length_S (group calls nthread)). simpl.
  unfold group. lia.
Qed.

Lemma slot_group_mono g g' t' :
  (g < g')%nat -> (slot calls nthread g nthread <= slot calls nthread g' t')%nat.
Proof.
  intros H. rewrite slot_group_end. unfold slot.
  change (length (concat (map (cell calls (S g)) (seq 0 0)))) with 0%nat.
  pose proof (prefix_length_mono (group calls nthread) (S g) g' H). lia.
Qed.

Lemma slot_end_le g t :
  (g < nkeys)%nat -> (t < nthread)%nat ->
  (slot calls nthread g t + length (cell calls g t)
   <= length (concat (groups calls nkeys nthread)))%nat.
Proof.
  intros Hg Ht. rewrite slot_next.
  pose proof (slot_mono g (S t) nthread Ht) as H1.
  rewrite slot_group_end in H1.
  unfold groups.
  pose proof (prefix_length_mono (group calls nthread) (S g) nkeys Hg) as H2.
  unfold slot in H1 at 2.
  change (length (concat (map (cell calls (S g)) (seq 0 0)))) with 0%nat in H1.
  lia.
Qed.

Lemma slot_disjoint g t g' t' :
  (t < nthread)%nat -> (t' < nthread)%nat -> (g, t) <> (g', t') ->
  (slot calls nthread g t + length (cell calls g t) <= slot calls nthread g' t'
   \/ slot calls nthread g' t' + length (cell calls g' t') <= slot calls nthread g t)%nat.
Proof.
  intros Ht Ht' Hne. rewrite !slot_next.
  destruct (lt_eq_lt_dec g g') as [[Hlt| ->]|Hgt].
  - left. pose proof (slot_mono g (S t) nthread Ht).
    pose proof (slot_group_mono g g' t' Hlt). lia.
  - destruct (lt_eq_lt_dec t t') as [[Hlt| ->]|Hgt].
    + left. apply slot_mono. lia.
    + contradiction.
    + right. apply slot_mono. lia.
  - right. pose proof (slot_mono g' (S t') nthread Ht').
    pose proof (slot_group_mono g' g t Hgt). lia.
Qed.

(** The filling pass: every call lands in the next free slot of its cell,
    and no other cell is touched. *)
Lemma filling_pass (todo done : list (call V)) rp (dt : list V) :
  calls = done ++ todo ->
  in_budget nkeys nthread todo ->
  length dt = length (concat (groups calls nkeys nthread)) ->
  (forall g t, (g < nkeys)%nat -> (t < nthread)%nat ->
     take (length (cell done g t)) (drop (slot calls nthread g t) dt)
     = cell done g t) ->
  exists dt',
    for_each todo
      (fun c b => common.Push (call_key c) (call_value c) (call_tid c) b)
      (common.mkBuilder rp dt
         (counters nkeys
            (fun g t => (slot calls nthread g t + length (cell done g t))%nat)
            0 nthread) nkeys)
    = Ok (common.mkBuilder rp dt'
            (counters nkeys
               (fun g t => (slot calls nthread g t + length (cell calls g t))%nat)
               0 nthread) nkeys)
    /\ length dt' = length (concat (groups calls nkeys nthread))
    /\ forall g t, (g < nkeys)%nat -> (t < nthread)%nat ->
         take (length (cell calls g t)) (drop (slot calls nthread g t) dt')
         = cell calls g t.
Proof.
  revert done dt. induction todo as [|c todo IH]; intros done dt Hcalls Hb Hlen Hseg.
  - rewrite app_nil_r in Hcalls. subst done. exists dt. simpl. auto.
  - apply Forall_cons in Hb as [[Hk Ht] Hb].
    assert (Hcell : cell calls (call_key c) (call_tid c)
                    = cell done (call_key c) (call_tid c) ++ call_value c :: cell todo (call_key c) (call_tid c)).
    { rewrite Hcalls. unfold cell. rewrite omap_app. simpl.
      destruct (decide (call_key c = (call_key c) /\ call_tid c = (call_tid c))) as [_|Hn];
        [reflexivity | exfalso; apply Hn; split; reflexivity]. }
    pose proof (slot_end_le (call_key c) (call_tid c) Hk Ht) as Hend.
    rewrite Hcell, length_app in Hend. simpl in Hend.
    cbn [for_each]. unfold common.Push at 1.
    cbn [common.thread_rptr common.rptr common.data_ common.num_groups].
    rewrite (vec_get_ok _ _ _ (counters_lookup nkeys _ nthread _ Ht)).
    cbn [bind].
    rewrite (vec_get_ok _ _ _
               (counters_cell nkeys
                  (fun g t => (slot calls nthread g t + length (cell done g t))%nat)
                  nthread _ _ Ht Hk)).
    cbn [bind].
    rewrite (proj2 (Z.leb_le _ _)) by lia. rewrite Nat2Z.id.
    rewrite vec_set_ok by lia. cbn [bind].
    replace (Z.of_nat (slot calls nthread (call_key c) (call_tid c) + length (cell done (call_key c) (call_tid c))) + 1)
      with (Z.of_nat (S (slot calls nthread (call_key c) (call_tid c) + length (cell done (call_key c) (call_tid c))))) by lia.
    rewrite (counters_insert nkeys
               (fun g t => (slot calls nthread g t + length (cell done g t))%nat)
               nthread (call_tid c) (call_key c) _ Ht Hk).
    rewrite (counters_ext nkeys _
               (fun g t => (slot calls nthread g t + length (cell (done ++ [c]) g t))%nat)).
    2:{ intros g t _ _. rewrite cell_snoc, length_app.
        destruct (decide (g = (call_key c) /\ t = (call_tid c))) as [[-> ->]|Hn].
        - destruct (decide (call_key c = (call_key c) /\ call_tid c = (call_tid c))) as [_|Hn];
            [simpl; lia | exfalso; apply Hn; split; reflexivity].
        - destruct (decide (call_key c = g /\ call_tid c = t)) as [[<- <-]|_];
            [exfalso; apply Hn; split; reflexivity | simpl; lia]. }
    apply IH.
    + rewrite <- app_assoc. exact Hcalls.
    + exact Hb.
    + rewrite length_insert. exact Hlen.
    + intros g t Hg Htt. rewrite cell_snoc.
      destruct (decide (call_key c = g /\ call_tid c = t)) as [[<- <-]|Hn].
      * rewrite length_app. simpl.
        replace (length (cell done (call_key c) (call_tid c)) + 1)%nat
          with (S (length (cell done (call_key c) (call_tid c)))) by lia.
        rewrite segment_insert_end by lia. rewrite (Hseg (call_key c) (call_tid c) Hk Ht). reflexivity.
      * rewrite app_nil_r. rewrite segment_insert_outside; [apply Hseg; assumption|].
        assert (Hle : (length (cell done g t) <= length (cell calls g t))%nat).
        { rewrite Hcalls. unfold cell. rewrite omap_app, length_app. lia. }
        destruct (slot_disjoint (call_key c) (call_tid c) g t Ht Htt) as [Hd|Hd].
        -- intros E. injection E as <- <-. apply Hn. split; reflexivity.
        -- rewrite Hcell, length_app in Hd. simpl in Hd. left. lia.
        -- right. lia.
Qed.

(** The storage after both passes: the groups, one after the other. *)
Lemma filled_storage (dt : list V) :
  length dt = length (concat (groups calls nkeys nthread)) ->
  (forall g t, (g < nkeys)%nat -> (t < nthread)%nat ->
     take (length (cell calls g t)) (drop (slot calls nthread g t) dt)
     = cell calls g t) ->
  dt = concat (groups calls nkeys nthread).
Proof.
  intros Hlen Hseg.
  rewrite <- (firstn_all dt), Hlen, <- (drop_0 dt) at 1.
  apply assemble. intros g seg Hg.
  unfold groups in Hg. rewrite list_lookup_fmap in Hg.
  destruct (seq 0 nkeys !! g) as [g'|] eqn:Eg; [|discriminate].
  apply lookup_seq in Eg as [-> Hgn]. simpl in Hg. injection Hg as <-.
  unfold groups. rewrite <- fmap_take, take_seq.
  replace (g `min` nkeys)%nat with g by lia.
  unfold group at 1 3.
  apply assemble. intros t seg Ht.
  rewrite list_lookup_fmap in Ht.
  destruct (seq 0 nthread !! t) as [t'|] eqn:Et; [|discriminate].
  apply lookup_seq in Et as [-> Htn]. simpl in Ht. injection Ht as <-.
  rewrite <- fmap_take, take_seq.
  replace (t `min` nthread)%nat with t by lia.
  apply (Hseg g t Hgn Htn).
Qed.
End Filling.

(** ** [GetTranspose] *)

(** The two nested loops of a pass visit the entries row by row. *)
Lemma rows_loop {St} (rest done : list (list Entry)) base
    (F : nat -> Entry -> St -> outcome St) (s : St) :
  for_loop (length rest) (length done)
    (fun i b =>
       do inst <- Inst (of_rows (done ++ rest) base) i ;
       for_each inst (F i) b)
    s
  = for_each (indexed (length done) rest) (fun ie => F (fst ie) (snd ie)) s.
Proof.
  revert done s. induction rest as [|r rest IH]; intros done s.
  - reflexivity.
  - cbn [for_loop length indexed].
    rewrite (Inst_of_rows _ _ _ r).
    2:{ rewrite lookup_app_r by lia.
        replace (length done - length done)%nat with 0%nat by lia. reflexivity. }
    cbn [bind]. rewrite for_each_app, for_each_map. cbn [fst snd].
    destruct (for_each r (F (length done)) s) as [s'| |]; cbn [bind]; try reflexivity.
    specialize (IH (done ++ [r]) s').
    rewrite length_app in IH. simpl in IH.
    replace (length done + 1)%nat with (S (length done)) in IH by lia.
    rewrite <- app_assoc in IH. exact IH.
Qed.

Lemma counters_zero nkeys nthread :
  replicate nthread (replicate nkeys 0)
  = counters nkeys (fun g t => length (cell (@nil (call Entry)) g t)) 0 nthread.
Proof.
  unfold counters. apply list_eq. intros t.
  rewrite list_lookup_fmap.
  destruct (decide (t < nthread)%nat) as [Ht|Ht].
  - rewrite lookup_replicate_2, lookup_seq_lt by lia. simpl. f_equal.
    apply list_eq. intros g. rewrite list_lookup_fmap.
    destruct (decide (g < nkeys)%nat) as [Hg|Hg].
    + rewrite lookup_replicate_2, lookup_seq_lt by lia. reflexivity.
    + rewrite (proj1 (lookup_replicate_None _ _ _)), lookup_seq_ge by lia. reflexivity.
  - rewrite (proj1 (lookup_replicate_None _ _ _)), lookup_seq_ge by lia. reflexivity.
Qed.

Section TransposeSpec.
Variable omp_get_max_threads : nat.
Variable omp_get_thread_num : nat -> nat -> nat.

Lemma GetTranspose_of_rows (rs : list (list Entry)) (base num_columns : Z) :
  0 <= num_columns < 2 ^ 64 ->
  vsize rs < 2 ^ 63 ->
  in_budget (Z.to_nat num_columns) omp_get_max_threads
    (transpose_calls (omp_get_thread_num (length rs)) (of_rows rs base)) ->
  GetTranspose omp_get_max_threads omp_get_thread_num (of_rows rs base) num_columns
  = Ok (of_rows
          (groups (transpose_calls (omp_get_thread_num (length rs)) (of_rows rs base))
                  (Z.to_nat num_columns) omp_get_max_threads)
          0).
Proof.
  intros Hn Hsz Hb. unfold GetTranspose.
  rewrite (wrap64_small num_columns) by exact Hn.
  assert (HS : Z.to_nat (to_long (Size (of_rows rs base))) = length rs).
  { unfold Size, of_rows. cbn [offset]. unfold vsize in *.
    rewrite psums_length, length_map.
    replace (Z.of_nat (S (length rs)) - 1) with (Z.of_nat (length rs)) by lia.
    rewrite wrap64_small by lia. unfold to_long.
    rewrite (proj2 (Z.ltb_lt _ _)) by lia. lia. }
  rewrite HS.
  set (calls := transpose_calls (omp_get_thread_num (length rs)) (of_rows rs base)) in *.
  unfold common.InitBudget. cbn [common.rptr common.data_ SparsePage_new offset data].
  rewrite counters_zero.
  pose proof (@rows_loop (common.ParallelGroupBuilder Entry) rs [] base) as L.
  cbn [app length] in L.
  rewrite L.
  assert (E1 : forall b0 : common.ParallelGroupBuilder Entry,
    for_each (indexed 0 rs)
      (fun ie => fun builder =>
         common.AddBudget (Z.to_nat (index (snd ie)))
           (omp_get_thread_num (length rs) (fst ie)) builder) b0
    = for_each calls (fun c b => common.AddBudget (call_key c) (call_tid c) b) b0).
  { intros b0. unfold calls, transpose_calls. rewrite rows_of_of_rows, for_each_map.
    reflexivity. }
  rewrite E1. rewrite (counting_pass _ _ calls []) by exact Hb.
  cbn [bind app]. rewrite InitStorage_spec.
  rewrite L.
  assert (E2 : forall b0 : common.ParallelGroupBuilder Entry,
    for_each (indexed 0 rs)
      (fun ie => fun builder =>
         common.Push (Z.to_nat (index (snd ie)))
           (mkEntry (wrap32 (base_rowid (of_rows rs base) + Z.of_nat (fst ie)))
                    (fvalue (snd ie)))
           (omp_get_thread_num (length rs) (fst ie)) builder) b0
    = for_each calls
        (fun c b => common.Push (call_key c) (call_value c) (call_tid c) b) b0).
  { intros b0. unfold calls, transpose_calls. rewrite rows_of_of_rows, for_each_map.
    reflexivity. }
  rewrite E2.
  set (nkeys := Z.to_nat num_columns) in *. set (nthread := omp_get_max_threads) in *.
  destruct (filling_pass nkeys nthread calls calls []
              (psums 0 (map vsize (groups calls nkeys nthread)))
              (replicate (length (concat (groups calls nkeys nthread))) Entry0)
              eq_refl Hb) as (dt' & Hrun & Hlen & Hseg).
  { apply length_replicate. }
  { intros g t _ _. reflexivity. }
  rewrite (counters_ext nkeys
             (fun g t => (slot calls nthread g t + length (cell (@nil (call Entry)) g t))%nat)
             (slot calls nthread)) in Hrun
    by (intros; simpl; lia).
  rewrite Hrun. cbn [bind common.rptr common.data_ base_rowid].
  rewrite (filled_storage nkeys nthread calls dt' Hlen Hseg).
  reflexivity.
Qed.
End TransposeSpec.

(** ** Grouping is a permutation *)

Lemma concat_map_nil {A B} (J : list A) :
  concat (map (fun _ => @nil B) J) = [].
Proof. induction J; simpl; auto. Qed.

Lemma concat_map_Permutation {A B} (f f' : A -> list B) (J : list A) :
  (forall j, j ∈ J -> f j ≡ₚ f' j) ->
  concat (map f J) ≡ₚ concat (map f' J).
Proof.
  induction J as [|j J IH]; intros H; simpl; [reflexivity|].
  apply Permutation_app.
  - apply H. left.
  - apply IH. intros j' Hj'. apply H. right. exact Hj'.
Qed.

Lemma map_concat_map {A B C} (h : B -> C) (f : A -> list B) (J : list A) :
  concat (map (fun j => map h (f j)) J) = map h (concat (map f J)).
Proof.
  induction J as [|j J IH]; simpl; [reflexivity|]. rewrite map_app, IH. reflexivity.
Qed.

(** Sorting the elements of a list into the buckets [0 .. n-1] by a key
    loses nothing and adds nothing. *)
Lemma buckets_Permutation {A} (keyof : A -> nat) (n : nat) (l : list A) :
  Forall (fun x => (keyof x < n)%nat) l ->
  concat (map (fun j => filter (fun x => keyof x = j) l) (seq 0 n)) ≡ₚ l.
Proof.
  intros H. induction H as [|x l Hx _ IH].
  - rewrite (map_ext _ (fun _ => @nil A)) by reflexivity. rewrite concat_map_nil.
    reflexivity.
  - replace n with (keyof x + S (n - S (keyof x)))%nat in * by lia.
    remember (n - S (keyof x))%nat as m eqn:Em. clear Em Hx.
    rewrite seq_app, map_app, concat_app in *.
    cbn [seq map concat Nat.add] in *.
    rewrite filter_cons_True by reflexivity.
    rewrite (map_seq_ext _ (fun j => filter (fun y => keyof y = j) l) 0 (keyof x)).
    2:{ intros j Hj. apply filter_cons_False. lia. }
    rewrite (map_seq_ext _ (fun j => filter (fun y => keyof y = j) l) (S (keyof x)) m).
    2:{ intros j Hj. apply filter_cons_False. lia. }
    rewrite <- IH at 2. simpl.
    symmetry. apply Permutation_middle.
Qed.

Lemma cell_filter {V} (calls : list (call V)) g t :
  cell calls g t
  = map call_value
      (filter (fun c => call_tid c = t) (filter (fun c => call_key c = g) calls)).
Proof.
  unfold cell. induction calls as [|c calls IH]; [reflexivity|].
  cbn [omap list_omap].
  destruct (decide (call_key c = g)) as [Hk|Hk].
  - rewrite (filter_cons_True (fun c => call_key c = g) c calls Hk).
    destruct (decide (call_tid c = t)) as [Ht|Ht].
    + rewrite (filter_cons_True (fun c => call_tid c = t) c _ Ht).
      destruct (decide (call_key c = g /\ call_tid c = t)) as [_|Hn];
        [|exfalso; apply Hn; split; assumption].
      simpl. f_equal. exact IH.
    + rewrite (filter_cons_False (fun c => call_tid c = t) c _ Ht).
      destruct (decide (call_key c = g /\ call_tid c = t)) as [[_ ?]|_];
        [contradiction | exact IH].
  - rewrite (filter_cons_False (fun c => call_key c = g) c calls Hk).
    destruct (decide (call_key c = g /\ call_tid c = t)) as [[? _]|_];
      [contradiction | exact IH].
Qed.

Lemma group_Permutation {V} (calls : list (call V)) nkeys nthread g :
  in_budget nkeys nthread calls ->
  group calls nthread g ≡ₚ map call_value (filter (fun c => call_key c = g) calls).
Proof.
  intros Hb. unfold group.
  rewrite (map_ext _ (fun t => map call_value
             (filter (fun c => call_tid c = t)
                     (filter (fun c => call_key c = g) calls))))
    by (intros t; apply cell_filter).
  rewrite (map_concat_map call_value
             (fun t => filter (fun c => call_tid c = t)
                              (filter (fun c => call_key c = g) calls))).
  apply Permutation_map, buckets_Permutation.
  apply Forall_forall. intros c Hc. apply list_elem_of_filter in Hc as [_ Hc].
  unfold in_budget in Hb. eapply Forall_forall in Hb; [|exact Hc]. apply Hb.
Qed.

Lemma indexed_map_seq (h : nat -> list Entry) (i0 n : nat) :
  indexed i0 (map h (seq i0 n))
  = concat (map (fun g => map (pair g) (h g)) (seq i0 n)).
Proof.
  revert i0. induction n as [|n IH]; intros i0; simpl; [reflexivity|].
  rewrite IH. reflexivity.
Qed.

(** The groups of a builder hold, group by group, the values of its calls. *)
Lemma groups_Permutation (calls : list (call Entry)) nkeys nthread :
  in_budget nkeys nthread calls ->
  indexed 0 (groups calls nkeys nthread)
  ≡ₚ map (fun c => (call_key c, call_value c)) calls.
Proof.
  intros Hb. unfold groups. rewrite indexed_map_seq.
  rewrite (concat_map_Permutation _
             (fun g => map (fun c => (call_key c, call_value c))
                           (filter (fun c => call_key c = g) calls))).
  - rewrite map_concat_map.
    apply Permutation_map, buckets_Permutation.
    eapply Forall_impl; [exact Hb|]. simpl. intros c [H _]. exact H.
  - intros g _. rewrite (group_Permutation calls nkeys nthread g Hb).
    rewrite map_map. apply Permutation_refl'.
    apply map_ext_in. intros c Hc.
    apply list_elem_of_In, list_elem_of_filter in Hc as [<- _]. reflexivity.
Qed.

(** ** Transposing twice *)

Lemma indexed_In (rs : list (list Entry)) (i0 i : nat) (e : Entry) :
  In (i, e) (indexed i0 rs) ->
  (i0 <= i < i0 + length rs)%nat /\ In e (concat rs).
Proof.
  revert i0. induction rs as [|r rs IH]; intros i0 H; [destruct H|].
  simpl in H. apply in_app_or in H as [H|H].
  - apply in_map_iff in H as (e' & E & He'). injection E as <- <-.
    split; [simpl; lia | simpl; apply in_or_app; left; exact He'].
  - apply IH in H as [Hi He]. split; [simpl; lia | simpl; apply in_or_app; right; exact He].
Qed.

Lemma indexed_In_concat (rs : list (list Entry)) (i0 : nat) (e : Entry) :
  In e (concat rs) -> exists i, In (i, e) (indexed i0 rs).
Proof.
  revert i0. induction rs as [|r rs IH]; intros i0 H; [destruct H|].
  simpl in H. apply in_app_or in H as [H|H].
  - exists i0. simpl. apply in_or_app. left. apply in_map. exact H.
  - destruct (IH (S i0) H) as [i Hi]. exists i. simpl. apply in_or_app. right. exact Hi.
Qed.

Lemma page_data_rows p : page_invariant p -> data p = concat (rows_of p).
Proof. intros H. rewrite <- (of_rows_rows_of p H) at 1. reflexivity. Qed.

Lemma triples_csc_swap p : triples_csc p = map swap_triple (pos_triples p).
Proof. unfold triples_csc, pos_triples. rewrite map_map. reflexivity. Qed.

Lemma triples_pos p : base_rowid p = 0 -> triples p = pos_triples p.
Proof. intros H. unfold triples, pos_triples. rewrite H. reflexivity. Qed.

Section TransposeTwice.
Variable omp_get_max_threads : nat.
Variable omp_get_thread_num : nat -> nat -> nat.
Hypothesis thread_num_lt :
  forall n i, (i < n)%nat -> (omp_get_thread_num n i < omp_get_max_threads)%nat.

(** One transposition: the page that comes out holds, under every column,
    the entries that name this column, each with the row it came from. *)
Lemma GetTranspose_pos_triples (Q : SparsePage) (n : Z) :
  page_invariant Q -> 0 <= n <= INT_MAX ->
  vsize (rows_of Q) < 2 ^ 63 ->
  Forall (fun e => 0 <= index e < n) (data Q) ->
  exists T,
    GetTranspose omp_get_max_threads omp_get_thread_num Q n = Ok T
    /\ page_invariant T
    /\ base_rowid T = 0
    /\ length (rows_of T) = Z.to_nat n
    /\ pos_triples T
       ≡ₚ map (fun ie : nat * Entry =>
                 (index (snd ie), wrap32 (base_rowid Q + Z.of_nat (fst ie)),
                  fvalue (snd ie)))
              (indexed 0 (rows_of Q)).
Proof.
  intros HI Hn Hsz Hidx.
  pose proof (of_rows_rows_of Q HI) as EQ.
  pose proof (page_data_rows Q HI) as ED.
  set (rs := rows_of Q) in *.
  set (calls := transpose_calls (omp_get_thread_num (length rs)) Q).
  assert (Hb : in_budget (Z.to_nat n) omp_get_max_threads calls).
  { unfold in_budget, calls, transpose_calls. fold rs.
    apply Forall_map, Forall_forall. intros [i e] Hie.
    apply list_elem_of_In, indexed_In in Hie as [Hi He].
    unfold call_key, call_tid. cbn [fst snd]. split.
    - rewrite <- ED in He. apply list_elem_of_In in He.
      eapply Forall_forall in Hidx; [|exact He]. simpl in Hidx. lia.
    - apply thread_num_lt. lia. }
  exists (of_rows (groups calls (Z.to_nat n) omp_get_max_threads) 0).
  split; [|split; [|split; [|split]]].
  - rewrite <- EQ at 1. unfold calls. rewrite <- EQ at 2.
    apply GetTranspose_of_rows.
    + unfold INT_MAX in Hn. lia.
    + exact Hsz.
    + rewrite EQ. exact Hb.
  - apply of_rows_invariant.
  - reflexivity.
  - rewrite rows_of_of_rows. unfold groups. rewrite length_map, length_seq. reflexivity.
  - unfold pos_triples. rewrite rows_of_of_rows.
    rewrite (groups_Permutation calls _ _ Hb).
    unfold calls, transpose_calls. fold rs. rewrite !map_map.
    apply Permutation_refl'. apply map_ext_in. intros [i e] Hie.
    apply indexed_In in Hie as [_ He].
    unfold call_key, call_value. cbn [fst snd index fvalue].
    rewrite <- ED in He. apply list_elem_of_In in He.
    eapply Forall_forall in Hidx; [|exact He]. simpl in Hidx.
    rewrite Z2Nat.id by lia. reflexivity.
Qed.
End TransposeTwice.

Lemma swap_triple_involutive x : swap_triple (swap_triple x) = x.
Proof. destruct x as [[a b] v]. reflexivity. Qed.

Lemma map_swap_triple_involutive l : map swap_triple (map swap_triple l) = l.
Proof.
  rewrite map_map. rewrite (map_ext _ id) by (intros; apply swap_triple_involutive).
  apply map_id.
Qed.

Section TransposeRoundTrip.
Variable omp_get_max_threads : nat.
Variable omp_get_thread_num : nat -> nat -> nat.
Hypothesis thread_num_lt :
  forall n i, (i < n)%nat -> (omp_get_thread_num n i < omp_get_max_threads)%nat.

(** C6: when [nCols] bounds the column indices of [P] and [nRows] its row
    indices [base_rowid + i], transposing [P] and transposing the result
    back gives a page with the same (row, column, value) triples as [P], up
    to their order; every entry of the transposed page records its row as
    [base_rowid + i], so that the triples of the transposed page are those
    of [P] as well. *)
Theorem GetTranspose_twice (P : SparsePage) (nCols nRows : Z) :
  page_invariant P -> 0 <= base_rowid P ->
  0 <= nCols <= INT_MAX -> 0 <= nRows <= INT_MAX ->
  Forall (fun e => 0 <= index e < nCols) (data P) ->
  base_rowid P + (vsize (offset P) - 1) <= nRows ->
  exists T PP,
    GetTranspose omp_get_max_threads omp_get_thread_num P nCols = Ok T
    /\ GetTranspose omp_get_max_threads omp_get_thread_num T nRows = Ok PP
    /\ triples_csc T ≡ₚ triples P
    /\ triples PP ≡ₚ triples P.
Proof.
  intros HI Hb HnC HnR Hidx Hrows.
  assert (Hlen : vsize (rows_of P) = vsize (offset P) - 1).
  { unfold vsize. rewrite rows_of_length. destruct HI as (H0 & _).
    apply lookup_lt_Some in H0. lia. }
  unfold INT_MAX in *.
  destruct (GetTranspose_pos_triples omp_get_max_threads omp_get_thread_num
              thread_num_lt P nCols HI) as (T & HT & HIT & HbT & HlT & HpT);
    [unfold INT_MAX; lia | lia | exact Hidx |].
  assert (HpT' : pos_triples T ≡ₚ map swap_triple (triples P)).
  { rewrite HpT. unfold triples. rewrite map_map.
    apply Permutation_refl'. apply map_ext_in. intros [i e] Hie.
    apply indexed_In in Hie as [Hi _]. unfold swap_triple. cbn [fst snd].
    rewrite wrap32_small; [reflexivity|]. unfold vsize in *. lia. }
  assert (HcT : triples_csc T ≡ₚ triples P).
  { rewrite triples_csc_swap, HpT'. rewrite map_swap_triple_involutive. reflexivity. }
  assert (HidxT : Forall (fun e => 0 <= index e < nRows) (data T)).
  { apply Forall_forall. intros e He.
    rewrite (page_data_rows T HIT) in He. apply list_elem_of_In in He.
    destruct (indexed_In_concat _ 0 e He) as [c Hc].
    assert (Hin : In (Z.of_nat c, index e, fvalue e) (pos_triples T)).
    { unfold pos_triples. apply in_map_iff. exists (c, e). split; [reflexivity | exact Hc]. }
    apply list_elem_of_In in Hin. rewrite HpT' in Hin.
    apply list_elem_of_In, in_map_iff in Hin as ([[r c'] v] & E & Hin).
    unfold triples in Hin. apply in_map_iff in Hin as ([i e'] & E' & Hie).
    apply indexed_In in Hie as [Hi _]. cbn [fst snd] in E'.
    unfold swap_triple in E. cbn [fst snd] in E.
    injection E' as <- <- <-. injection E as _ <- _.
    unfold vsize in *. lia. }
  destruct (GetTranspose_pos_triples omp_get_max_threads omp_get_thread_num
              thread_num_lt T nRows HIT) as (PP & HPP & HIPP & HbPP & HlPP & HpPP);
    [unfold INT_MAX; lia | unfold vsize; lia | exact HidxT |].
  exists T, PP. split; [exact HT|]. split; [exact HPP|]. split; [exact HcT|].
  rewrite (triples_pos PP HbPP), HpPP, <- HcT, triples_csc_swap.
  unfold pos_triples. rewrite map_map.
  apply Permutation_refl'. apply map_ext_in. intros [c e] Hce.
  apply indexed_In in Hce as [Hc _]. unfold swap_triple. cbn [fst snd].
  rewrite HbT, wrap32_small; [reflexivity | lia].
Qed.
End TransposeRoundTrip.

Lemma GetTranspose_twice_witness :
  let P := mkPage [0; 2; 3; 5]
             [mkEntry 0 10; mkEntry 2 11; mkEntry 2 12; mkEntry 0 13; mkEntry 1 14] 7 in
  exists T PP,
    GetTranspose 2 (fun _ i => (i mod 2)%nat) P 3 = Ok T
    /\ GetTranspose 2 (fun _ i => (i mod 2)%nat) T 10 = Ok PP
    /\ triples_csc T ≡ₚ triples P
    /\ triples PP ≡ₚ triples P.
Proof.
  intros P.
  apply (GetTranspose_twice 2 (fun _ i => (i mod 2)%nat)).
  - intros n i _. apply Nat.mod_upper_bound. lia.
  - repeat split; simpl; lia.
  - simpl. lia.
  - unfold INT_MAX. lia.
  - unfold INT_MAX. lia.
  - repeat constructor; simpl; lia.
  - vm_compute. discriminate.
Defined.

(** ** The page invariant *)

Lemma Push_invariant (P Q : SparsePage) :
  page_invariant P -> page_invariant Q -> addressable P Q ->
  exists R, Push P Q = Ok R /\ page_invariant R.
Proof.
  intros (HP0 & HPnd & HPlast) (HQ0 & HQnd & HQlast) Hfit.
  destruct (offset Q) as [|q0 qs] eqn:EQ; [discriminate|].
  simpl in HQ0. injection HQ0 as ->.
  eexists. split; [apply (Push_spec P Q 0 qs HPlast EQ Hfit)|].
  pose proof (nondecreasing_le_last 0 qs _ HQnd HQlast) as Hall.
  apply Forall_cons in Hall as [_ Hall].
  destruct Hfit as [Hfit _]. pose proof (vsize_nonneg (data P)) as HP.
  assert (Emap : map (fun o => wrap64 (vsize (data P) + o)) qs
                 = map (fun o => vsize (data P) + o) qs).
  { apply map_ext_in. intros o Ho. apply list_elem_of_In in Ho.
    eapply Forall_forall in Hall; [|exact Ho]. simpl in Hall.
    apply wrap64_small. lia. }
  unfold page_invariant. cbn [offset data]. rewrite Emap.
  split; [|split].
  - rewrite lookup_app_l by (eapply lookup_lt_Some; exact HP0). exact HP0.
  - apply nondecreasing_app; [exact HPnd | |].
    + apply nondecreasing_map_shift. destruct HQnd as [_ H]. exact H.
    + intros x y Hx Hy. rewrite HPlast in Hx. injection Hx as <-.
      destruct qs as [|q1 qs']; [discriminate|]. simpl in Hy. injection Hy as <-.
      apply Forall_inv in Hall. simpl in Hall. lia.
  - rewrite vsize_app. clear Emap Hall HQnd.
    destruct qs as [|q qs' _] using rev_ind.
    + simpl. rewrite app_nil_r, HPlast. simpl in HQlast. injection HQlast as <-.
      f_equal. lia.
    + rewrite map_app, app_assoc. simpl. rewrite last_snoc.
      rewrite app_comm_cons, last_snoc in HQlast. injection HQlast as ->.
      reflexivity.
Qed.

Lemma PushCSC_invariant (self other r : SparsePage) :
  page_invariant self -> page_invariant other -> addressable self other ->
  PushCSC self other = Ok r -> page_invariant r.
Proof.
  intros HIs HIo Hfit Hr.
  destruct (data other) as [|eo od] eqn:Eo.
  { rewrite PushCSC_other_empty in Hr by exact Eo. injection Hr as <-. exact HIs. }
  assert (Ho : data other <> []) by (rewrite Eo; discriminate).
  destruct (data self) as [|es sd] eqn:Es.
  { rewrite PushCSC_self_empty in Hr by assumption. injection Hr as <-.
    exact HIo. }
  assert (Hs : data self <> []) by (rewrite Es; discriminate).
  destruct (decide (length (offset self) = length (offset other))) as [Hlen|Hlen].
  - rewrite PushCSC_merge in Hr by assumption. injection Hr as <-.
    apply of_rows_invariant.
  - rewrite PushCSC_mismatch in Hr by assumption. discriminate.
Qed.

Lemma PushCSC_succeeds (self other : SparsePage) :
  page_invariant self -> page_invariant other -> addressable self other ->
  data other = [] \/ data self = []
  \/ length (offset self) = length (offset other) ->
  exists r, PushCSC self other = Ok r.
Proof.
  intros HIs HIo Hfit H.
  destruct (data other) as [|eo od] eqn:Eo.
  { eexists. apply PushCSC_other_empty. exact Eo. }
  assert (Ho : data other <> []) by (rewrite Eo; discriminate).
  destruct (data self) as [|es sd] eqn:Es.
  { eexists. apply PushCSC_self_empty; assumption. }
  assert (Hs : data self <> []) by (rewrite Es; discriminate).
  destruct H as [H|[H|H]]; try discriminate.
  eexists. apply PushCSC_merge; assumption.
Qed.

Section Invariant.
Variable omp_get_max_threads : nat.
Variable omp_get_thread_num : nat -> nat -> nat.
Hypothesis thread_num_lt :
  forall n i, (i < n)%nat -> (omp_get_thread_num n i < omp_get_max_threads)%nat.

(** C7: the four operations on pages keep the page invariant: [Push] of a
    page, [Push] of a row block, [PushCSC] (whenever it does not stop with
    its size check) and [GetTranspose] return pages with [offset[0] = 0],
    nondecreasing offsets and [offset.back() = data.size()]. *)
Theorem operations_preserve_invariant :
  (forall P Q,
     page_invariant P -> page_invariant Q -> addressable P Q ->
     exists R, Push P Q = Ok R /\ page_invariant R)
  /\ (forall P batch lo hi idx,
        page_invariant P -> RowBlock_wf batch lo hi idx ->
        vsize (data P) + (hi - lo) < 2 ^ 64 ->
        exists R, Push_RowBlock P batch = Ok R /\ page_invariant R)
  /\ (forall self other,
        page_invariant self -> page_invariant other -> addressable self other ->
        (forall r, PushCSC self other = Ok r -> page_invariant r)
        /\ (data other = [] \/ data self = []
            \/ length (offset self) = length (offset other) ->
            exists r, PushCSC self other = Ok r))
  /\ (forall P nCols,
        page_invariant P -> 0 <= nCols <= INT_MAX ->
        vsize (offset P) <= 2 ^ 63 ->
        Forall (fun e => 0 <= index e < nCols) (data P) ->
        exists T,
          GetTranspose omp_get_max_threads omp_get_thread_num P nCols = Ok T
          /\ page_invariant T).
Proof.
  split; [exact Push_invariant|].
  split; [exact Push_RowBlock_invariant|].
  split.
  - intros self other HIs HIo Hfit. split.
    + intros r. apply PushCSC_invariant; assumption.
    + apply PushCSC_succeeds; assumption.
  - intros P nCols HI Hn Hsz Hidx.
    destruct (GetTranspose_pos_triples omp_get_max_threads omp_get_thread_num
                thread_num_lt P nCols HI Hn) as (T & HT & HIT & _).
    + unfold vsize in *. rewrite rows_of_length. destruct HI as (H0 & _).
      apply lookup_lt_Some in H0. lia.
    + exact Hidx.
    + exists T. split; assumption.
Qed.
End Invariant.

Lemma operations_preserve_invariant_witness :
  let P := mkPage [0; 2; 3] [mkEntry 0 10; mkEntry 2 11; mkEntry 2 12] 0 in
  let Q := mkPage [0; 1; 1] [mkEntry 1 13] 0 in
  let batch := dmlc.mkRowBlock 2 [0; 1; 3] (Some [4; 5; 6]) None in
  (exists R, Push P Q = Ok R /\ page_invariant R)
  /\ (exists R, Push_RowBlock P batch = Ok R /\ page_invariant R)
  /\ (exists r, PushCSC P Q = Ok r /\ page_invariant r)
  /\ (exists T, GetTranspose 2 (fun _ i => (i mod 2)%nat) P 3 = Ok T
                /\ page_invariant T).
Proof.
  intros P Q batch.
  assert (Hsched : forall n i : nat, (i < n)%nat -> (i mod 2 < 2)%nat)
    by (intros n i _; apply Nat.mod_upper_bound; lia).
  pose proof (operations_preserve_invariant 2 (fun _ i => (i mod 2)%nat) Hsched)
    as (H1 & H2 & H3 & H4).
  assert (HP : page_invariant P) by (repeat split; simpl; lia).
  assert (HQ : page_invariant Q) by (repeat split; simpl; lia).
  assert (Hfit : addressable P Q) by (split; vm_compute; reflexivity).
  split; [|split; [|split]].
  - apply H1; assumption.
  - apply (H2 P batch 0 3 [4; 5; 6]); [exact HP | | vm_compute; reflexivity].
    repeat split; simpl; try lia; try reflexivity;
      try (vm_compute; discriminate); intros v E; discriminate E.
  - destruct (H3 P Q HP HQ Hfit) as [Hinv Hok].
    destruct Hok as [r Hr]; [right; right; reflexivity|].
    exists r. split; [exact Hr | apply Hinv; exact Hr].
  - apply H4; [exact HP | unfold INT_MAX; lia | vm_compute; discriminate |].
    repeat constructor; simpl; lia.
Defined.

(** ** [SetInfo] with the key "group" *)

Lemma scan32_psums (s : Z) (l : list Z) :
  wrap32 s :: scan32 (wrap32 s) l = map wrap32 (psums s l).
Proof.
  revert s. induction l as [|c l IH]; intros s; simpl; [reflexivity|].
  f_equal. rewrite <- IH.
  replace (wrap32 (wrap32 s + c)) with (wrap32 (s + c))
    by (unfold wrap32; rewrite Zplus_mod_idemp_l; reflexivity).
  reflexivity.
Qed.

Lemma accumulate_groups_loop (rest done : list Z) (a : Z) :
  for_loop (length rest) (S (length done))
    (fun i gp =>
       do a <- vec_get gp (i - 1) ;
       do b <- vec_get gp i ;
       vec_set gp i (wrap32 (a + b)))
    (done ++ a :: rest)
  = Ok (done ++ a :: scan32 a rest).
Proof.
  revert done a. induction rest as [|c rest IH]; intros done a; [reflexivity|].
  cbn [for_loop length scan32].
  rewrite (vec_get_ok _ _ a).
  2:{ replace (S (length done) - 1)%nat with (length done) by lia.
      rewrite lookup_app_r by lia.
      replace (length done - length done)%nat with 0%nat by lia. reflexivity. }
  cbn [bind].
  rewrite (vec_get_ok _ _ c).
  2:{ rewrite lookup_app_r by lia.
      replace (S (length done) - length done)%nat with 1%nat by lia. reflexivity. }
  cbn [bind].
  rewrite vec_set_ok by (rewrite length_app; simpl; lia). cbn [bind].
  replace (<[S (length done) := wrap32 (a + c)]> (done ++ a :: c :: rest))
    with ((done ++ [a]) ++ wrap32 (a + c) :: rest).
  2:{ replace (S (length done)) with (length (done ++ [a]))
        by (rewrite length_app; simpl; lia).
      replace (done ++ a :: c :: rest) with ((done ++ [a]) ++ c :: rest)
        by (rewrite <- app_assoc; reflexivity).
      rewrite insert_middle. reflexivity. }
  specialize (IH (done ++ [a]) (wrap32 (a + c))).
  rewrite length_app in IH. simpl in IH.
  replace (length done + 1)%nat with (S (length done)) in IH by lia.
  rewrite IH, <- app_assoc. reflexivity.
Qed.

Lemma accumulate_groups_spec (sizes : list Z) :
  accumulate_groups (0 :: sizes) = Ok (map wrap32 (psums 0 sizes)).
Proof.
  unfold accumulate_groups. cbn [length].
  replace (S (length sizes) - 1)%nat with (length sizes) by lia.
  pose proof (accumulate_groups_loop sizes [] 0) as L. simpl in L. rewrite L.
  f_equal. apply (scan32_psums 0 sizes).
Qed.

Lemma of_bytes_length w n bytes : length (of_bytes w n bytes) = n.
Proof. revert bytes. induction n; intros; simpl; [reflexivity|]. rewrite IHn. reflexivity. Qed.

Section SetInfoGroup.
Variable float_of_double : Z -> bst_float.
Variable float_of_uint32 : Z -> bst_float.
Variable float_of_uint64 : Z -> bst_float.
Variable uint32_of_float : bst_float -> Z.
Variable uint32_of_double : Z -> Z.

Lemma DISPATCH_group {X} (dtype : DataType) (proc : cast_ptr -> outcome X) :
  known dtype ->
  DISPATCH_CONST_PTR float_of_double float_of_uint32 float_of_uint64
    uint32_of_float uint32_of_double dtype to_group proc
  = proc (mkCast (sizeof dtype) (to_group_t uint32_of_float uint32_of_double dtype)).
Proof. destruct dtype; simpl; intros H; [reflexivity.. | contradiction]. Qed.

(** C9 (amended): with the key "group", a buffer of [num] group sizes of
    any of the four element types becomes the array of their running sums
    modulo [2 ^ 32], of length [num + 1] with a leading 0: the sums are sums
    of the 32-bit unsigned [bst_group_t].  They are the prefix sums
    themselves whenever the last boundary fits 32 bits. *)
Theorem SetInfo_group (dptr : list byte) (dtype : DataType) (num : Z) (m : MetaInfo) :
  known dtype -> 0 <= num < 2 ^ 64 - 1 ->
  (Z.to_nat num * sizeof dtype <= length dptr)%nat ->
  let sizes :=
    map (to_group_t uint32_of_float uint32_of_double dtype)
        (of_bytes (sizeof dtype) (Z.to_nat num) dptr) in
  SetInfo float_of_double float_of_uint32 float_of_uint64
    uint32_of_float uint32_of_double "group" dptr dtype num m
  = (Ok tt, set_group_ptr_ (map wrap32 (psums 0 sizes)) m)
  /\ vsize (map wrap32 (psums 0 sizes)) = num + 1
  /\ map wrap32 (psums 0 sizes) !! 0%nat = Some 0
  /\ (Forall (fun s => 0 <= s) sizes ->
      (forall hi, last (psums 0 sizes) = Some hi -> hi < 2 ^ 32) ->
      map wrap32 (psums 0 sizes) = psums 0 sizes).
Proof.
  intros Hk Hnum Hbuf sizes.
  assert (Hlen : length sizes = Z.to_nat num)
    by (unfold sizes; rewrite length_map, of_bytes_length; reflexivity).
  split; [|split; [|split]].
  - unfold SetInfo. cbn [String.eqb Ascii.eqb Bool.eqb].
    rewrite DISPATCH_group by exact Hk.
    rewrite (wrap64_small (num + 1)) by lia.
    set (dst := resize' (group_ptr_ m) (num + 1) 0).
    assert (Hdst : length dst = S (Z.to_nat num)).
    { unfold dst, resize'. rewrite length_app, length_take, length_replicate. lia. }
    unfold std_copy. cbn [elem_size conv].
    destruct (decide _) as [_|Hn]; [|contradiction].
    destruct (decide _) as [_|Hn]; [|lia].
    cbn [bind]. fold sizes.
    destruct dst as [|d0 dst']; [discriminate|].
    cbn [take app]. rewrite take_0. cbn [app].
    rewrite drop_ge by (simpl in *; lia). rewrite app_nil_r.
    rewrite vec_set_ok by (simpl; lia). cbn [bind].
    change (<[0%nat := 0]> (d0 :: sizes)) with (0 :: sizes).
    rewrite accumulate_groups_spec. reflexivity.
  - unfold vsize. rewrite length_map, psums_length, Hlen. lia.
  - rewrite list_lookup_fmap, psums_head. reflexivity.
  - intros Hpos Hhi.
    pose proof (psums_nondecreasing 0 sizes Hpos) as Hnd.
    destruct (psums 0 sizes) as [|p0 ps] eqn:Ep.
    { pose proof (psums_length 0 sizes) as L. rewrite Ep in L. discriminate. }
    assert (p0 = 0) as ->.
    { pose proof (psums_head 0 sizes) as H0. rewrite Ep in H0. simpl in H0. congruence. }
    destruct (last (0 :: ps)) as [hi|] eqn:El;
      [|apply last_None in El; discriminate].
    pose proof (nondecreasing_le_last 0 ps hi Hnd El) as Hall.
    specialize (Hhi hi eq_refl).
    rewrite <- (map_id (0 :: ps)) at 2. apply map_ext_in. intros v Hv.
    apply list_elem_of_In in Hv. eapply Forall_forall in Hall; [|exact Hv].
    simpl in Hall. apply wrap32_small. lia.
Qed.
End SetInfoGroup.

(** C9 (as stated, refuted): the group sizes [2 ^ 32 - 1], 2 and
    [2 ^ 32 - 1] are stored as the boundaries 0, [2 ^ 32 - 1], 1 and 0, which
    are not their prefix sums. *)
Lemma SetInfo_group_overflow_counterexample :
  let m := mkMetaInfo 0 0 0 [] [] [] [] in
  let sizes := [4294967295; 2; 4294967295] in
  SetInfo id id id id id "group" (to_bytes 4 sizes) kUInt32 3 m
  = (Ok tt, set_group_ptr_ [0; 4294967295; 1; 0] m)
  /\ [0; 4294967295; 1; 0] <> psums 0 sizes.
Proof. split; [vm_compute; reflexivity | vm_compute; discriminate]. Qed.

Lemma SetInfo_group_witness :
  let m := mkMetaInfo 0 0 0 [] [] [] [] in
  SetInfo id id id id id "group" (to_bytes 4 [3; 5; 2]) kUInt32 3 m
  = (Ok tt, set_group_ptr_ [0; 3; 8; 10] m).
Proof.
  intros m.
  pose proof (SetInfo_group id id id id id (to_bytes 4 [3; 5; 2]) kUInt32 3 m) as H.
  destruct H as [H _].
  - exact I.
  - lia.
  - vm_compute. lia.
  - exact H.
Defined.

(** ** The binary format of [MetaInfo] *)

Lemma Stream_Read_full (size : nat) (mem bs tl : list byte) :
  length bs = size -> length mem = size ->
  Stream_Read size mem (bs ++ tl) = (bs, size, tl).
Proof.
  intros Hb Hm. unfold Stream_Read.
  rewrite take_app_length' by congruence.
  rewrite drop_ge by lia. rewrite app_nil_r.
  rewrite drop_app_length' by congruence. rewrite Hb. reflexivity.
Qed.


Lemma to_bytes_length w v : length (to_bytes w v) = (w * length v)%nat.
Proof.
  unfold to_bytes. induction v as [|x v IH]; simpl; [lia|].
  rewrite length_app, length_le_split, IH. lia.
Qed.

Lemma of_bytes_to_bytes (w : nat) (v : list Z) (tl : list byte) :
  Forall (fun x => 0 <= x < 2 ^ (Z.of_nat w * 8)) v ->
  of_bytes w (length v) (to_bytes w v ++ tl) = v.
Proof.
  intros H. induction H as [|x v Hx _ IH]; [reflexivity|].
  cbn [length of_bytes to_bytes flat_map]. rewrite <- app_assoc.
  rewrite take_app_length' by (rewrite length_le_split; reflexivity).
  rewrite drop_app_length' by (rewrite length_le_split; reflexivity).
  rewrite le_combine_split, Z.mod_small by exact Hx.
  f_equal. exact IH.
Qed.

Lemma le_roundtrip (w : nat) (z : Z) :
  0 <= z < 2 ^ (Z.of_nat w * 8) -> le_combine (le_split w z) = z.
Proof. intros H. rewrite le_combine_split. apply Z.mod_small, H. Qed.

Lemma Read_uint64_full get set m z tl :
  uint64 z ->
  Read_uint64 get set (m, le_split 8 z ++ tl) = (Ok true, (set z m, tl)).
Proof.
  intros Hz. unfold Read_uint64.
  rewrite Stream_Read_full by (rewrite length_le_split; reflexivity).
  rewrite le_roundtrip by exact Hz. reflexivity.
Qed.

Lemma Stream_Read_vector_full (old v : list Z) (tl : list byte) :
  vector32 v ->
  Stream_Read_vector 4 old (vector_bytes v ++ tl) = (Ok true, v, tl).
Proof.
  intros [Hv Hsz]. unfold Stream_Read_vector, vector_bytes.
  rewrite <- app_assoc.
  rewrite Stream_Read_full by (rewrite length_le_split; reflexivity).
  cbn [Nat.eqb negb].
  pose proof (vsize_nonneg v) as Hnn.
  rewrite le_roundtrip by (change (2 ^ (Z.of_nat 8 * 8)) with (2 ^ 64); lia).
  rewrite (proj2 (Z.leb_gt _ _)) by lia.
  assert (Hlen : length (resize' old (vsize v) 0) = length v).
  { unfold resize', vsize. rewrite length_app, length_take, length_replicate. lia. }
  destruct (Z.eqb_spec (vsize v) 0) as [H0|H0].
  - destruct v; [|unfold vsize in H0; simpl in H0; lia].
    simpl. unfold resize'. simpl. reflexivity.
  - rewrite wrap64_small by lia.
    replace (Z.to_nat (Z.of_nat 4 * vsize v)) with (4 * length v)%nat
      by (unfold vsize; lia).
    rewrite Stream_Read_full
      by (rewrite to_bytes_length; rewrite ?Hlen; reflexivity).
    rewrite Nat.eqb_refl. rewrite Hlen.
    rewrite <- (app_nil_r (to_bytes 4 v)).
    rewrite of_bytes_to_bytes; [reflexivity|].
    eapply Forall_impl; [exact Hv|]. unfold uint32. simpl. intros x Hx. exact Hx.
Qed.

Lemma Read_vector_full get set m v tl :
  vector32 v ->
  Read_vector get set (m, vector_bytes v ++ tl) = (Ok true, (set v m, tl)).
Proof.
  intros Hv. unfold Read_vector. rewrite Stream_Read_vector_full by exact Hv.
  reflexivity.
Qed.

Lemma Version_Load_full (self : Version.TripletT) (tl : list byte) :
  Version_wf self ->
  Version.Load (version_bytes self ++ tl) = (Ok self, tl).
Proof.
  destruct self as [[major minor] patch]. intros (H1 & H2 & H3).
  unfold Version.Load, version_bytes. rewrite <- !app_assoc.
  rewrite Stream_Read_full by (rewrite length_le_split; reflexivity).
  cbn [Nat.eqb negb].
  rewrite Stream_Read_full by (rewrite length_le_split; reflexivity).
  cbn [Nat.eqb negb].
  rewrite Stream_Read_full by (rewrite length_le_split; reflexivity).
  cbn [Nat.eqb negb].
  rewrite !le_roundtrip by assumption. reflexivity.
Qed.

Lemma SaveBinary_layout self m fo : SaveBinary self m fo = fo ++ layout self m.
Proof.
  unfold SaveBinary, layout, Version.Save, Stream_Write_vector, Stream_Write,
    vector_bytes, version_bytes.
  destruct self as [[major minor] patch].
  rewrite <- !app_assoc. reflexivity.
Qed.

(** A step of [LoadBinary]: a read followed by its [CHECK]. *)
Lemma read_step_ok {B} (rd : method bool) (k : unit -> method B) e s s' :
  rd s = (Ok true, s') ->
  mbind' rd (fun ok => mbind' (lift (CHECK ok e)) k) s = k tt s'.
Proof. intros H. unfold mbind' at 1. rewrite H. reflexivity. Qed.


Lemma last_step_ok (rd : method bool) e s s' :
  rd s = (Ok true, s') ->
  mbind' rd (fun ok => lift (CHECK ok e)) s = (Ok tt, s').
Proof. intros H. unfold mbind' at 1. rewrite H. reflexivity. Qed.


(** C8: what [SaveBinary] writes is the fixed layout, and [LoadBinary]
    reads it back: the three counts and the four arrays come out exactly as
    they were saved, whatever the instance held before. *)
Theorem SaveBinary_LoadBinary (self : Version.TripletT) (m m0 : MetaInfo)
    (fo rest : list byte) :
  MetaInfo_wf m -> Version_wf self -> Version.major self = 1 ->
  SaveBinary self m fo = fo ++ layout self m
  /\ LoadBinary (m0, SaveBinary self m [] ++ rest) = (Ok tt, (m, rest)).
Proof.
  intros (Hr & Hc & Hz & Hl & Hg & Hw & Hb) Hself Hmajor.
  split; [apply SaveBinary_layout|].
  rewrite SaveBinary_layout. cbn [app]. unfold layout. rewrite <- !app_assoc.
  unfold LoadBinary. unfold mbind' at 1.
  rewrite Version_Load_full by exact Hself.
  destruct self as [[major minor] patch]. unfold Version.major in *.
  cbn [fst snd] in *. subst major.
  unfold mbind' at 1. cbn [lift CHECK Z.eqb Pos.eqb].
  rewrite (read_step_ok _ _ _ _ _ (Read_uint64_full _ _ _ _ _ Hr)).
  rewrite (read_step_ok _ _ _ _ _ (Read_uint64_full _ _ _ _ _ Hc)).
  rewrite (read_step_ok _ _ _ _ _ (Read_uint64_full _ _ _ _ _ Hz)).
  rewrite (read_step_ok _ _ _ _ _ (Read_vector_full _ _ _ _ _ Hl)).
  rewrite (read_step_ok _ _ _ _ _ (Read_vector_full _ _ _ _ _ Hg)).
  rewrite (read_step_ok _ _ _ _ _ (Read_vector_full _ _ _ _ _ Hw)).
  rewrite (last_step_ok _ _ _ _ (Read_vector_full _ _ _ _ _ Hb)).
  destruct m. reflexivity.
Qed.

Lemma SaveBinary_LoadBinary_witness :
  let m := mkMetaInfo 2 3 4 [one_f; 0] [0; 2] [] [one_f] in
  LoadBinary (Clear m, SaveBinary (1, 0, 0) m [] ++ []) = (Ok tt, (m, [])).
Proof.
  intros m.
  apply (SaveBinary_LoadBinary (1, 0, 0) m (Clear m) [] []).
  - unfold MetaInfo_wf, vector32, uint64, uint32, one_f, vsize. simpl.
    repeat (first [apply Forall_nil | apply Forall_cons | split]);
      unfold one_f; lia.
  - unfold Version_wf, uint32. lia.
  - reflexivity.
Defined.

(** ** Truncated and foreign streams *)












(** * Further properties of the code *)

(** ** [Push] of a page: rows, neutral element, associativity *)

Lemma psums_shift (c s : Z) (lens : list Z) :
  psums (c + s) lens = map (fun o => c + o) (psums s lens).
Proof.
  revert s. induction lens as [|n t IH]; intros s; simpl; [reflexivity|].
  f_equal. rewrite <- IH. f_equal. lia.
Qed.

Lemma psums_cons start lens : psums start lens = start :: tail (psums start lens).
Proof. destruct lens; reflexivity. Qed.

Lemma psums_bounds {A} (rs : list (list A)) :
  Forall (fun o => 0 <= o <= vsize (concat rs)) (psums 0 (map vsize rs)).
Proof.
  pose proof (psums_nondecreasing 0 (map vsize rs)) as Hnd.
  rewrite psums_cons in Hnd |- *.
  eapply (nondecreasing_le_last 0 _ (vsize (concat rs))).
  - apply Hnd. apply Forall_forall. intros n Hn.
    apply list_elem_of_In, in_map_iff in Hn as (r & <- & _). apply vsize_nonneg.
  - rewrite <- psums_cons. rewrite psums_last. reflexivity.
Qed.

(** Pushing the page of the rows [rsQ] onto the page of the rows [rsP]
    gives the page of the rows [rsP ++ rsQ]. *)
Lemma Push_of_rows (rsP rsQ : list (list Entry)) (baseP baseQ : Z) :
  vsize (concat rsP) + vsize (concat rsQ) < 2 ^ 64 ->
  vsize rsP + vsize rsQ + 2 < 2 ^ 64 ->
  Push (of_rows rsP baseP) (of_rows rsQ baseQ) = Ok (of_rows (rsP ++ rsQ) baseP).
Proof.
  intros Hd Ho.
  rewrite (Push_spec _ _ 0 (tail (psums 0 (map vsize rsQ)))).
  - unfold of_rows. cbn [offset data base_rowid]. f_equal. f_equal.
    + rewrite psums_app. f_equal.
      replace (0 + vsize (concat rsP)) with (vsize (concat rsP) + 0) by lia.
      rewrite psums_shift.
      pose proof (psums_bounds rsQ) as Hb.
      rewrite psums_cons in Hb |- *. cbn [map tail].
      apply Forall_cons in Hb as [_ Hb].
      apply map_ext_in. intros o Ho'. apply list_elem_of_In in Ho'.
      eapply Forall_forall in Hb; [|exact Ho']. simpl in Hb.
      pose proof (vsize_nonneg (concat rsP)).
      apply wrap64_small. lia.
    + rewrite concat_app. reflexivity.
  - unfold of_rows. cbn [offset data]. rewrite psums_last. reflexivity.
  - unfold of_rows. cbn [offset]. apply psums_cons.
  - unfold addressable, of_rows. cbn [offset data]. split; [exact Hd|].
    unfold vsize in *. rewrite !psums_length, !length_map. lia.
Qed.

(** X1: [Push] appends the rows of the batch to the rows of the page: the
    result is the page whose rows are the rows of [P] followed by the rows
    of [Q], under the [base_rowid] of [P]. *)
Theorem Push_appends_rows (P Q : SparsePage) :
  page_invariant P -> page_invariant Q -> addressable P Q ->
  exists R,
    Push P Q = Ok R
    /\ rows_of R = rows_of P ++ rows_of Q
    /\ base_rowid R = base_rowid P
    /\ page_invariant R.
Proof.
  intros HP HQ [Hd Ho].
  exists (of_rows (rows_of P ++ rows_of Q) (base_rowid P)).
  split; [|split; [|split]].
  - rewrite <- (of_rows_rows_of P HP) at 1. rewrite <- (of_rows_rows_of Q HQ) at 1.
    apply Push_of_rows.
    + rewrite <- !page_data_rows by assumption. exact Hd.
    + pose proof (lookup_lt_Some _ _ _ (proj1 HP)).
      pose proof (lookup_lt_Some _ _ _ (proj1 HQ)).
      unfold vsize in *. rewrite !rows_of_length. lia.
  - apply rows_of_of_rows.
  - reflexivity.
  - apply of_rows_invariant.
Qed.

Lemma Push_appends_rows_witness :
  let P := mkPage [0; 2] [mkEntry 0 1; mkEntry 3 2] 4 in
  let Q := mkPage [0; 1; 1] [mkEntry 5 7] 9 in
  exists R,
    Push P Q = Ok R
    /\ rows_of R = rows_of P ++ rows_of Q
    /\ base_rowid R = base_rowid P
    /\ page_invariant R.
Proof.
  intros P Q. apply (Push_appends_rows P Q).
  - repeat split; simpl; lia.
  - repeat split; simpl; lia.
  - split; vm_compute; reflexivity.
Defined.

(** X2: the empty page is neutral for [Push].  Pushing it changes nothing;
    pushing [Q] onto it gives the offsets and the entries of [Q], and the
    [base_rowid] of [Q] is dropped. *)
Theorem Push_empty_page (P : SparsePage) :
  page_invariant P -> addressable P SparsePage_new ->
  Push P SparsePage_new = Ok P
  /\ Push SparsePage_new P = Ok (mkPage (offset P) (data P) 0).
Proof.
  intros HP Hfit. split.
  - destruct HP as (_ & _ & Hlast).
    rewrite (Push_spec P SparsePage_new 0 [] Hlast eq_refl Hfit).
    cbn [map data SparsePage_new]. rewrite !app_nil_r. destruct P; reflexivity.
  - destruct Hfit as [Hd Ho]. cbn [SparsePage_new data offset] in Hd, Ho.
    change SparsePage_new with (of_rows [] 0).
    rewrite <- (of_rows_rows_of P HP) at 1.
    rewrite Push_of_rows.
    + cbn [app]. f_equal.
      pose proof (of_rows_rows_of P HP) as E. unfold of_rows in E |- *.
      destruct P as [o d b]. cbn [offset data base_rowid] in *.
      injection E as -> ->. reflexivity.
    + rewrite <- page_data_rows by exact HP. unfold vsize in *. simpl in *. lia.
    + unfold vsize in *. rewrite rows_of_length. simpl in *. lia.
Qed.

Lemma Push_empty_page_witness :
  let P := mkPage [0; 2] [mkEntry 0 1; mkEntry 3 2] 4 in
  Push P SparsePage_new = Ok P
  /\ Push SparsePage_new P = Ok (mkPage (offset P) (data P) 0).
Proof.
  intros P. apply (Push_empty_page P).
  - repeat split; simpl; lia.
  - split; vm_compute; reflexivity.
Defined.

(** X3: [Push] is associative: pushing [B] and then [C] onto [A] gives the
    page that pushing [C] onto [B] first and the result onto [A] gives. *)
Theorem Push_assoc (A B C : SparsePage) :
  page_invariant A -> page_invariant B -> page_invariant C ->
  vsize (data A) + vsize (data B) + vsize (data C) < 2 ^ 64 ->
  vsize (offset A) + vsize (offset B) + vsize (offset C) < 2 ^ 64 ->
  exists AB BC R,
    Push A B = Ok AB /\ Push B C = Ok BC
    /\ Push AB C = Ok R /\ Push A BC = Ok R.
Proof.
  intros HA HB HC Hd Ho.
  rewrite (page_data_rows A HA), (page_data_rows B HB), (page_data_rows C HC) in Hd.
  assert (Hl : vsize (rows_of A) + vsize (rows_of B) + vsize (rows_of C) + 3 <= 2 ^ 64).
  { clear - HA HB HC Ho. unfold vsize in *. rewrite !rows_of_length.
    destruct HA as (HA & _), HB as (HB & _), HC as (HC & _).
    apply lookup_lt_Some in HA, HB, HC. lia. }
  pose proof (of_rows_rows_of A HA) as EA.
  pose proof (of_rows_rows_of B HB) as EB.
  pose proof (of_rows_rows_of C HC) as EC.
  set (ra := rows_of A) in *. set (rb := rows_of B) in *. set (rc := rows_of C) in *.
  set (ba := base_rowid A) in *. set (bb := base_rowid B) in *.
  set (bc := base_rowid C) in *.
  clearbody ra rb rc ba bb bc. clear HA HB HC Ho. subst A B C.
  pose proof (vsize_nonneg (concat ra)). pose proof (vsize_nonneg (concat rb)).
  pose proof (vsize_nonneg (concat rc)).
  pose proof (vsize_nonneg ra). pose proof (vsize_nonneg rb).
  pose proof (vsize_nonneg rc).
  exists (of_rows (ra ++ rb) ba), (of_rows (rb ++ rc) bb),
         (of_rows (ra ++ rb ++ rc) ba).
  split; [|split; [|split]].
  - apply Push_of_rows; lia.
  - apply Push_of_rows; lia.
  - rewrite Push_of_rows.
    + rewrite <- app_assoc. reflexivity.
    + rewrite vsize_concat_app. lia.
    + rewrite vsize_app. lia.
  - rewrite Push_of_rows.
    + reflexivity.
    + rewrite vsize_concat_app. lia.
    + rewrite vsize_app. lia.
Qed.

Lemma Push_assoc_witness :
  let A := mkPage [0; 2] [mkEntry 0 1; mkEntry 3 2] 4 in
  let B := mkPage [0; 1; 1] [mkEntry 5 7] 9 in
  let C := mkPage [0; 0; 2] [mkEntry 1 3; mkEntry 2 4] 0 in
  exists AB BC R,
    Push A B = Ok AB /\ Push B C = Ok BC
    /\ Push AB C = Ok R /\ Push A BC = Ok R.
Proof.
  intros A B C. apply (Push_assoc A B C).
  - repeat split; simpl; lia.
  - repeat split; simpl; lia.
  - repeat split; simpl; lia.
  - vm_compute. reflexivity.
  - vm_compute. reflexivity.
Defined.

(** ** [Push] of a row block: the checks and the page of the block *)



Lemma RowBlock_wf_bounds (b : dmlc.RowBlock) lo hi idx :
  RowBlock_wf b lo hi idx ->
  exists r, dmlc.offset b = lo :: r
            /\ Forall (fun e => lo <= e <= hi) (lo :: r)
            /\ lo <= hi.
Proof.
  intros (Hlo & Hhi & Hlo0 & Hbnd & Hsz & Hidx & Hlen & Hval).
  destruct (dmlc.offset b) as [|o0 r] eqn:Eo; [discriminate|].
  simpl in Hlo. injection Hlo as ->. exists r. split; [reflexivity|].
  pose proof (nondecreasing_le_last lo r hi Hbnd Hhi) as Hall.
  split; [exact Hall|].
  rewrite last_lookup in Hhi. apply list_elem_of_lookup_2 in Hhi.
  eapply Forall_forall in Hall; [|exact Hhi]. simpl in Hall. lia.
Qed.

(** X5: pushing a row block is pushing the page that holds the rows of the
    block: its row bounds counted from the first one, and the value 1 for
    every entry when the block has no value array. *)
Theorem Push_RowBlock_as_page (self : SparsePage) (batch : dmlc.RowBlock) lo hi idx :
  page_invariant self -> RowBlock_wf batch lo hi idx ->
  vsize (data self) + (hi - lo) < 2 ^ 64 ->
  vsize (offset self) + dmlc.size batch + 1 < 2 ^ 64 ->
  page_invariant (RowBlock_page batch lo hi idx)
  /\ exists R,
       Push_RowBlock self batch = Ok R
       /\ Push self (RowBlock_page batch lo hi idx) = Ok R
       /\ (dmlc.value batch = None ->
           Forall (fun e => fvalue e = one_f)
                  (drop (length (data self)) (data R))).
Proof.
  intros HI Hwf Hfit Hfit'.
  destruct (RowBlock_wf_bounds _ _ _ _ Hwf) as (r & Eo & Hall & Hlohi).
  pose proof Hwf as (Hlo & Hhi & Hlo0 & Hbnd & Hsz & Hidx & Hlen & Hval).
  split.
  - unfold page_invariant, RowBlock_page. cbn [offset data]. rewrite Eo.
    split; [|split].
    + simpl. f_equal. lia.
    + rewrite Eo in Hbnd.
      replace (map (fun e => e - lo) (lo :: r))
        with (map (fun e => (- lo) + e) (lo :: r))
        by (apply map_ext; intros; lia).
      apply nondecreasing_map_shift. exact Hbnd.
    + rewrite Eo in Hhi. unfold vsize. rewrite length_map, length_seq.
      rewrite Z2Nat.id by lia.
      clear - Hhi. destruct r as [|e r' _] using rev_ind.
      * simpl in *. injection Hhi as ->. reflexivity.
      * rewrite app_comm_cons, last_snoc in Hhi. injection Hhi as ->.
        rewrite app_comm_cons, map_app. simpl.
        rewrite app_comm_cons, last_snoc. reflexivity.
  - eexists. split; [eapply Push_RowBlock_spec; eassumption|]. split.
    + destruct HI as (H0 & Hnd & Hlast).
      rewrite (Push_spec self (RowBlock_page batch lo hi idx) (lo - lo)
                 (map (fun e => e - lo) r) Hlast).
      * unfold RowBlock_page. cbn [offset data]. rewrite Eo. cbn [tail].
        f_equal. f_equal. f_equal. rewrite map_map.
        apply Forall_cons in Hall as [_ Hall].
        apply map_ext_in. intros e He. apply list_elem_of_In in He.
        eapply Forall_forall in Hall; [|exact He]. simpl in Hall.
        pose proof (vsize_nonneg (data self)).
        apply wrap64_small. lia.
      * unfold RowBlock_page. cbn [offset]. rewrite Eo. reflexivity.
      * unfold addressable, RowBlock_page. cbn [offset data]. split.
        -- unfold vsize. rewrite length_map, length_seq. unfold vsize in Hfit. lia.
        -- unfold vsize in *. rewrite length_map. lia.
    + intros Hnone. cbn [data]. rewrite drop_app_length.
      apply Forall_forall. intros e He.
      apply list_elem_of_In, in_map_iff in He as (i & <- & _).
      unfold RowBlock_entry. rewrite Hnone. reflexivity.
Qed.

Lemma Push_RowBlock_as_page_witness :
  let P := mkPage [0; 2; 3] [mkEntry 0 10; mkEntry 2 11; mkEntry 2 12] 0 in
  let batch := dmlc.mkRowBlock 2 [1; 2; 3] (Some [4; 5; 6]) None in
  page_invariant (RowBlock_page batch 1 3 [4; 5; 6])
  /\ exists R,
       Push_RowBlock P batch = Ok R
       /\ Push P (RowBlock_page batch 1 3 [4; 5; 6]) = Ok R
       /\ (dmlc.value batch = None ->
           Forall (fun e => fvalue e = one_f)
                  (drop (length (data P)) (data R))).
Proof.
  intros P batch.
  apply (Push_RowBlock_as_page P batch 1 3 [4; 5; 6]).
  - repeat split; simpl; lia.
  - repeat split; simpl; try lia; try reflexivity;
      try (vm_compute; discriminate); intros v E; discriminate E.
  - vm_compute. reflexivity.
  - vm_compute. reflexivity.
Defined.



(** ** [PushCSC] keeps every entry *)

Lemma indexed_split_nil (offs : list Z) (i0 : nat) :
  indexed i0 (split_rows offs []) = [].
Proof.
  revert i0. induction offs as [|b t IH]; intros i0; [reflexivity|].
  destruct t as [|e t']; [reflexivity|].
  change (split_rows (b :: e :: t') [])
    with (take (Z.to_nat (e - b)) (drop (Z.to_nat b) (@nil Entry))
            :: split_rows (e :: t') []).
  rewrite drop_nil, take_nil. cbn [indexed map app]. apply IH.
Qed.

Lemma indexed_zip_app (a b : list (list Entry)) (i0 : nat) :
  length a = length b ->
  indexed i0 (zip_with app a b) ≡ₚ indexed i0 a ++ indexed i0 b.
Proof.
  revert b i0. induction a as [|x a IH]; intros [|y b] i0 Hlen;
    try discriminate; [reflexivity|].
  cbn [zip_with indexed]. rewrite map_app, IH by (simpl in Hlen; lia).
  rewrite <- !app_assoc. apply Permutation_app_head.
  rewrite !app_assoc. apply Permutation_app_tail. apply Permutation_app_comm.
Qed.

Lemma PushCSC_triples (self other r : SparsePage) :
  page_invariant self -> page_invariant other -> addressable self other ->
  PushCSC self other = Ok r ->
  triples_csc r ≡ₚ triples_csc self ++ triples_csc other.
Proof.
  intros Hs Ho Hfit Hr.
  destruct (decide (data other = [])) as [Eo|No].
  - rewrite PushCSC_other_empty in Hr by exact Eo. injection Hr as <-.
    unfold triples_csc at 3. unfold rows_of. rewrite Eo, indexed_split_nil.
    simpl. rewrite app_nil_r. reflexivity.
  - destruct (decide (data self = [])) as [Es|Ns].
    + rewrite PushCSC_self_empty in Hr by assumption. injection Hr as <-.
      unfold triples_csc, rows_of. cbn [offset data].
      rewrite Es, indexed_split_nil. reflexivity.
    + destruct (decide (length (offset self) = length (offset other))) as [El|Nl].
      * rewrite PushCSC_merge in Hr by assumption. injection Hr as <-.
        unfold triples_csc. rewrite rows_of_of_rows, <- map_app.
        apply Permutation_map, indexed_zip_app.
        rewrite !rows_of_length. lia.
      * rewrite PushCSC_mismatch in Hr by assumption. discriminate.
Qed.

(** X7: a successful [PushCSC] loses and invents nothing: the (row, column,
    value) triples of the merged column page are those of the two pages
    together. *)
Theorem PushCSC_keeps_entries (self other r : SparsePage) :
  page_invariant self -> page_invariant other -> addressable self other ->
  PushCSC self other = Ok r ->
  triples_csc r ≡ₚ triples_csc self ++ triples_csc other.
Proof. apply PushCSC_triples. Qed.

Lemma PushCSC_keeps_entries_witness :
  let A := mkPage [0; 1; 1; 2] [mkEntry 0 1; mkEntry 0 2] 0 in
  let B := mkPage [0; 0; 1; 2] [mkEntry 1 3; mkEntry 1 4] 0 in
  let R := mkPage [0; 1; 2; 4]
                  [mkEntry 0 1; mkEntry 1 3; mkEntry 0 2; mkEntry 1 4] 0 in
  triples_csc R ≡ₚ triples_csc A ++ triples_csc B.
Proof.
  intros A B R. apply (PushCSC_keeps_entries A B R).
  - repeat split; simpl; lia.
  - repeat split; simpl; lia.
  - split; vm_compute; reflexivity.
  - vm_compute. reflexivity.
Defined.

(** ** [DMatrix::Create]: one verdict for all workers, and what it changes *)

(** What worker [rank] gets, in terms of [std::max_element] of the
    reports. *)
Lemma Create_distributed_max sources rank src :
  Forall uint64 (reports sources) ->
  sources !! rank = Some src ->
  Create_distributed sources rank
  = match max_element (reports sources) with
    | Some (max_ind, M) =>
        match list_find (disagrees M) (reports sources) with
        | Some (i, v) => Fatal (DifferentNumberOfColumns i max_ind v M)
        | None => Ok (SimpleDMatrix (adopt M src))
        end
    | None => Undefined
    end.
Proof.
  intros Hr Hsrc.
  unfold Create_distributed. rewrite Hsrc. unfold Create.
  cbn [String.length Nat.eqb rabit.IsDistributed rabit.GetWorldSize rabit.GetRank].
  unfold local_ncols.
  rewrite vec_set_ok by (rewrite length_replicate; eapply lookup_lt_Some; eauto).
  cbn [bind].
  rewrite list_insert_id by (apply buffers_lookup; exact Hsrc).
  rewrite Allreduce_buffers by exact Hr.
  destruct (max_element (reports sources)) as [[max_ind M]|]; [|reflexivity].
  cbn [bind].
  pose proof (validation_loop M max_ind (reports sources) []) as L.
  simpl in L. rewrite L.
  destruct (list_find (disagrees M) (reports sources)) as [[k v]|]; reflexivity.
Qed.

(** X8: in a distributed job all workers get the same verdict from
    [Create]: when it fails on one worker it fails on every worker with the
    same message, when it succeeds on one it succeeds on all. *)
Theorem Create_same_verdict sources r1 r2 s1 s2 :
  Forall uint64 (reports sources) ->
  sources !! r1 = Some s1 -> sources !! r2 = Some s2 ->
  match Create_distributed sources r1 with
  | Ok _ => exists d, Create_distributed sources r2 = Ok d
  | Fatal e => Create_distributed sources r2 = Fatal e
  | Undefined => False
  end.
Proof.
  intros Hr H1 H2.
  rewrite (Create_distributed_max sources r1 s1 Hr H1).
  rewrite (Create_distributed_max sources r2 s2 Hr H2).
  destruct (max_element (reports sources)) as [[max_ind M]|] eqn:E.
  - destruct (list_find (disagrees M) (reports sources)) as [[k v]|]; eauto.
  - destruct sources as [|s0 rest]; [discriminate|].
    unfold reports in E. simpl in E.
    destruct (max_element _) as [[? ?]|]; [destruct (_ <? _)|]; discriminate.
Qed.

Lemma Create_same_verdict_witness :
  let w0 := mkSource (mkMetaInfo 5 7 9 [] [] [] []) in
  let w1 := mkSource (mkMetaInfo 5 9 9 [] [] [] []) in
  match Create_distributed [w0; w1; w0] 0 with
  | Ok _ => exists d, Create_distributed [w0; w1; w0] 1 = Ok d
  | Fatal e => Create_distributed [w0; w1; w0] 1 = Fatal e
  | Undefined => False
  end.
Proof.
  intros w0 w1.
  apply (Create_same_verdict [w0; w1; w0] 0%nat 1%nat w0 w1).
  - repeat constructor; vm_compute; congruence.
  - reflexivity.
  - reflexivity.
Defined.

Lemma length_zero_empty (s : string) :
  (String.length s =? 0)%nat = true <-> s = EmptyString.
Proof.
  destruct s; simpl; split; intros H; try reflexivity; discriminate.
Qed.

(** X9: what [Create] may change.  Whatever the engine and whatever the
    other workers pass to the all-reduce, the matrix wraps the source it was
    given, except that an empty worker (no rows, no columns) of a distributed
    job without cache prefix gets a new column count; nothing else of the
    meta information changes.  With a cache prefix the paged matrix is
    built without any comparison of the column counts. *)
Theorem Create_frame (DMLC_ENABLE_STD_THREAD : bool) (engine : rabit.Engine)
    (world : list (list Z)) (source : DataSource) (cache_prefix : string)
    (d : DMatrix) :
  Create DMLC_ENABLE_STD_THREAD engine world source cache_prefix = Ok d ->
  set_num_col_ (num_col_ (info source)) (info (source_of d)) = info source
  /\ (cache_prefix <> EmptyString \/ rabit.IsDistributed engine = false
      \/ num_col_ (info source) <> 0 \/ num_row_ (info source) <> 0 ->
      source_of d = source)
  /\ (cache_prefix <> EmptyString -> d = SparsePageDMatrix source cache_prefix)
  /\ (cache_prefix = EmptyString -> d = SimpleDMatrix (source_of d)).
Proof.
  intros H. unfold Create in H.
  destruct (String.length cache_prefix =? 0)%nat eqn:E.
  - apply length_zero_empty in E. subst cache_prefix.
    destruct (rabit.IsDistributed engine) eqn:Ed.
    + destruct (local_ncols _ _ _) as [ncols| |]; cbn [bind] in H; try discriminate.
      destruct (max_element _) as [[max_ind max_cols]|]; cbn [bind] in H;
        try discriminate.
      destruct (for_loop _ _ _ _) as [[]| |]; cbn [bind] in H; try discriminate.
      injection H as <-. cbn [source_of].
      destruct ((num_col_ (info source) =? 0) && (num_row_ (info source) =? 0))
        eqn:Ec.
      * apply andb_prop in Ec as [Ec Er]. apply Z.eqb_eq in Ec, Er.
        destruct source as [m]. destruct m. cbn in *. subst.
        split; [reflexivity|]. split; [|split; [congruence | reflexivity]].
        intros [Hp|[Hd|[Hc|Hw]]]; congruence.
      * destruct source as [m]. destruct m. cbn in *.
        split; [reflexivity|]. split; [reflexivity|].
        split; [congruence | reflexivity].
    + cbn [bind] in H. injection H as <-. cbn [source_of].
      destruct source as [m]. destruct m. cbn.
      split; [reflexivity|]. split; [reflexivity|].
      split; [congruence | reflexivity].
  - assert (Hne : cache_prefix <> EmptyString).
    { intros ->. discriminate. }
    destruct DMLC_ENABLE_STD_THREAD; [|discriminate].
    injection H as <-. cbn [source_of].
    destruct source as [m]. destruct m. cbn.
    split; [reflexivity|]. split; [reflexivity|].
    split; [reflexivity | contradiction].
Qed.

Lemma Create_frame_witness :
  let source := mkSource (mkMetaInfo 0 0 0 [] [] [] []) in
  let d := SimpleDMatrix (mkSource (mkMetaInfo 0 7 0 [] [] [] [])) in
  set_num_col_ (num_col_ (info source)) (info (source_of d)) = info source
  /\ (EmptyString <> EmptyString \/ true = false
      \/ num_col_ (info source) <> 0 \/ num_row_ (info source) <> 0 ->
      source_of d = source)
  /\ (EmptyString <> EmptyString -> d = SparsePageDMatrix source EmptyString)
  /\ (EmptyString = EmptyString -> d = SimpleDMatrix (source_of d)).
Proof.
  intros source d.
  apply (Create_frame true (rabit.mkEngine true 2 0) [[0; 0]; [0; 7]]
           source EmptyString d).
  vm_compute. reflexivity.
Defined.

(** ** [MetaInfo::SetInfo]: keys, element types and what is left alone *)

Section SetInfoKeys.
Variable float_of_double : Z -> bst_float.
Variable float_of_uint32 : Z -> bst_float.
Variable float_of_uint64 : Z -> bst_float.
Variable uint32_of_float : bst_float -> Z.
Variable uint32_of_double : Z -> Z.

(** X10: a key other than "label", "weight", "base_margin" and "group" is
    a fatal error that names the key, and the meta information is as it
    was. *)
Theorem SetInfo_unknown_key (key : string) (dptr : list byte) (dtype : DataType)
    (num : Z) (m : MetaInfo) :
  key <> "label"%string -> key <> "weight"%string ->
  key <> "base_margin"%string -> key <> "group"%string ->
  SetInfo float_of_double float_of_uint32 float_of_uint64
    uint32_of_float uint32_of_double key dptr dtype num m
  = (Fatal (UnknownMetaInfo key), m).
Proof.
  intros H1 H2 H3 H4. unfold SetInfo.
  rewrite (proj2 (String.eqb_neq _ _) H1), (proj2 (String.eqb_neq _ _) H2),
    (proj2 (String.eqb_neq _ _) H3), (proj2 (String.eqb_neq _ _) H4).
  reflexivity.
Qed.


Lemma DISPATCH_float {X} (dtype : DataType) (proc : cast_ptr -> outcome X) :
  known dtype ->
  DISPATCH_CONST_PTR float_of_double float_of_uint32 float_of_uint64
    uint32_of_float uint32_of_double dtype to_float proc
  = proc (mkCast (sizeof dtype)
            (to_float_t float_of_double float_of_uint32 float_of_uint64 dtype)).
Proof. destruct dtype; simpl; intros H; [reflexivity.. | contradiction]. Qed.

Lemma std_copy_all (c : cast_ptr) (dptr : list byte) (num : Z) (old : list Z) :
  (Z.to_nat num * elem_size c <= length dptr)%nat ->
  std_copy c dptr num (resize' old num 0) 0
  = Ok (map (conv c) (of_bytes (elem_size c) (Z.to_nat num) dptr)).
Proof.
  intros Hbuf. unfold std_copy.
  assert (Hlen : length (resize' old num 0) = Z.to_nat num).
  { unfold resize'. rewrite length_app, length_take, length_replicate. lia. }
  destruct (decide _) as [_|Hn]; [|contradiction].
  destruct (decide _) as [_|Hn]; [|lia].
  rewrite take_0. cbn [app]. rewrite drop_ge by lia. rewrite app_nil_r.
  reflexivity.
Qed.

Lemma SetInfo_float_eq (key : string) (dptr : list byte) (dtype : DataType)
    (num : Z) (m : MetaInfo) :
  float_key key -> known dtype ->
  (Z.to_nat num * sizeof dtype <= length dptr)%nat ->
  SetInfo float_of_double float_of_uint32 float_of_uint64
    uint32_of_float uint32_of_double key dptr dtype num m
  = (Ok tt,
     set_float key
       (map (to_float_t float_of_double float_of_uint32 float_of_uint64 dtype)
            (of_bytes (sizeof dtype) (Z.to_nat num) dptr)) m).
Proof.
  intros Hk Hd Hbuf. unfold SetInfo, set_float.
  destruct Hk as [->|[->| ->]]; cbn [String.eqb Ascii.eqb Bool.eqb];
    rewrite DISPATCH_float by exact Hd;
    rewrite std_copy_all by exact Hbuf; reflexivity.
Qed.

(** X12: with one of the keys "label", "weight" and "base_margin",
    [SetInfo] replaces the array by the [num] elements of the buffer,
    converted to [bst_float]; nothing of the old array is left.  A buffer of
    [float] comes out bit for bit. *)
Theorem SetInfo_float (key : string) (dptr : list byte) (dtype : DataType)
    (num : Z) (m : MetaInfo) :
  float_key key -> known dtype ->
  (Z.to_nat num * sizeof dtype <= length dptr)%nat ->
  SetInfo float_of_double float_of_uint32 float_of_uint64
    uint32_of_float uint32_of_double key dptr dtype num m
  = (Ok tt,
     set_float key
       (map (to_float_t float_of_double float_of_uint32 float_of_uint64 dtype)
            (of_bytes (sizeof dtype) (Z.to_nat num) dptr)) m)
  /\ (forall v : list bst_float,
        Forall uint32 v ->
        SetInfo float_of_double float_of_uint32 float_of_uint64
          uint32_of_float uint32_of_double key (to_bytes 4 v) kFloat32 (vsize v) m
        = (Ok tt, set_float key v m)).
Proof.
  intros Hk Hd Hbuf. split; [apply SetInfo_float_eq; assumption|].
  intros v Hv. rewrite SetInfo_float_eq; [|exact Hk|exact I|].
  - cbn [sizeof to_float_t]. unfold vsize. rewrite Nat2Z.id.
    rewrite <- (app_nil_r (to_bytes 4 v)).
    rewrite of_bytes_to_bytes by exact Hv. rewrite map_id. reflexivity.
  - unfold vsize. rewrite Nat2Z.id, to_bytes_length. cbn [sizeof].
    unfold bst_float. lia.
Qed.

(** X13: [SetInfo] never touches the three counts, and of the four arrays
    it touches only the one that its key names, whether it succeeds or
    fails. *)
Theorem SetInfo_frame (key : string) (dptr : list byte) (dtype : DataType)
    (num : Z) (m : MetaInfo) :
  let m' := snd (SetInfo float_of_double float_of_uint32 float_of_uint64
                   uint32_of_float uint32_of_double key dptr dtype num m) in
  num_row_ m' = num_row_ m /\ num_col_ m' = num_col_ m
  /\ num_nonzero_ m' = num_nonzero_ m
  /\ (key <> "label"%string -> labels_ m' = labels_ m)
  /\ (key <> "group"%string -> group_ptr_ m' = group_ptr_ m)
  /\ (key <> "weight"%string -> weights_ m' = weights_ m)
  /\ (key <> "base_margin"%string -> base_margin_ m' = base_margin_ m).
Proof.
  unfold SetInfo.
  destruct (String.eqb_spec key "label") as [->|N1].
  { destruct (DISPATCH_CONST_PTR _ _ _ _ _ _ _ _); cbn;
      repeat split; intros; try reflexivity; congruence. }
  destruct (String.eqb_spec key "weight") as [->|N2].
  { destruct (DISPATCH_CONST_PTR _ _ _ _ _ _ _ _); cbn;
      repeat split; intros; try reflexivity; congruence. }
  destruct (String.eqb_spec key "base_margin") as [->|N3].
  { destruct (DISPATCH_CONST_PTR _ _ _ _ _ _ _ _); cbn;
      repeat split; intros; try reflexivity; congruence. }
  destruct (String.eqb_spec key "group") as [->|N4].
  { destruct (bind _ _); cbn;
      repeat split; intros; try reflexivity; congruence. }
  cbn. repeat split; intros; reflexivity.
Qed.
End SetInfoKeys.

Lemma SetInfo_unknown_key_witness :
  SetInfo id id id id id "labels"%string [] kFloat32 0 (mkMetaInfo 1 2 3 [] [] [] [])
  = (Fatal (UnknownMetaInfo "labels"%string), mkMetaInfo 1 2 3 [] [] [] []).
Proof.
  apply (SetInfo_unknown_key id id id id id "labels"%string [] kFloat32 0
           (mkMetaInfo 1 2 3 [] [] [] []));
    intros H; discriminate H.
Defined.


Lemma SetInfo_float_witness :
  let m := mkMetaInfo 1 2 3 [5; 6; 7] [] [] [] in
  SetInfo id id id id id "weight"%string (to_bytes 4 [one_f; 0]) kUInt32 2 m
  = (Ok tt, set_float "weight"%string (map (to_float_t id id id kUInt32)
                                    (of_bytes 4 2 (to_bytes 4 [one_f; 0]))) m)
  /\ (forall v : list bst_float,
        Forall uint32 v ->
        SetInfo id id id id id "weight"%string (to_bytes 4 v) kFloat32 (vsize v) m
        = (Ok tt, set_float "weight"%string v m)).
Proof.
  intros m.
  apply (SetInfo_float id id id id id "weight"%string (to_bytes 4 [one_f; 0]) kUInt32 2 m).
  - right. left. reflexivity.
  - exact I.
  - vm_compute. lia.
Defined.

Lemma SetInfo_frame_witness :
  let m := mkMetaInfo 1 2 3 [5; 6; 7] [0; 3] [8] [9] in
  let m' := snd (SetInfo id id id id id "label"%string (to_bytes 4 [one_f]) kFloat32 1 m) in
  num_row_ m' = num_row_ m /\ num_col_ m' = num_col_ m
  /\ num_nonzero_ m' = num_nonzero_ m
  /\ ("label"%string <> "label"%string -> labels_ m' = labels_ m)
  /\ ("label"%string <> "group"%string -> group_ptr_ m' = group_ptr_ m)
  /\ ("label"%string <> "weight"%string -> weights_ m' = weights_ m)
  /\ ("label"%string <> "base_margin"%string -> base_margin_ m' = base_margin_ m).
Proof.
  intros m.
  apply (SetInfo_frame id id id id id "label"%string (to_bytes 4 [one_f]) kFloat32 1 m).
Defined.

(** ** The sidecar files *)

Lemma MetaTryLoadGroup_loop (nlines acc : list Z) (a : Z) :
  for_each nlines
    (fun nline group => do b <- back group ; Ok (group ++ [wrap32 (b + nline)]))
    (acc ++ [a])
  = Ok (acc ++ a :: scan32 a nlines).
Proof.
  revert acc a. induction nlines as [|n t IH]; intros acc a; [reflexivity|].
  cbn [for_each scan32]. unfold back at 1. rewrite last_snoc. cbn [bind].
  rewrite <- app_assoc. cbn [app].
  change (acc ++ [a; wrap32 (a + n)]) with (acc ++ [a] ++ [wrap32 (a + n)]).
  rewrite app_assoc, IH, <- app_assoc. reflexivity.
Qed.

Lemma MetaTryLoadGroup_some (sizes group : list Z) :
  MetaTryLoadGroup (Some sizes) group = Ok (true, map wrap32 (psums 0 sizes)).
Proof.
  unfold MetaTryLoadGroup. cbn [app].
  pose proof (MetaTryLoadGroup_loop sizes [] 0) as L. cbn [app] in L.
  rewrite L. cbn [bind].
  change (0 :: scan32 0 sizes) with (wrap32 0 :: scan32 (wrap32 0) sizes).
  rewrite scan32_psums. reflexivity.
Qed.

Lemma MetaTryLoadFloatInfo_loop (values acc : list bst_float) :
  for_each values (fun value data => Ok (data ++ [value])) acc
  = Ok (acc ++ values).
Proof.
  revert acc. induction values as [|v t IH]; intros acc; cbn [for_each bind].
  - rewrite app_nil_r. reflexivity.
  - rewrite IH, <- app_assoc. reflexivity.
Qed.

Lemma MetaTryLoadFloatInfo_some (values data : list bst_float) :
  MetaTryLoadFloatInfo (Some values) data = Ok (true, values).
Proof.
  unfold MetaTryLoadFloatInfo. rewrite MetaTryLoadFloatInfo_loop. reflexivity.
Qed.

Section Sidecars.
Variable float_of_double : Z -> bst_float.
Variable float_of_uint32 : Z -> bst_float.
Variable float_of_uint64 : Z -> bst_float.
Variable uint32_of_float : bst_float -> Z.
Variable uint32_of_double : Z -> Z.

Lemma SetInfo_group_uint32 (sizes : list Z) (m : MetaInfo) :
  Forall uint32 sizes -> vsize sizes < 2 ^ 64 - 1 ->
  SetInfo float_of_double float_of_uint32 float_of_uint64
    uint32_of_float uint32_of_double "group" (to_bytes 4 sizes) kUInt32
    (vsize sizes) m
  = (Ok tt, set_group_ptr_ (map wrap32 (psums 0 sizes)) m).
Proof.
  intros Hv Hn. pose proof (vsize_nonneg sizes).
  unfold SetInfo. cbn [String.eqb Ascii.eqb Bool.eqb].
  rewrite DISPATCH_group by exact I. cbn [sizeof to_group_t].
  rewrite (wrap64_small (vsize sizes + 1)) by lia.
  set (dst := resize' (group_ptr_ m) (vsize sizes + 1) 0).
  assert (Hdst : length dst = S (length sizes)).
  { unfold dst, resize', vsize.
    rewrite length_app, length_take, length_replicate. lia. }
  unfold std_copy. cbn [elem_size conv]. unfold vsize. rewrite Nat2Z.id.
  destruct (decide _) as [_|Hn']; [|rewrite to_bytes_length in Hn'; lia].
  destruct (decide _) as [_|Hn']; [|lia].
  cbn [bind].
  rewrite <- (app_nil_r (to_bytes 4 sizes)).
  rewrite of_bytes_to_bytes by exact Hv. rewrite map_id.
  destruct dst as [|d0 dst']; [discriminate|].
  cbn [take app]. rewrite take_0. cbn [app].
  rewrite drop_ge by (simpl in *; lia). rewrite app_nil_r.
  rewrite vec_set_ok by (simpl; lia). cbn [bind].
  change (<[0%nat := 0]> (d0 :: sizes)) with (0 :: sizes).
  rewrite accumulate_groups_spec. reflexivity.
Qed.

(** X14: a [.group] sidecar gives the group boundaries that
    [SetInfo("group", ...)] gives for the same sizes, whatever the array
    held before; a file without a number gives the single boundary 0, and a
    file that is not there leaves the array as it is. *)
Theorem MetaTryLoadGroup_as_SetInfo (sizes group : list Z) (m : MetaInfo) :
  Forall uint32 sizes -> vsize sizes < 2 ^ 64 - 1 ->
  (exists gp,
     MetaTryLoadGroup (Some sizes) group = Ok (true, gp)
     /\ SetInfo float_of_double float_of_uint32 float_of_uint64
          uint32_of_float uint32_of_double "group" (to_bytes 4 sizes) kUInt32
          (vsize sizes) m
        = (Ok tt, set_group_ptr_ gp m))
  /\ MetaTryLoadGroup (Some []) group = Ok (true, [0])
  /\ MetaTryLoadGroup None group = Ok (false, group).
Proof.
  intros Hv Hn. split; [|split; reflexivity].
  exists (map wrap32 (psums 0 sizes)). split.
  - apply MetaTryLoadGroup_some.
  - apply SetInfo_group_uint32; assumption.
Qed.
End Sidecars.

Lemma MetaTryLoadGroup_as_SetInfo_witness :
  let m := mkMetaInfo 0 0 0 [] [7; 7] [] [] in
  (exists gp,
     MetaTryLoadGroup (Some [3; 5; 2]) [7; 7] = Ok (true, gp)
     /\ SetInfo id id id id id "group" (to_bytes 4 [3; 5; 2]) kUInt32
          (vsize [3; 5; 2]) m
        = (Ok tt, set_group_ptr_ gp m))
  /\ MetaTryLoadGroup (Some []) [7; 7] = Ok (true, [0])
  /\ MetaTryLoadGroup None [7; 7] = Ok (false, [7; 7]).
Proof.
  intros m.
  apply (MetaTryLoadGroup_as_SetInfo id id id id id [3; 5; 2] [7; 7] m).
  - repeat constructor; vm_compute; congruence.
  - vm_compute. reflexivity.
Defined.

(** X15: what the sidecar files do to the meta information.  A row-split
    load reads none of them.  Otherwise each file that is there replaces its
    own array (the group sizes by their boundaries, in 32-bit arithmetic) and
    each file that is not there leaves its array alone; the counts and the
    labels are never touched. *)
Theorem Load_sidecars_spec (open : string -> option (list Z)) (fname : string)
    (info : MetaInfo) :
  Load_sidecars open fname true info = Ok info
  /\ Load_sidecars open fname false info
     = Ok (mkMetaInfo (num_row_ info) (num_col_ info) (num_nonzero_ info)
             (labels_ info)
             (match open (fname ++ ".group")%string with
              | Some sizes => map wrap32 (psums 0 sizes)
              | None => group_ptr_ info
              end)
             (match open (fname ++ ".weight")%string with
              | Some values => values
              | None => weights_ info
              end)
             (match open (fname ++ ".base_margin")%string with
              | Some values => values
              | None => base_margin_ info
              end)).
Proof.
  split; [reflexivity|].
  unfold Load_sidecars. cbn [negb].
  destruct (open (fname ++ ".group")%string) as [sizes|].
  - rewrite MetaTryLoadGroup_some. cbn [bind snd].
    destruct (open (fname ++ ".base_margin")%string) as [margins|];
      [rewrite MetaTryLoadFloatInfo_some|]; cbn [bind snd MetaTryLoadFloatInfo];
      (destruct (open (fname ++ ".weight")%string) as [weights|];
       [rewrite MetaTryLoadFloatInfo_some|]; cbn [bind snd MetaTryLoadFloatInfo];
       destruct info; reflexivity).
  - cbn [MetaTryLoadGroup bind snd].
    destruct (open (fname ++ ".base_margin")%string) as [margins|];
      [rewrite MetaTryLoadFloatInfo_some|]; cbn [bind snd MetaTryLoadFloatInfo];
      (destruct (open (fname ++ ".weight")%string) as [weights|];
       [rewrite MetaTryLoadFloatInfo_some|]; cbn [bind snd MetaTryLoadFloatInfo];
       destruct info; reflexivity).
Qed.

(** ** [DMatrix::Load]: the file name and the cache file *)

Lemma append_nil_r (s : string) : (s ++ "")%string = s.
Proof. induction s; simpl; [reflexivity | rewrite IHs; reflexivity]. Qed.

Lemma append_assoc (a b c : string) : ((a ++ b) ++ c)%string = (a ++ b ++ c)%string.
Proof. induction a; simpl; [reflexivity | rewrite IHa; reflexivity]. Qed.

Lemma length_append (a b : string) :
  String.length (a ++ b) = (String.length a + String.length b)%nat.
Proof. induction a; simpl; [reflexivity | rewrite IHa; reflexivity]. Qed.

Lemma append_inv_head (a b c : string) : (a ++ b)%string = (a ++ c)%string -> b = c.
Proof. induction a; simpl; intros H; [exact H | injection H as H; auto]. Qed.

Lemma substring_all (s : string) (n : nat) :
  (String.length s <= n)%nat -> substring 0 n s = s.
Proof.
  revert n. induction s as [|a s IH]; intros [|n] H; simpl in *; try reflexivity; try lia.
  rewrite IH by lia. reflexivity.
Qed.

Lemma substring_prefix (a b : string) :
  substring 0 (String.length a) (a ++ b) = a.
Proof.
  induction a as [|c a IH]; simpl.
  - destruct b; reflexivity.
  - rewrite IH. reflexivity.
Qed.

Lemma substring_skip (a b : string) (n : nat) :
  substring (String.length a) n (a ++ b) = substring 0 n b.
Proof. induction a as [|c a IH]; simpl; [reflexivity | exact IH]. Qed.

Lemma find_app (c : ascii) (a b : string) :
  std.find c (a ++ b)
  = match std.find c a with
    | Some i => Some i
    | None => option_map (Nat.add (String.length a)) (std.find c b)
    end.
Proof.
  induction a as [|x a IH]; simpl.
  - destruct (std.find c b); reflexivity.
  - destruct (Ascii.eqb x c); [reflexivity|]. rewrite IH.
    destruct (std.find c a); [reflexivity|].
    destruct (std.find c b); reflexivity.
Qed.

Lemma find_here (c : ascii) (a b : string) :
  std.find c a = None -> std.find c (a ++ String c b) = Some (String.length a).
Proof.
  intros H. rewrite find_app, H. simpl. rewrite Ascii.eqb_refl. simpl.
  f_equal. lia.
Qed.

Lemma rfind_none (c : ascii) (s : string) :
  std.rfind c s = None <-> std.find c s = None.
Proof.
  induction s as [|x s IH]; simpl; [tauto|].
  destruct (std.rfind c s) as [i|]; destruct (Ascii.eqb x c); destruct (std.find c s);
    simpl; split; intros H; try discriminate; try reflexivity;
    try (destruct IH as [I1 I2]; try (discriminate (I1 eq_refl)); try (discriminate (I2 eq_refl))).
Qed.

Lemma rfind_last (c : ascii) (a b : string) :
  std.find c b = None -> std.rfind c (a ++ String c b) = Some (String.length a).
Proof.
  intros H. induction a as [|x a IH]; simpl.
  - rewrite (proj2 (rfind_none c b) H), Ascii.eqb_refl. reflexivity.
  - rewrite IH. reflexivity.
Qed.

Lemma Split_nil (s : string) (d : ascii) : Split s d = [] <-> s = EmptyString.
Proof.
  destruct s as [|a s]; simpl; [tauto|].
  destruct (Ascii.eqb a d); [split; discriminate|].
  destruct (Split s d); split; discriminate.
Qed.

Lemma Split_plain (s : string) (d : ascii) :
  std.find d s = None -> s <> EmptyString -> Split s d = [s].
Proof.
  induction s as [|a s IH]; intros H Hne; [contradiction|].
  simpl in *. destruct (Ascii.eqb a d); [discriminate|].
  destruct s as [|b s']; [reflexivity|].
  rewrite IH; [reflexivity| |discriminate].
  destruct (std.find d (String b s')); [discriminate | reflexivity].
Qed.

Lemma Split_cons (s rest : string) (d : ascii) :
  std.find d s = None ->
  Split (s ++ String d rest) d = s :: Split rest d.
Proof.
  induction s as [|a s IH]; intros H; simpl in *.
  - rewrite Ascii.eqb_refl. reflexivity.
  - destruct (Ascii.eqb a d); [discriminate|].
    rewrite IH; [reflexivity|].
    destruct (std.find d s); [discriminate | reflexivity].
Qed.

Lemma Split_join (l : list string) (d : ascii) :
  Forall (fun s => std.find d s = None /\ s <> EmptyString) l ->
  Split (join (String d EmptyString) l) d = l.
Proof.
  induction l as [|s l IH]; intros H; [reflexivity|].
  apply Forall_cons in H as [[Hs Hne] Hl].
  destruct l as [|s' l'].
  - simpl. apply Split_plain; assumption.
  - change (join (String d "") (s :: s' :: l'))
      with (s ++ String d "" ++ join (String d "") (s' :: l'))%string.
    cbn [append]. rewrite Split_cons by exact Hs. rewrite IH by exact Hl.
    reflexivity.
Qed.

Lemma substring_after (a b : string) (c : ascii) (n : nat) :
  substring (String.length a + 1) n (a ++ String c b) = substring 0 n b.
Proof. induction a as [|x a IH]; simpl; [reflexivity | exact IH]. Qed.

Lemma rfind_lt (c : ascii) (s : string) (pos : nat) :
  std.rfind c s = Some pos -> (pos < String.length s)%nat.
Proof.
  revert pos. induction s as [|x s IH]; intros pos H; simpl in *; [discriminate|].
  destruct (std.rfind c s) as [i|].
  - injection H as <-. specialize (IH i eq_refl). lia.
  - destruct (Ascii.eqb x c); [injection H as <-; lia | discriminate].
Qed.

Lemma substr_ok (s : string) (pos len : nat) :
  (pos <= String.length s)%nat -> std.substr s pos len = Ok (substring pos len s).
Proof.
  intros H. unfold std.substr. rewrite (proj2 (Nat.leb_le _ _) H). reflexivity.
Qed.

Lemma join_cons (sep s : string) (l : list string) :
  join sep (s :: l)
  = (s ++ match l with [] => EmptyString | _ :: _ => sep ++ join sep l end)%string.
Proof. destruct l; simpl; [rewrite append_nil_r|]; reflexivity. Qed.

(** The loop of [Load] over the cache shards. *)
Lemma Load_shards_loop (engine : rabit.Engine) (rest done : list string) (os : string) :
  for_loop (length rest) (length done)
    (fun i os =>
       do shard <- vec_get (done ++ rest) i ;
       do os <-
         match std.rfind "." shard with
         | None =>
             Ok (os ++ shard
                   ++ ".r" ++ print_int (rabit.GetRank engine)
                   ++ "-" ++ print_int (rabit.GetWorldSize engine))%string
         | Some pos =>
             do pre <- std.substr shard 0 pos ;
             do post <- std.substr shard pos (String.length shard) ;
             Ok (os ++ pre
                   ++ ".r" ++ print_int (rabit.GetRank engine)
                   ++ "-" ++ print_int (rabit.GetWorldSize engine)
                   ++ post)%string
         end ;
       Ok (if (i + 1 =? length (done ++ rest))%nat then os
           else (os ++ ":")%string))
    os
  = Ok (os ++ join ":" (map (rank_shard engine) rest))%string.
Proof.
  revert done os. induction rest as [|s t IH]; intros done os.
  - simpl. rewrite append_nil_r. reflexivity.
  - cbn [for_loop length].
    rewrite (vec_get_ok _ _ s).
    2:{ rewrite lookup_app_r by lia.
        replace (length done - length done)%nat with 0%nat by lia. reflexivity. }
    cbn [bind].
    assert (Hstep :
      match std.rfind "." s with
      | None =>
          Ok (os ++ s
                ++ ".r" ++ print_int (rabit.GetRank engine)
                ++ "-" ++ print_int (rabit.GetWorldSize engine))%string
      | Some pos =>
          do pre <- std.substr s 0 pos ;
          do post <- std.substr s pos (String.length s) ;
          Ok (os ++ pre
                ++ ".r" ++ print_int (rabit.GetRank engine)
                ++ "-" ++ print_int (rabit.GetWorldSize engine)
                ++ post)%string
      end = Ok (os ++ rank_shard engine s)%string).
    { unfold rank_shard, rank_suffix.
      destruct (std.rfind "." s) as [pos|] eqn:E.
      - pose proof (rfind_lt _ _ _ E) as Hlt.
        rewrite !substr_ok by lia.
        cbn [bind]. rewrite ?append_assoc. reflexivity.
      - rewrite ?append_assoc. reflexivity. }
    rewrite Hstep. cbn [bind].
    specialize (IH (done ++ [s])).
    rewrite length_app in IH. cbn [length] in IH.
    replace (length done + 1)%nat with (S (length done)) in IH by lia.
    rewrite <- app_assoc in IH. cbn [app] in IH.
    rewrite IH. cbn [map]. rewrite join_cons. f_equal.
    rewrite length_app. cbn [length].
    destruct t as [|s' t'].
    + rewrite (proj2 (Nat.eqb_eq _ _)) by (cbn [length]; lia).
      cbn [map join]. rewrite !append_nil_r. reflexivity.
    + rewrite (proj2 (Nat.eqb_neq _ _)) by (cbn [length]; lia).
      cbn [map]. rewrite !append_assoc. reflexivity.
Qed.

Lemma Load_uri_none (engine : rabit.Engine) (uri : string) (load_row_split : bool) :
  std.find "#" uri = None ->
  Load_uri engine uri load_row_split = Ok (uri, EmptyString).
Proof. intros H. unfold Load_uri. rewrite H. reflexivity. Qed.

(** [Load_uri] on a URI with a ["#"], up to the [CHECK_EQ]. *)
Lemma Load_uri_hash (engine : rabit.Engine) (a b : string) (load_row_split : bool) :
  std.find "#" a = None ->
  Load_uri engine (a ++ "#" ++ b) load_row_split
  = match std.find "#" b with
    | Some _ => Fatal (CheckFailed "cache_file.find('#') == std::string::npos")
    | None =>
        if load_row_split
        then Ok (a, join ":" (map (rank_shard engine) (Split b ":")))
        else Ok (a, b)
    end.
Proof.
  intros Ha. unfold Load_uri. cbn [append].
  rewrite (find_here _ a b Ha).
  rewrite !substr_ok by (rewrite length_append; cbn [String.length]; lia).
  cbn [bind].
  rewrite substring_after, substring_prefix.
  rewrite substring_all by (rewrite length_append; cbn [String.length]; lia).
  destruct (std.find "#" b); [reflexivity|]. cbn [CHECK bind].
  destruct load_row_split; [|reflexivity].
  pose proof (Load_shards_loop engine (Split b ":") [] EmptyString) as L.
  cbn [app length append] in L. rewrite L. reflexivity.
Qed.

Lemma renamed_rank_shard (engine : rabit.Engine) (s s' : string) :
  renamed engine s s' -> rank_shard engine s = s'.
Proof.
  intros [shard H | pre ext H]; unfold rank_shard.
  - rewrite (proj2 (rfind_none _ _) H). reflexivity.
  - cbn [append]. rewrite (rfind_last _ pre ext H).
    rewrite substring_prefix, substring_skip.
    rewrite substring_all
      by (rewrite length_append; cbn [String.length]; lia).
    reflexivity.
Qed.


(** X16: a URI without ["#"] is a file name without cache file; a URI with
    one ["#"] is cut there into the file name and the cache file, which a
    load that is not row-split takes as it is. *)
Theorem Load_uri_splits (engine : rabit.Engine) (a b : string)
    (load_row_split : bool) :
  std.find "#" a = None -> std.find "#" b = None ->
  Load_uri engine a load_row_split = Ok (a, EmptyString)
  /\ Load_uri engine (a ++ "#" ++ b) false = Ok (a, b).
Proof.
  intros Ha Hb. split.
  - apply Load_uri_none. exact Ha.
  - rewrite Load_uri_hash by exact Ha. rewrite Hb. reflexivity.
Qed.

Lemma Load_uri_splits_witness :
  Load_uri (rabit.mkEngine false 1 0) "data.csv" true = Ok ("data.csv"%string, EmptyString)
  /\ Load_uri (rabit.mkEngine false 1 0) ("data.csv" ++ "#" ++ "cache/shard") false
     = Ok ("data.csv"%string, "cache/shard"%string).
Proof.
  apply (Load_uri_splits (rabit.mkEngine false 1 0) "data.csv" "cache/shard" true);
    reflexivity.
Defined.

(** X17: a second ["#"] in the URI is a fatal error, row-split or not. *)
Theorem Load_uri_second_hash (engine : rabit.Engine) (a b : string)
    (load_row_split : bool) :
  std.find "#" a = None -> std.find "#" b <> None ->
  Load_uri engine (a ++ "#" ++ b) load_row_split
  = Fatal (CheckFailed "cache_file.find('#') == std::string::npos").
Proof.
  intros Ha Hb. rewrite Load_uri_hash by exact Ha.
  destruct (std.find "#" b); [reflexivity | contradiction].
Qed.

Lemma Load_uri_second_hash_witness :
  Load_uri (rabit.mkEngine false 1 0) ("data.csv" ++ "#" ++ "a#b") false
  = Fatal (CheckFailed "cache_file.find('#') == std::string::npos").
Proof.
  apply (Load_uri_second_hash (rabit.mkEngine false 1 0) "data.csv" "a#b" false).
  - reflexivity.
  - discriminate.
Defined.

Lemma renamed_map (engine : rabit.Engine) (l l' : list string) :
  Forall2 (renamed engine) l l' -> map (rank_shard engine) l = l'.
Proof.
  induction 1 as [|s s' l l' Hs _ IH]; [reflexivity|].
  cbn [map]. rewrite (renamed_rank_shard _ _ _ Hs), IH. reflexivity.
Qed.

(** X18: in a row-split load every shard of the cache file gets the suffix
    [.r<rank>-<world size>], before its last ["."] if it has one and at its
    end otherwise; the shards stay in their order, separated by [":"]. *)
Theorem Load_uri_shards (engine : rabit.Engine) (a : string) (l l' : list string) :
  std.find "#" a = None -> std.find "#" (join ":" l) = None ->
  Forall (fun s => std.find ":" s = None /\ s <> EmptyString) l ->
  Forall2 (renamed engine) l l' ->
  Load_uri engine (a ++ "#" ++ join ":" l) true = Ok (a, join ":" l').
Proof.
  intros Ha Hb Hl Hren. rewrite Load_uri_hash by exact Ha. rewrite Hb.
  rewrite Split_join by exact Hl.
  rewrite (renamed_map _ _ _ Hren). reflexivity.
Qed.

Lemma Load_uri_shards_witness :
  Load_uri (rabit.mkEngine true 4 2)
           ("data.csv" ++ "#" ++ join ":" ["cache/shard"; "tmp.d/x.bin"]%string) true
  = Ok ("data.csv"%string,
        join ":" ["cache/shard" ++ rank_suffix (rabit.mkEngine true 4 2);
                  "tmp.d/x" ++ rank_suffix (rabit.mkEngine true 4 2)
                    ++ "." ++ "bin"]%string).
Proof.
  apply (Load_uri_shards (rabit.mkEngine true 4 2) "data.csv"
           ["cache/shard"; "tmp.d/x.bin"]%string).
  - reflexivity.
  - reflexivity.
  - repeat constructor; discriminate.
  - constructor; [|constructor; [|constructor]].
    + apply renamed_plain. reflexivity.
    + apply (renamed_ext _ "tmp.d/x" "bin"). reflexivity.
Defined.

Lemma string_of_uint_no_dash (d : Decimal.uint) :
  std.find "-" (NilEmpty.string_of_uint d) = None.
Proof. induction d; simpl; try rewrite IHd; reflexivity. Qed.

Lemma print_int_no_dash (n : nat) : std.find "-" (print_int n) = None.
Proof.
  unfold print_int, NilZero.string_of_uint.
  destruct (Nat.to_uint n); try apply string_of_uint_no_dash. reflexivity.
Qed.

Lemma to_uint_nonnil (n : nat) : Nat.to_uint n <> Decimal.Nil.
Proof.
  rewrite <- (Unsigned.of_to n) at 1. rewrite Unsigned.to_of.
  apply unorm_nonnil.
Qed.

Lemma print_int_inj (n m : nat) : print_int n = print_int m -> n = m.
Proof.
  intros H. unfold print_int in H.
  apply (f_equal NilZero.uint_of_string) in H.
  rewrite !NilZero.usu in H by apply to_uint_nonnil.
  injection H as H. apply Unsigned.to_uint_inj. exact H.
Qed.

Lemma append_sep_inj (c : ascii) (a b x y : string) :
  std.find c a = None -> std.find c b = None ->
  (a ++ String c x)%string = (b ++ String c y)%string -> a = b.
Proof.
  revert b. induction a as [|p a IH]; intros [|q b] Ha Hb H; simpl in *.
  - reflexivity.
  - injection H as <- _. rewrite Ascii.eqb_refl in Hb. discriminate.
  - injection H as -> _. rewrite Ascii.eqb_refl in Ha. discriminate.
  - injection H as <- H.
    destruct (Ascii.eqb p c); [discriminate|].
    f_equal. apply IH; [| |exact H].
    + destruct (std.find c a); [discriminate | reflexivity].
    + destruct (std.find c b); [discriminate | reflexivity].
Qed.

Lemma string_of_uint_no_dot (d : Decimal.uint) :
  std.find "." (NilEmpty.string_of_uint d) = None.
Proof. induction d; simpl; try rewrite IHd; reflexivity. Qed.

Lemma string_of_uint_no_colon (d : Decimal.uint) :
  std.find ":" (NilEmpty.string_of_uint d) = None.
Proof. induction d; simpl; try rewrite IHd; reflexivity. Qed.

Lemma print_int_no_dot (n : nat) : std.find "." (print_int n) = None.
Proof.
  unfold print_int, NilZero.string_of_uint.
  destruct (Nat.to_uint n); try apply string_of_uint_no_dot. reflexivity.
Qed.

Lemma print_int_no_colon (n : nat) : std.find ":" (print_int n) = None.
Proof.
  unfold print_int, NilZero.string_of_uint.
  destruct (Nat.to_uint n); try apply string_of_uint_no_colon. reflexivity.
Qed.

Lemma find_app_none (c : ascii) (a b : string) :
  std.find c (a ++ b) = None <-> std.find c a = None /\ std.find c b = None.
Proof.
  rewrite find_app. destruct (std.find c a), (std.find c b); simpl;
    split; try intros [? ?]; try intros ?; try discriminate; auto.
Qed.

(** The part of the suffix after its ["."]. *)
Lemma rank_suffix_tail (engine : rabit.Engine) :
  exists t, rank_suffix engine = String "." t
            /\ std.find "." t = None /\ std.find ":" t = None
            /\ t = ("r" ++ print_int (rabit.GetRank engine)
                    ++ "-" ++ print_int (rabit.GetWorldSize engine))%string.
Proof.
  eexists. split; [reflexivity|]. split; [|split; [|reflexivity]].
  - cbn [append]. cbn [std.find Ascii.eqb Bool.eqb]. cbn.
    rewrite find_app, print_int_no_dot. cbn. rewrite print_int_no_dot. reflexivity.
  - cbn. rewrite find_app, print_int_no_colon. cbn. rewrite print_int_no_colon.
    reflexivity.
Qed.

Lemma find_sep_app (c : ascii) (a x : string) :
  std.find c (a ++ String c x) <> None.
Proof.
  rewrite find_app. destruct (std.find c a); [discriminate|].
  simpl. rewrite Ascii.eqb_refl. discriminate.
Qed.

(** Cutting a string at its last [c] is unambiguous. *)
Lemma append_sep_inj_r (c : ascii) (a b x y : string) :
  std.find c x = None -> std.find c y = None ->
  (a ++ String c x)%string = (b ++ String c y)%string -> a = b /\ x = y.
Proof.
  intros Hx Hy. revert b. induction a as [|p a IH]; intros [|q b] H; simpl in *.
  - injection H as H. auto.
  - injection H as _ H. subst x. exfalso. exact (find_sep_app _ _ _ Hx).
  - injection H as _ H. subst y. exfalso. exact (find_sep_app _ _ _ Hy).
  - injection H as <- H. destruct (IH b H) as [-> ->]. auto.
Qed.

Lemma rank_suffix_inj (e1 e2 : rabit.Engine) (t1 t2 : string) :
  t1 = ("r" ++ print_int (rabit.GetRank e1)
        ++ "-" ++ print_int (rabit.GetWorldSize e1))%string ->
  t2 = ("r" ++ print_int (rabit.GetRank e2)
        ++ "-" ++ print_int (rabit.GetWorldSize e2))%string ->
  t1 = t2 -> rabit.GetRank e1 = rabit.GetRank e2.
Proof.
  intros -> -> H. cbn [append] in H. injection H as H.
  apply append_sep_inj in H; try apply print_int_no_dash.
  apply print_int_inj, H.
Qed.

(** Two workers never give the same name, whatever the two shards. *)
Lemma renamed_apart (e1 e2 : rabit.Engine) (s t x y : string) :
  renamed e1 s x -> renamed e2 t y ->
  rabit.GetRank e1 <> rabit.GetRank e2 -> x <> y.
Proof.
  intros H1 H2 Hr E.
  destruct (rank_suffix_tail e1) as (t1 & E1 & D1 & _ & T1).
  destruct (rank_suffix_tail e2) as (t2 & E2 & D2 & _ & T2).
  destruct H1 as [s Hs | pre1 ext1 Hx1]; destruct H2 as [t Ht | pre2 ext2 Hx2];
    rewrite E1, E2 in E.
  - apply append_sep_inj_r in E as [_ E]; [|assumption..].
    apply Hr, (rank_suffix_inj e1 e2 t1 t2 T1 T2 E).
  - change (pre2 ++ String "." t2 ++ "." ++ ext2)%string
      with (pre2 ++ (String "." t2 ++ String "." ext2))%string in E.
    rewrite <- append_assoc in E.
    apply append_sep_inj_r in E as [E _]; [|assumption..].
    subst s. exact (find_sep_app _ _ _ Hs).
  - change (pre1 ++ String "." t1 ++ "." ++ ext1)%string
      with (pre1 ++ (String "." t1 ++ String "." ext1))%string in E.
    rewrite <- append_assoc in E.
    apply append_sep_inj_r in E as [E _]; [|assumption..].
    subst t. exact (find_sep_app _ _ _ Ht).
  - change (pre1 ++ String "." t1 ++ "." ++ ext1)%string
      with (pre1 ++ (String "." t1 ++ String "." ext1))%string in E.
    change (pre2 ++ String "." t2 ++ "." ++ ext2)%string
      with (pre2 ++ (String "." t2 ++ String "." ext2))%string in E.
    rewrite <- !append_assoc in E.
    apply append_sep_inj_r in E as [E _]; [|assumption..].
    apply append_sep_inj_r in E as [_ E]; [|assumption..].
    apply Hr, (rank_suffix_inj e1 e2 t1 t2 T1 T2 E).
Qed.

Lemma rfind_split (c : ascii) (s : string) (pos : nat) :
  std.rfind c s = Some pos ->
  exists pre ext, s = (pre ++ String c ext)%string /\ std.find c ext = None.
Proof.
  revert pos. induction s as [|a s IH]; intros pos H; simpl in H; [discriminate|].
  destruct (std.rfind c s) as [i|] eqn:E.
  - destruct (IH i eq_refl) as (pre & ext & -> & Hext).
    exists (String a pre), ext. split; [reflexivity | exact Hext].
  - destruct (Ascii.eqb_spec a c) as [->|]; [|discriminate].
    exists EmptyString, s. split; [reflexivity|]. apply rfind_none, E.
Qed.

(** Every shard is renamed, in one of the two ways. *)
Lemma rank_shard_renamed (engine : rabit.Engine) (s : string) :
  renamed engine s (rank_shard engine s).
Proof.
  destruct (std.rfind "." s) as [pos|] eqn:E.
  - destruct (rfind_split _ _ _ E) as (pre & ext & -> & Hext).
    pose proof (renamed_ext engine pre ext Hext) as R.
    pose proof (renamed_rank_shard _ _ _ R) as Eq.
    cbn [append] in Eq, R. rewrite Eq. exact R.
  - pose proof (renamed_plain engine s (proj1 (rfind_none _ _) E)) as R.
    rewrite (renamed_rank_shard _ _ _ R). exact R.
Qed.

Lemma renamed_Forall2 (engine : rabit.Engine) (l : list string) :
  Forall2 (renamed engine) l (map (rank_shard engine) l).
Proof.
  induction l as [|s l IH]; constructor; [apply rank_shard_renamed | exact IH].
Qed.

Lemma find_cons_ne (c a : ascii) (s : string) :
  Ascii.eqb a c = false -> std.find c s = None -> std.find c (String a s) = None.
Proof. intros E H. simpl. rewrite E, H. reflexivity. Qed.

Lemma renamed_file (engine : rabit.Engine) (s x : string) :
  renamed engine s x -> std.find ":" s = None ->
  std.find ":" x = None /\ x <> EmptyString.
Proof.
  intros H Hs.
  destruct (rank_suffix_tail engine) as (t & E & _ & C & _).
  destruct H as [s Hd | pre ext Hd]; rewrite E.
  - split.
    + apply find_app_none. split; [exact Hs|].
      apply find_cons_ne; [reflexivity | exact C].
    + destruct s; discriminate.
  - apply find_app_none in Hs as [Hp He].
    assert (He' : std.find ":" ext = None).
    { cbn [append] in He. simpl in He.
      destruct (std.find ":" ext); [discriminate | reflexivity]. }
    split.
    + apply find_app_none. split; [exact Hp|].
      change (String "." t ++ "." ++ ext)%string
        with (String "." (t ++ String "." ext)).
      apply find_cons_ne; [reflexivity|].
      apply find_app_none. split; [exact C|].
      apply find_cons_ne; [reflexivity | exact He'].
    + destruct pre; discriminate.
Qed.

Lemma Split_no_sep (s : string) (d : ascii) :
  Forall (fun item => std.find d item = None) (Split s d).
Proof.
  induction s as [|a s IH]; simpl; [constructor|].
  destruct (Ascii.eqb a d) eqn:E.
  - constructor; [reflexivity | exact IH].
  - destruct (Split s d) as [|item rest].
    + constructor; [|constructor]. simpl. rewrite E. reflexivity.
    + apply Forall_cons in IH as [Hi Hr]. constructor; [|exact Hr].
      simpl. rewrite E, Hi. reflexivity.
Qed.

(** The shard files that [Load] names, told apart again. *)
Lemma Split_renamed (engine : rabit.Engine) (b : string) :
  Split (join ":" (map (rank_shard engine) (Split b ":"))) ":"
  = map (rank_shard engine) (Split b ":").
Proof.
  apply Split_join. apply Forall_map.
  eapply Forall_impl; [apply Split_no_sep|]. intros s Hs. simpl in Hs.
  exact (renamed_file engine s _ (rank_shard_renamed engine s) Hs).
Qed.

(** X19: the workers of a row-split load never share a cache file.  The
    cache file that a worker gets is, shard by shard, the cache file of the
    URI with every shard renamed for this worker; no shard of one worker has
    the name of any shard of a worker with another rank, and the cache files
    as a whole differ as soon as there is a shard. *)
Theorem Load_uri_ranks_apart (e1 e2 : rabit.Engine) (a b f1 f2 c1 c2 : string) :
  std.find "#" a = None ->
  rabit.GetRank e1 <> rabit.GetRank e2 ->
  Load_uri e1 (a ++ "#" ++ b) true = Ok (f1, c1) ->
  Load_uri e2 (a ++ "#" ++ b) true = Ok (f2, c2) ->
  Forall2 (renamed e1) (Split b ":") (Split c1 ":")
  /\ Forall2 (renamed e2) (Split b ":") (Split c2 ":")
  /\ (forall x y, x ∈ Split c1 ":" -> y ∈ Split c2 ":" -> x <> y)
  /\ (b <> EmptyString -> c1 <> c2).
Proof.
  intros Ha Hr H1 H2.
  rewrite Load_uri_hash in H1, H2 by exact Ha.
  destruct (std.find "#" b); [discriminate|].
  injection H1 as _ <-. injection H2 as _ <-.
  rewrite !Split_renamed.
  split; [apply renamed_Forall2|]. split; [apply renamed_Forall2|].
  assert (Hfiles : forall x y,
            x ∈ map (rank_shard e1) (Split b ":") ->
            y ∈ map (rank_shard e2) (Split b ":") -> x <> y).
  { intros x y Hx Hy.
    apply list_elem_of_In, in_map_iff in Hx as (s & <- & _).
    apply list_elem_of_In, in_map_iff in Hy as (t & <- & _).
    exact (renamed_apart e1 e2 s t _ _ (rank_shard_renamed e1 s)
             (rank_shard_renamed e2 t) Hr). }
  split; [exact Hfiles|].
  intros Hb Hc.
  destruct (Split b ":") as [|s rest] eqn:Es.
  { apply Split_nil in Es. contradiction. }
  apply (f_equal (fun c => Split c ":")) in Hc.
  rewrite <- Es, !Split_renamed, Es in Hc. cbn [map] in Hc.
  injection Hc as Hc _.
  apply (Hfiles (rank_shard e1 s) (rank_shard e2 s)); [| |exact Hc];
    apply list_elem_of_In; left; reflexivity.
Qed.

Lemma Load_uri_ranks_apart_witness :
  let b := "cache/shard:tmp.d/x.bin"%string in
  let c1 := "cache/shard.r2-4:tmp.d/x.r2-4.bin"%string in
  let c2 := "cache/shard.r3-4:tmp.d/x.r3-4.bin"%string in
  Forall2 (renamed (rabit.mkEngine true 4 2)) (Split b ":") (Split c1 ":")
  /\ Forall2 (renamed (rabit.mkEngine true 4 3)) (Split b ":") (Split c2 ":")
  /\ (forall x y, x ∈ Split c1 ":" -> y ∈ Split c2 ":" -> x <> y)
  /\ (b <> EmptyString -> c1 <> c2).
Proof.
  intros b c1 c2.
  apply (Load_uri_ranks_apart (rabit.mkEngine true 4 2) (rabit.mkEngine true 4 3)
           "data.csv" b "data.csv" "data.csv" c1 c2).
  - reflexivity.
  - simpl. lia.
  - vm_compute. reflexivity.
  - vm_compute. reflexivity.
Defined.

(** ** [GetTranspose] and [PushCSC] together: the column page of a matrix *)

(** The row of a triple as the 32-bit [bst_uint] that an entry can hold. *)
Lemma wrap_row_map (p : SparsePage) :
  map (fun ie : nat * Entry =>
         (index (snd ie), wrap32 (base_rowid p + Z.of_nat (fst ie)),
          fvalue (snd ie)))
      (indexed 0 (rows_of p))
  = map swap_triple (map wrap_row (triples p)).
Proof.
  unfold triples. rewrite !map_map. apply map_ext. intros [i e]. reflexivity.
Qed.

Lemma indexed_length (rs : list (list Entry)) (i0 : nat) :
  length (indexed i0 rs) = length (concat rs).
Proof.
  revert i0. induction rs as [|r t IH]; intros i0; [reflexivity|].
  cbn [indexed concat]. rewrite !length_app, length_map, IH. reflexivity.
Qed.

(** Rows below [2 ^ 32] are recorded as they are. *)
Lemma wrap_row_id (p : SparsePage) :
  0 <= base_rowid p /\ base_rowid p + vsize (offset p) - 1 <= 2 ^ 32 ->
  map wrap_row (triples p) = triples p.
Proof.
  intros [Hb Hr]. unfold triples. rewrite map_map.
  apply map_ext_in. intros [i e] Hie.
  apply indexed_In in Hie as [Hi _]. rewrite rows_of_length in Hi.
  unfold wrap_row. cbn [fst snd].
  rewrite wrap32_small; [reflexivity|]. unfold vsize in *. lia.
Qed.

Section ColumnPage.
Variable omp_get_max_threads : nat.
Variable omp_get_thread_num : nat -> nat -> nat.
Hypothesis thread_num_lt :
  forall n i, (i < n)%nat -> (omp_get_thread_num n i < omp_get_max_threads)%nat.

Lemma GetTranspose_triples_csc (P : SparsePage) (n : Z) :
  page_invariant P -> 0 <= n <= INT_MAX ->
  vsize (offset P) <= 2 ^ 63 ->
  Forall (fun e => 0 <= index e < n) (data P) ->
  exists T,
    GetTranspose omp_get_max_threads omp_get_thread_num P n = Ok T
    /\ page_invariant T
    /\ base_rowid T = 0
    /\ vsize (offset T) = n + 1
    /\ vsize (data T) = vsize (data P)
    /\ triples_csc T ≡ₚ map wrap_row (triples P).
Proof.
  intros HI Hn Hsz Hidx.
  assert (Hlen : vsize (rows_of P) = vsize (offset P) - 1).
  { unfold vsize. rewrite rows_of_length. destruct HI as (H0 & _).
    apply lookup_lt_Some in H0. lia. }
  destruct (GetTranspose_pos_triples omp_get_max_threads omp_get_thread_num
              thread_num_lt P n HI Hn) as (T & HT & HIT & HbT & HlT & HpT);
    [lia | exact Hidx |].
  exists T. split; [exact HT|]. split; [exact HIT|]. split; [exact HbT|].
  assert (Hcsc : triples_csc T ≡ₚ map wrap_row (triples P)).
  { rewrite triples_csc_swap, HpT, wrap_row_map.
    rewrite map_swap_triple_involutive. reflexivity. }
  split; [|split; [|exact Hcsc]].
  - pose proof (lookup_lt_Some _ _ _ (proj1 HIT)) as Hne.
    rewrite rows_of_length in HlT. unfold vsize. lia.
  - apply Permutation_length in Hcsc.
    unfold triples_csc, triples in Hcsc. rewrite !length_map in Hcsc.
    rewrite !indexed_length in Hcsc.
    rewrite (page_data_rows T HIT), (page_data_rows P HI).
    unfold vsize. f_equal. exact Hcsc.
Qed.

(** X20: the transposed page has [num_columns] columns, as many entries as
    the page and [base_rowid] 0; it holds the triples of the page with the
    row of each as a 32-bit number, [base_rowid + i] modulo [2 ^ 32]. *)
Theorem GetTranspose_row_index (P : SparsePage) (n : Z) :
  page_invariant P -> 0 <= n <= INT_MAX ->
  vsize (offset P) <= 2 ^ 63 ->
  Forall (fun e => 0 <= index e < n) (data P) ->
  exists T,
    GetTranspose omp_get_max_threads omp_get_thread_num P n = Ok T
    /\ base_rowid T = 0
    /\ vsize (offset T) = n + 1
    /\ vsize (data T) = vsize (data P)
    /\ triples_csc T ≡ₚ map wrap_row (triples P).
Proof.
  intros HI Hn Hsz Hidx.
  destruct (GetTranspose_triples_csc P n HI Hn Hsz Hidx)
    as (T & HT & _ & Hb & Ho & Hd & Hc).
  exists T. auto.
Qed.

(** X21: the column page of a matrix that comes in two row pages.  The
    transposes of the two pages, merged by [PushCSC], hold the triples of
    both pages, each entry under its column and with its row. *)
Theorem PushCSC_of_transposes (A B : SparsePage) (n : Z) :
  page_invariant A -> page_invariant B -> 0 <= n <= INT_MAX ->
  0 <= base_rowid A -> base_rowid A + vsize (offset A) - 1 <= 2 ^ 32 ->
  0 <= base_rowid B -> base_rowid B + vsize (offset B) - 1 <= 2 ^ 32 ->
  Forall (fun e => 0 <= index e < n) (data A) ->
  Forall (fun e => 0 <= index e < n) (data B) ->
  vsize (data A) + vsize (data B) < 2 ^ 64 ->
  exists TA TB R,
    GetTranspose omp_get_max_threads omp_get_thread_num A n = Ok TA
    /\ GetTranspose omp_get_max_threads omp_get_thread_num B n = Ok TB
    /\ PushCSC TA TB = Ok R
    /\ triples_csc R ≡ₚ triples A ++ triples B.
Proof.
  intros HA HB Hn HbA HrA HbB HrB HiA HiB Hfit.
  pose proof (vsize_nonneg (offset A)). pose proof (vsize_nonneg (offset B)).
  destruct (GetTranspose_triples_csc A n HA Hn ltac:(lia) HiA)
    as (TA & HTA & HITA & _ & HoA & HdA & HcA).
  destruct (GetTranspose_triples_csc B n HB Hn ltac:(lia) HiB)
    as (TB & HTB & HITB & _ & HoB & HdB & HcB).
  assert (Haddr : addressable TA TB).
  { unfold addressable, INT_MAX in *. split; lia. }
  destruct (PushCSC_succeeds TA TB HITA HITB Haddr) as [R HR].
  { right. right. unfold vsize in *. lia. }
  exists TA, TB, R. split; [exact HTA|]. split; [exact HTB|]. split; [exact HR|].
  rewrite (PushCSC_triples TA TB R HITA HITB Haddr HR), HcA, HcB.
  rewrite (wrap_row_id A) by (split; [exact HbA | lia]).
  rewrite (wrap_row_id B) by (split; [exact HbB | lia]).
  reflexivity.
Qed.
End ColumnPage.

Lemma GetTranspose_row_index_witness :
  let P := mkPage [0; 2; 3] [mkEntry 0 10; mkEntry 2 11; mkEntry 2 12] (2 ^ 32 - 1) in
  exists T,
    GetTranspose 2 (fun _ i => (i mod 2)%nat) P 3 = Ok T
    /\ base_rowid T = 0
    /\ vsize (offset T) = 3 + 1
    /\ vsize (data T) = vsize (data P)
    /\ triples_csc T ≡ₚ map wrap_row (triples P).
Proof.
  intros P.
  assert (Hsched : forall n i : nat, (i < n)%nat -> (i mod 2 < 2)%nat)
    by (intros n i _; apply Nat.mod_upper_bound; lia).
  apply (GetTranspose_row_index 2 (fun _ i => (i mod 2)%nat) Hsched P 3).
  - repeat split; simpl; lia.
  - unfold INT_MAX. lia.
  - vm_compute. discriminate.
  - repeat constructor; simpl; lia.
Defined.

Lemma PushCSC_of_transposes_witness :
  let A := mkPage [0; 2; 3] [mkEntry 0 10; mkEntry 2 11; mkEntry 2 12] 0 in
  let B := mkPage [0; 1; 1] [mkEntry 1 13] 2 in
  exists TA TB R,
    GetTranspose 2 (fun _ i => (i mod 2)%nat) A 3 = Ok TA
    /\ GetTranspose 2 (fun _ i => (i mod 2)%nat) B 3 = Ok TB
    /\ PushCSC TA TB = Ok R
    /\ triples_csc R ≡ₚ triples A ++ triples B.
Proof.
  intros A B.
  assert (Hsched : forall n i : nat, (i < n)%nat -> (i mod 2 < 2)%nat)
    by (intros n i _; apply Nat.mod_upper_bound; lia).
  apply (PushCSC_of_transposes 2 (fun _ i => (i mod 2)%nat) Hsched A B 3).
  - repeat split; simpl; lia.
  - repeat split; simpl; lia.
  - unfold INT_MAX. lia.
  - simpl. lia.
  - vm_compute. discriminate.
  - simpl. lia.
  - vm_compute. discriminate.
  - repeat constructor; simpl; lia.
  - repeat constructor; simpl; lia.
  - vm_compute. reflexivity.
Defined.
